(** * safebuffer: a shallow embedding of [ResizableBuffer] (safebuffer.go)

    The Go program keeps a byte slice [buffer] and an integer [offset].
    Slices are views into backing arrays that several handles may share
    (the parent and a sub-buffer, or an argument slice and the buffer
    itself), so the embedding threads an explicit heap of backing arrays
    through every method and represents a slice by its header: the backing
    array, the position of its first element, its length and its capacity.
    A run-time panic (index or slice bounds out of range, negative [make])
    is the result [None]. *)

From Stdlib Require Import ZArith String Ascii Lia.
From stdpp Require Import base list.

Local Open Scope Z_scope.

(** ** Data model *)

(** A byte is an integer in [0, 256). *)
Definition byte := Z.

(** Go's [byte(v)] conversion of an unsigned integer keeps the low 8 bits. *)
Definition to_byte (v : Z) : byte := Z.land v 255.

(** The slice header of the Go runtime. *)
Record slice := Slice {
  s_arr : nat;   (* which backing array *)
  s_base : nat;  (* index of the slice's element 0 in that array *)
  s_len : nat;
  s_cap : nat
}.

(** The heap: every backing array allocated so far, addressed by position. *)
Abbreviation heap := (list (list byte)).

(** [type ResizableBuffer struct { buffer []byte; offset int }] *)
Record ResizableBuffer := Buffer {
  buffer : slice;
  offset : Z
}.

(** The Go [error] interface value; [None] is [nil]. *)
Definition error := string.

(** An [io.Reader], seen through one call of [Read(p)]: the bytes it
    produces for the slice it is handed and the error it reports.  The bytes
    are stored at [p[0:k]] and [k] is the count returned. *)
Record Reader := { Read : slice -> list byte * option error }.

(** ** Computations that read and write the heap and may panic *)

Definition M (A : Type) : Type := heap -> option (A * heap).

Definition ret {A} (a : A) : M A := fun h => Some (a, h).

Definition bind {A B} (m : M A) (k : A -> M B) : M B :=
  fun h => match m h with
           | Some (a, h') => k a h'
           | None => None
           end.

Definition lift {A} (o : option A) : M A :=
  fun h => match o with Some a => Some (a, h) | None => None end.

Notation "x <- m ;; k" := (bind m (fun x => k))
  (at level 100, m at next level, right associativity).
Notation "m ;;; k" := (bind m (fun _ => k))
  (at level 100, right associativity).

(** ** Go built-ins on slices *)

(** [len(s)] *)
Definition len (s : slice) : Z := Z.of_nat (s_len s).

Definition array_at (h : heap) (a : nat) : list byte := default [] (h !! a).

(** The elements a slice currently denotes. *)
Definition load (h : heap) (s : slice) : list byte :=
  take (s_len s) (drop (s_base s) (array_at h (s_arr s))).

(** Overwrite [l] from position [i] on with the bytes [d]. *)
Definition splice (l : list byte) (i : nat) (d : list byte) : list byte :=
  take i l ++ d ++ drop (i + length d) l.

(** Overwrite array [a] of the heap from position [i] on with [d]. *)
Definition poke (a i : nat) (d : list byte) (h : heap) : heap :=
  <[a := splice (array_at h a) i d]> h.

(** [s[lo:hi]]: panics unless [0 <= lo <= hi <= cap(s)]. *)
Definition slice_range (s : slice) (lo hi : Z) : option slice :=
  if (0 <=? lo) && (lo <=? hi) && (hi <=? Z.of_nat (s_cap s))
  then Some (Slice (s_arr s) (s_base s + Z.to_nat lo)
                   (Z.to_nat (hi - lo)) (s_cap s - Z.to_nat lo))
  else None.

(** [s[lo:]] is [s[lo:len(s)]]. *)
Definition slice_from (s : slice) (lo : Z) : option slice :=
  slice_range s lo (len s).

(** [s[:hi]] is [s[0:hi]]. *)
Definition slice_to (s : slice) (hi : Z) : option slice :=
  slice_range s 0 hi.

(** [make([]byte, n)]: a fresh zeroed array; panics on a negative length. *)
Definition make (n : Z) : M slice :=
  fun h => if n <? 0 then None
           else Some (Slice (length h) 0 (Z.to_nat n) (Z.to_nat n),
                      h ++ [replicate (Z.to_nat n) 0]).

(** [copy(dst, src)]: moves [min(len(dst), len(src))] elements, reading all
    of them before writing any (the regions may overlap). *)
Definition copy (dst src : slice) : M Z :=
  fun h => let n := Nat.min (s_len dst) (s_len src) in
           Some (Z.of_nat n,
                 poke (s_arr dst) (s_base dst) (take n (load h src)) h).

(** The bytes of a Go string. *)
Fixpoint string_bytes (s : string) : list byte :=
  match s with
  | EmptyString => []
  | String c s' => Z.of_N (N_of_ascii c) :: string_bytes s'
  end.

(** [copy(dst, str)] with a string source. *)
Definition copy_string (dst : slice) (p : string) : M Z :=
  fun h => let n := Nat.min (s_len dst) (length (string_bytes p)) in
           Some (Z.of_nat n,
                 poke (s_arr dst) (s_base dst) (take n (string_bytes p)) h).

(** [s[i] = v]: panics unless [0 <= i < len(s)]. *)
Definition set_index (s : slice) (i : Z) (v : byte) : M unit :=
  fun h => if (0 <=? i) && (i <? len s)
           then Some (tt, poke (s_arr s) (s_base s + Z.to_nat i) [v] h)
           else None.

(** [_ = s[i]]: the bounds check alone. *)
Definition check_index (s : slice) (i : Z) : M unit :=
  fun h => if (0 <=? i) && (i <? len s) then Some (tt, h) else None.

(** [clear(s)] zeroes the elements of [s]. *)
Definition clear (s : slice) : M unit :=
  fun h => Some (tt, poke (s_arr s) (s_base s) (replicate (s_len s) 0) h).

(** One [r.Read(p)]: the bytes produced are stored from [p[0]] on; storing
    past [len(p)] is an index out of range. *)
Definition reader_read (r : Reader) (p : slice) : M (Z * option error) :=
  fun h => let (d, e) := Read r p in
           if (length d <=? s_len p)%nat
           then Some ((Z.of_nat (length d), e), poke (s_arr p) (s_base p) d h)
           else None.

(** [x := s[i]]: panics unless [0 <= i < len(s)]. *)
Definition get_index (s : slice) (i : Z) : M byte :=
  fun h => if (0 <=? i) && (i <? len s)
           then match load h s !! Z.to_nat i with
                | Some x => Some (x, h)
                | None => None
                end
           else None.

(** ** encoding/binary (Go standard library)

    [PutUintN] does an early bounds check on the last index and then assigns
    [b[0]], [b[1]], ... in turn; [UintN] reads them back.  Arithmetic on
    [uintN] wraps modulo [2^N]. *)

Definition wrap (w : Z) (x : Z) : Z := x mod 2 ^ w.

(** [s[i] = x0; s[i+1] = x1; ...] *)
Fixpoint set_indices (s : slice) (i : Z) (xs : list byte) : M unit :=
  match xs with
  | [] => ret tt
  | x :: xs' => set_index s i x ;;; set_indices s (i + 1) xs'
  end.

Definition le_bytes16 (v : Z) : list byte :=
  [to_byte v; to_byte (Z.shiftr v 8)].
Definition be_bytes16 (v : Z) : list byte :=
  [to_byte (Z.shiftr v 8); to_byte v].
Definition le_bytes32 (v : Z) : list byte :=
  [to_byte v; to_byte (Z.shiftr v 8); to_byte (Z.shiftr v 16);
   to_byte (Z.shiftr v 24)].
Definition be_bytes32 (v : Z) : list byte :=
  [to_byte (Z.shiftr v 24); to_byte (Z.shiftr v 16); to_byte (Z.shiftr v 8);
   to_byte v].
Definition le_bytes64 (v : Z) : list byte :=
  [to_byte v; to_byte (Z.shiftr v 8); to_byte (Z.shiftr v 16);
   to_byte (Z.shiftr v 24); to_byte (Z.shiftr v 32); to_byte (Z.shiftr v 40);
   to_byte (Z.shiftr v 48); to_byte (Z.shiftr v 56)].
Definition be_bytes64 (v : Z) : list byte :=
  [to_byte (Z.shiftr v 56); to_byte (Z.shiftr v 48); to_byte (Z.shiftr v 40);
   to_byte (Z.shiftr v 32); to_byte (Z.shiftr v 24); to_byte (Z.shiftr v 16);
   to_byte (Z.shiftr v 8); to_byte v].

Definition LittleEndian_PutUint16 (b : slice) (v : Z) : M unit :=
  check_index b 1 ;;; set_indices b 0 (le_bytes16 v).
Definition BigEndian_PutUint16 (b : slice) (v : Z) : M unit :=
  check_index b 1 ;;; set_indices b 0 (be_bytes16 v).
Definition LittleEndian_PutUint32 (b : slice) (v : Z) : M unit :=
  check_index b 3 ;;; set_indices b 0 (le_bytes32 v).
Definition BigEndian_PutUint32 (b : slice) (v : Z) : M unit :=
  check_index b 3 ;;; set_indices b 0 (be_bytes32 v).
Definition LittleEndian_PutUint64 (b : slice) (v : Z) : M unit :=
  check_index b 7 ;;; set_indices b 0 (le_bytes64 v).
Definition BigEndian_PutUint64 (b : slice) (v : Z) : M unit :=
  check_index b 7 ;;; set_indices b 0 (be_bytes64 v).

(** [uintN(b[i]) << k], computed in [uintN]. *)
Definition shl (w : Z) (x : byte) (k : Z) : Z := wrap w (Z.shiftl x k).

Definition LittleEndian_Uint16 (b : slice) : M Z :=
  check_index b 1 ;;;
  b0 <- get_index b 0 ;; b1 <- get_index b 1 ;;
  ret (Z.lor b0 (shl 16 b1 8)).
Definition BigEndian_Uint16 (b : slice) : M Z :=
  check_index b 1 ;;;
  b0 <- get_index b 0 ;; b1 <- get_index b 1 ;;
  ret (Z.lor b1 (shl 16 b0 8)).
Definition LittleEndian_Uint32 (b : slice) : M Z :=
  check_index b 3 ;;;
  b0 <- get_index b 0 ;; b1 <- get_index b 1 ;;
  b2 <- get_index b 2 ;; b3 <- get_index b 3 ;;
  ret (Z.lor (Z.lor (Z.lor b0 (shl 32 b1 8)) (shl 32 b2 16)) (shl 32 b3 24)).
Definition BigEndian_Uint32 (b : slice) : M Z :=
  check_index b 3 ;;;
  b0 <- get_index b 0 ;; b1 <- get_index b 1 ;;
  b2 <- get_index b 2 ;; b3 <- get_index b 3 ;;
  ret (Z.lor (Z.lor (Z.lor b3 (shl 32 b2 8)) (shl 32 b1 16)) (shl 32 b0 24)).
Definition LittleEndian_Uint64 (b : slice) : M Z :=
  check_index b 7 ;;;
  b0 <- get_index b 0 ;; b1 <- get_index b 1 ;;
  b2 <- get_index b 2 ;; b3 <- get_index b 3 ;;
  b4 <- get_index b 4 ;; b5 <- get_index b 5 ;;
  b6 <- get_index b 6 ;; b7 <- get_index b 7 ;;
  ret (Z.lor (Z.lor (Z.lor (Z.lor (Z.lor (Z.lor (Z.lor
         b0 (shl 64 b1 8)) (shl 64 b2 16)) (shl 64 b3 24)) (shl 64 b4 32))
         (shl 64 b5 40)) (shl 64 b6 48)) (shl 64 b7 56)).
Definition BigEndian_Uint64 (b : slice) : M Z :=
  check_index b 7 ;;;
  b0 <- get_index b 0 ;; b1 <- get_index b 1 ;;
  b2 <- get_index b 2 ;; b3 <- get_index b 3 ;;
  b4 <- get_index b 4 ;; b5 <- get_index b 5 ;;
  b6 <- get_index b 6 ;; b7 <- get_index b 7 ;;
  ret (Z.lor (Z.lor (Z.lor (Z.lor (Z.lor (Z.lor (Z.lor
         b7 (shl 64 b6 8)) (shl 64 b5 16)) (shl 64 b4 24)) (shl 64 b3 32))
         (shl 64 b2 40)) (shl 64 b1 48)) (shl 64 b0 56)).

(** ** ResizableBuffer

    Lengths and offsets are Go [int]s; they are bounded by the size of an
    allocated array, so their arithmetic is that of [Z].  Allocation always
    succeeds (memory is unbounded).  A method with receiver
    [b *ResizableBuffer] takes the struct and returns it updated; the
    pointer the Go method returns for chaining is that same struct. *)

(** [[]byte{}] *)
Definition empty_slice : slice := Slice 0 0 0 0.

(** [NewResizableBuffer(b)]; [None] is the nil slice. *)
Definition NewResizableBuffer (b : option slice) : ResizableBuffer :=
  let b := match b with None => empty_slice | Some s => s end in
  {| buffer := b; offset := 0 |}.

Definition ensureCapacity (n : Z) (b : ResizableBuffer) : M ResizableBuffer :=
  if len (buffer b) - offset b <? n then
    buf <- make (n + len (buffer b)) ;;
    copy buf (buffer b) ;;;
    ret {| buffer := buf; offset := offset b |}
  else ret b.

Definition CopyBytes (p : slice) (b : ResizableBuffer) : M ResizableBuffer :=
  b <- ensureCapacity (len p) b ;;
  dst <- lift (slice_from (buffer b) (offset b)) ;;
  copy dst p ;;;
  ret {| buffer := buffer b; offset := offset b + len p |}.

Definition CopyString (p : string) (b : ResizableBuffer) : M ResizableBuffer :=
  b <- ensureCapacity (Z.of_nat (length (string_bytes p))) b ;;
  dst <- lift (slice_from (buffer b) (offset b)) ;;
  copy_string dst p ;;;
  ret {| buffer := buffer b;
         offset := offset b + Z.of_nat (length (string_bytes p)) |}.

Definition Byte (bt : byte) (b : ResizableBuffer) : M ResizableBuffer :=
  b <- ensureCapacity 1 b ;;
  set_index (buffer b) (offset b) bt ;;;
  ret {| buffer := buffer b; offset := offset b + 1 |}.

Definition CRLF (b : ResizableBuffer) : M ResizableBuffer :=
  b <- ensureCapacity 2 b ;;
  set_index (buffer b) (offset b) 13 ;;;
  set_index (buffer b) (offset b + 1) 10 ;;;
  ret {| buffer := buffer b; offset := offset b + 2 |}.

Definition Uint16 (v : Z) (littleEndian : bool) (b : ResizableBuffer)
  : M ResizableBuffer :=
  b <- ensureCapacity 2 b ;;
  dst <- lift (slice_from (buffer b) (offset b)) ;;
  (if littleEndian then LittleEndian_PutUint16 dst v
   else BigEndian_PutUint16 dst v) ;;;
  ret {| buffer := buffer b; offset := offset b + 2 |}.

Definition Uint32 (v : Z) (littleEndian : bool) (b : ResizableBuffer)
  : M ResizableBuffer :=
  b <- ensureCapacity 4 b ;;
  dst <- lift (slice_from (buffer b) (offset b)) ;;
  (if littleEndian then LittleEndian_PutUint32 dst v
   else BigEndian_PutUint32 dst v) ;;;
  ret {| buffer := buffer b; offset := offset b + 4 |}.

Definition Uint64 (v : Z) (littleEndian : bool) (b : ResizableBuffer)
  : M ResizableBuffer :=
  b <- ensureCapacity 8 b ;;
  dst <- lift (slice_from (buffer b) (offset b)) ;;
  (if littleEndian then LittleEndian_PutUint64 dst v
   else BigEndian_PutUint64 dst v) ;;;
  ret {| buffer := buffer b; offset := offset b + 8 |}.

(** [uintN(v)] of a signed [v]: the two's-complement bit pattern. *)
Definition Int16 (v : Z) (littleEndian : bool) : ResizableBuffer -> M ResizableBuffer :=
  Uint16 (wrap 16 v) littleEndian.
Definition Int32 (v : Z) (littleEndian : bool) : ResizableBuffer -> M ResizableBuffer :=
  Uint32 (wrap 32 v) littleEndian.
Definition Int64 (v : Z) (littleEndian : bool) : ResizableBuffer -> M ResizableBuffer :=
  Uint64 (wrap 64 v) littleEndian.

(** A float is represented by its IEEE-754 bit pattern, which is what
    [math.Float32bits] and [math.Float64bits] return. *)
Definition Float32bits (v : Z) : Z := wrap 32 v.
Definition Float64bits (v : Z) : Z := wrap 64 v.

Definition Float32 (v : Z) (littleEndian : bool) : ResizableBuffer -> M ResizableBuffer :=
  Uint32 (Float32bits v) littleEndian.
Definition Float64 (v : Z) (littleEndian : bool) : ResizableBuffer -> M ResizableBuffer :=
  Uint64 (Float64bits v) littleEndian.

(** [b.buffer[:b.offset]] *)
Definition Bytes (b : ResizableBuffer) : M slice :=
  lift (slice_to (buffer b) (offset b)).

Definition Len (b : ResizableBuffer) : Z := offset b.

Definition prependStart (n : Z) (f : slice -> M unit) (b : ResizableBuffer)
  : M ResizableBuffer :=
  b <- (if len (buffer b) - offset b <? n then
          buf <- make (n + len (buffer b)) ;;
          dst <- lift (slice_from buf n) ;;
          copy dst (buffer b) ;;;
          ret {| buffer := buf; offset := offset b |}
        else
          dst <- lift (slice_from (buffer b) n) ;;
          copy dst (buffer b) ;;;
          ret b) ;;
  f (buffer b) ;;;
  ret {| buffer := buffer b; offset := offset b + n |}.

Definition PrependBytes (v : slice) : ResizableBuffer -> M ResizableBuffer :=
  prependStart (len v) (fun b => copy b v ;;; ret tt).

Definition PrependByte (v : byte) : ResizableBuffer -> M ResizableBuffer :=
  prependStart 1 (fun b => set_index b 0 v).

Definition PrependString (v : string) : ResizableBuffer -> M ResizableBuffer :=
  prependStart (Z.of_nat (length (string_bytes v)))
               (fun b => copy_string b v ;;; ret tt).

Definition PrependUint16 (v : Z) (littleEndian : bool)
  : ResizableBuffer -> M ResizableBuffer :=
  prependStart 2 (fun b => if littleEndian then LittleEndian_PutUint16 b v
                           else BigEndian_PutUint16 b v).

Definition PrependUint32 (v : Z) (littleEndian : bool)
  : ResizableBuffer -> M ResizableBuffer :=
  prependStart 4 (fun b => if littleEndian then LittleEndian_PutUint32 b v
                           else BigEndian_PutUint32 b v).

Definition PrependUint64 (v : Z) (littleEndian : bool)
  : ResizableBuffer -> M ResizableBuffer :=
  prependStart 8 (fun b => if littleEndian then LittleEndian_PutUint64 b v
                           else BigEndian_PutUint64 b v).

Definition PrependInt16 (v : Z) (littleEndian : bool) :=
  PrependUint16 (wrap 16 v) littleEndian.
Definition PrependInt32 (v : Z) (littleEndian : bool) :=
  PrependUint32 (wrap 32 v) littleEndian.
Definition PrependInt64 (v : Z) (littleEndian : bool) :=
  PrependUint64 (wrap 64 v) littleEndian.
Definition PrependFloat32 (v : Z) (littleEndian : bool) :=
  PrependUint32 (Float32bits v) littleEndian.
Definition PrependFloat64 (v : Z) (littleEndian : bool) :=
  PrependUint64 (Float64bits v) littleEndian.

Definition Reset (zeroOut : bool) (b : ResizableBuffer) : M ResizableBuffer :=
  (if zeroOut then
     s <- lift (slice_to (buffer b) (offset b)) ;; clear s
   else ret tt) ;;;
  ret {| buffer := buffer b; offset := 0 |}.

(** Returns the chunk, the reader's error and the updated buffer. *)
Definition ReadInto (r : Reader) (maxSize : Z) (b : ResizableBuffer)
  : M (slice * option error * ResizableBuffer) :=
  bm <- (if 0 <? maxSize then
           b' <- ensureCapacity maxSize b ;; ret (b', maxSize)
         else ret (b, len (buffer b) - offset b)) ;;
  let b := fst bm in
  let maxSize := snd bm in
  p <- lift (slice_range (buffer b) (offset b) (offset b + maxSize)) ;;
  ne <- reader_read r p ;;
  chunk <- lift (slice_range (buffer b) (offset b) (offset b + fst ne)) ;;
  ret (chunk, snd ne, {| buffer := buffer b; offset := offset b + fst ne |}).

(** Returns the sub-buffer and the updated parent. *)
Definition SubBuffer (length : Z) (b : ResizableBuffer)
  : M (ResizableBuffer * ResizableBuffer) :=
  let length := if length <? 0 then len (buffer b) - offset b else length in
  b <- ensureCapacity length b ;;
  s <- lift (slice_range (buffer b) (offset b) (offset b + length)) ;;
  ret ({| buffer := s; offset := 0 |},
       {| buffer := buffer b; offset := offset b + length |}).

(** ** Well-formed slices and the buffer invariant *)

(** A slice header is valid in a heap when its length is within its capacity
    and its capacity lies within its backing array (a slice of capacity 0,
    such as nil or [[]byte{}], needs no array). *)
Definition valid (h : heap) (s : slice) : bool :=
  (s_len s <=? s_cap s)%nat &&
  ((s_cap s =? 0)%nat ||
   (s_base s + s_cap s <=? length (array_at h (s_arr s)))%nat).

(** The state invariant: [0 <= offset <= len(buffer)] over a valid slice. *)
Definition inv (h : heap) (b : ResizableBuffer) : bool :=
  valid h (buffer b) && (0 <=? offset b) && (offset b <=? len (buffer b)).

(** The logical content [storage[0:cursor]]. *)
Definition content (h : heap) (b : ResizableBuffer) : list byte :=
  take (Z.to_nat (offset b)) (load h (buffer b)).


(** ** The two families of writes

    Every append-style method and every prepend-style method, as data, with
    the bytes each one is given to write. *)

Definition bytes16 (littleEndian : bool) (v : Z) : list byte :=
  if littleEndian then le_bytes16 v else be_bytes16 v.
Definition bytes32 (littleEndian : bool) (v : Z) : list byte :=
  if littleEndian then le_bytes32 v else be_bytes32 v.
Definition bytes64 (littleEndian : bool) (v : Z) : list byte :=
  if littleEndian then le_bytes64 v else be_bytes64 v.

Inductive append_op :=
| ACopyBytes (p : slice)
| ACopyString (p : string)
| AByte (bt : byte)
| ACRLF
| AUint16 (v : Z) (littleEndian : bool)
| AUint32 (v : Z) (littleEndian : bool)
| AUint64 (v : Z) (littleEndian : bool)
| AInt16 (v : Z) (littleEndian : bool)
| AInt32 (v : Z) (littleEndian : bool)
| AInt64 (v : Z) (littleEndian : bool)
| AFloat32 (v : Z) (littleEndian : bool)
| AFloat64 (v : Z) (littleEndian : bool).

Definition run_append (op : append_op) : ResizableBuffer -> M ResizableBuffer :=
  match op with
  | ACopyBytes p => CopyBytes p
  | ACopyString p => CopyString p
  | AByte bt => Byte bt
  | ACRLF => CRLF
  | AUint16 v le => Uint16 v le
  | AUint32 v le => Uint32 v le
  | AUint64 v le => Uint64 v le
  | AInt16 v le => Int16 v le
  | AInt32 v le => Int32 v le
  | AInt64 v le => Int64 v le
  | AFloat32 v le => Float32 v le
  | AFloat64 v le => Float64 v le
  end.

(** The bytes an append is given, as they stand in the heap at the call. *)
Definition append_bytes (h : heap) (op : append_op) : list byte :=
  match op with
  | ACopyBytes p => load h p
  | ACopyString p => string_bytes p
  | AByte bt => [bt]
  | ACRLF => [13; 10]
  | AUint16 v le => bytes16 le v
  | AUint32 v le => bytes32 le v
  | AUint64 v le => bytes64 le v
  | AInt16 v le => bytes16 le (wrap 16 v)
  | AInt32 v le => bytes32 le (wrap 32 v)
  | AInt64 v le => bytes64 le (wrap 64 v)
  | AFloat32 v le => bytes32 le (Float32bits v)
  | AFloat64 v le => bytes64 le (Float64bits v)
  end.

(** A slice argument has to be a valid slice of the heap. *)
Definition append_ok (h : heap) (op : append_op) : bool :=
  match op with
  | ACopyBytes p => valid h p
  | _ => true
  end.

Inductive prepend_op :=
| PBytes (v : slice)
| PByte (v : byte)
| PString (v : string)
| PUint16 (v : Z) (littleEndian : bool)
| PUint32 (v : Z) (littleEndian : bool)
| PUint64 (v : Z) (littleEndian : bool)
| PInt16 (v : Z) (littleEndian : bool)
| PInt32 (v : Z) (littleEndian : bool)
| PInt64 (v : Z) (littleEndian : bool)
| PFloat32 (v : Z) (littleEndian : bool)
| PFloat64 (v : Z) (littleEndian : bool).

Definition run_prepend (op : prepend_op) : ResizableBuffer -> M ResizableBuffer :=
  match op with
  | PBytes v => PrependBytes v
  | PByte v => PrependByte v
  | PString v => PrependString v
  | PUint16 v le => PrependUint16 v le
  | PUint32 v le => PrependUint32 v le
  | PUint64 v le => PrependUint64 v le
  | PInt16 v le => PrependInt16 v le
  | PInt32 v le => PrependInt32 v le
  | PInt64 v le => PrependInt64 v le
  | PFloat32 v le => PrependFloat32 v le
  | PFloat64 v le => PrependFloat64 v le
  end.

(** The bytes a prepend is given, as they stand in the heap at the call. *)
Definition prepend_bytes (h : heap) (op : prepend_op) : list byte :=
  match op with
  | PBytes v => load h v
  | PByte v => [v]
  | PString v => string_bytes v
  | PUint16 v le => bytes16 le v
  | PUint32 v le => bytes32 le v
  | PUint64 v le => bytes64 le v
  | PInt16 v le => bytes16 le (wrap 16 v)
  | PInt32 v le => bytes32 le (wrap 32 v)
  | PInt64 v le => bytes64 le (wrap 64 v)
  | PFloat32 v le => bytes32 le (Float32bits v)
  | PFloat64 v le => bytes64 le (Float64bits v)
  end.

Definition prepend_ok (h : heap) (op : prepend_op) : bool :=
  match op with
  | PBytes v => valid h v
  | _ => true
  end.

(** The argument slice [v] of a [PrependBytes] keeps clear of the part of
    the buffer's storage that the in-place shift by [len(v)] overwrites,
    [storage[len(v):C]]: the prepend reallocates, or [v] is empty, or it
    lives in another array, or it ends at or before [storage[len(v)]] (it
    starts at or before [storage[0]]), or it starts at or after
    [storage[C]]. *)
Definition clear_of_shift (b : ResizableBuffer) (v : slice) : bool :=
  (len (buffer b) - offset b <? len v)
  || (s_len v =? 0)%nat
  || negb (s_arr v =? s_arr (buffer b))%nat
  || (s_base v <=? s_base (buffer b))%nat
  || (s_base (buffer b) + s_len (buffer b) <=? s_base v)%nat.

Definition prepend_clear (b : ResizableBuffer) (op : prepend_op) : bool :=
  match op with
  | PBytes v => clear_of_shift b v
  | _ => true
  end.

(** ** Every method, as data

    One call of a method on a buffer.  [step] returns the receiver as the
    call leaves it and the sub-buffer the call created, if any. *)

Inductive call :=
| CAppend (op : append_op)
| CPrepend (op : prepend_op)
| CReset (zeroOut : bool)
| CReadInto (r : Reader) (maxSize : Z)
| CSubBuffer (length : Z)
| CBytes
| CLen.

Definition step (c : call) (b : ResizableBuffer)
  : M (ResizableBuffer * option ResizableBuffer) :=
  match c with
  | CAppend op => b' <- run_append op b ;; ret (b', None)
  | CPrepend op => b' <- run_prepend op b ;; ret (b', None)
  | CReset zeroOut => b' <- Reset zeroOut b ;; ret (b', None)
  | CReadInto r maxSize => x <- ReadInto r maxSize b ;; ret (snd x, None)
  | CSubBuffer length => x <- SubBuffer length b ;; ret (snd x, Some (fst x))
  | CBytes => Bytes b ;;; ret (b, None)
  | CLen => let _ := Len b in ret (b, None)
  end.

(** What a call needs of its arguments: a slice argument is a valid slice
    of the heap, and a reader keeps the [io.Reader] contract
    [0 <= n <= len(p)]. *)
Definition call_ok (h : heap) (c : call) : Prop :=
  match c with
  | CAppend op => append_ok h op = true
  | CPrepend op => prepend_ok h op = true
  | CReadInto r _ => forall p, (length (fst (Read r p)) <= s_len p)%nat
  | _ => True
  end.

(** ** States used to describe the methods' effects *)

(** The state [ensureCapacity(n)] leaves behind. *)
Definition grown (n : Z) (b : ResizableBuffer) (h : heap)
  : ResizableBuffer * heap :=
  if len (buffer b) - offset b <? n then
    ({| buffer := Slice (length h) 0 (Z.to_nat (n + len (buffer b)))
                        (Z.to_nat (n + len (buffer b)));
        offset := offset b |},
     h ++ [load h (buffer b) ++ replicate (Z.to_nat n) 0])
  else (b, h).


(** The state the shift of [prependStart(n, f)] leaves behind, before [f]
    runs. *)
Definition shifted (n : Z) (b : ResizableBuffer) (h : heap)
  : ResizableBuffer * heap :=
  if len (buffer b) - offset b <? n then
    ({| buffer := Slice (length h) 0 (Z.to_nat (n + len (buffer b)))
                        (Z.to_nat (n + len (buffer b)));
        offset := offset b |},
     h ++ [replicate (Z.to_nat n) 0 ++ load h (buffer b)])
  else
    (b, poke (s_arr (buffer b)) (s_base (buffer b) + Z.to_nat n)
             (take (Z.to_nat (len (buffer b) - n)) (load h (buffer b))) h).

(** The state an append of the bytes [d] leaves behind. *)
Definition appended (d : list byte) (b : ResizableBuffer) (h : heap)
  : ResizableBuffer * heap :=
  let g := grown (Z.of_nat (length d)) b h in
  ({| buffer := buffer (fst g); offset := offset b + Z.of_nat (length d) |},
   poke (s_arr (buffer (fst g)))
        (s_base (buffer (fst g)) + Z.to_nat (offset b)) d (snd g)).

(** The state a prepend of the bytes [d] leaves behind. *)
Definition prepended (d : list byte) (b : ResizableBuffer) (h : heap)
  : ResizableBuffer * heap :=
  let g := shifted (Z.of_nat (length d)) b h in
  ({| buffer := buffer (fst g); offset := offset b + Z.of_nat (length d) |},
   poke (s_arr (buffer (fst g))) (s_base (buffer (fst g))) d (snd g)).

(** [b.buffer[b.offset:]] *)
Definition tail_at (b : ResizableBuffer) : slice :=
  Slice (s_arr (buffer b)) (s_base (buffer b) + Z.to_nat (offset b))
        (Z.to_nat (len (buffer b) - offset b))
        (s_cap (buffer b) - Z.to_nat (offset b)).


(** ** A concrete state

    A buffer over a six-byte array that holds ["abc"] and has three spare
    bytes, as left by [NewResizableBuffer(make([]byte, 6)).CopyString("abc")],
    and the slice [b.Bytes()[1:3]] of its own content. *)

Definition abc_heap : heap := [[97; 98; 99; 0; 0; 0]].
Definition abc_buffer : ResizableBuffer :=
  {| buffer := Slice 0 0 6 6; offset := 3 |}.
Definition abc_inner : slice := Slice 0 1 2 5.

(** A reader with two bytes to give that reports an error. *)
Definition short_reader : Reader :=
  {| Read := fun p => (take (s_len p) [120; 121], Some "test error"%string) |}.

(** ** Vocabulary for further properties *)

(** Go's [intN(u)] conversion of a [uintN]: the same bit pattern read as a
    two's-complement number. *)
Definition to_signed (w : Z) (u : Z) : Z :=
  if u <? 2 ^ (w - 1) then u else u - 2 ^ w.

(** A chain of writes, as in
    [buf.CopyString("Data: ").Uint32(42, true).PrependByte(0xFF)]. *)
Inductive write :=
| WAppend (op : append_op)
| WPrepend (op : prepend_op).

Definition run_write (w : write) : ResizableBuffer -> M ResizableBuffer :=
  match w with
  | WAppend op => run_append op
  | WPrepend op => run_prepend op
  end.

Fixpoint run_writes (ws : list write) (b : ResizableBuffer)
  : M ResizableBuffer :=
  match ws with
  | [] => ret b
  | w :: ws' => b' <- run_write w b ;; run_writes ws' b'
  end.

(** The write takes its bytes by value (no slice argument). *)
Definition by_value (w : write) : bool :=
  match w with
  | WAppend (ACopyBytes _) => false
  | WPrepend (PBytes _) => false
  | _ => true
  end.

(** What a chain prepends, most recent first, and what it appends, in call
    order. *)
Fixpoint front_bytes (ws : list write) : list byte :=
  match ws with
  | [] => []
  | WPrepend op :: ws' => front_bytes ws' ++ prepend_bytes [] op
  | WAppend _ :: ws' => front_bytes ws'
  end.

Fixpoint back_bytes (ws : list write) : list byte :=
  match ws with
  | [] => []
  | WAppend op :: ws' => append_bytes [] op ++ back_bytes ws'
  | WPrepend _ :: ws' => back_bytes ws'
  end.

(** The slice [s] shares no element with the window [t[0:len(t)]]: it is
    empty, or lives in another array, or ends before the window starts, or
    starts after it ends, or the window is empty. *)
Definition apart (t s : slice) : bool :=
  (s_len s =? 0)%nat
  || negb (s_arr s =? s_arr t)%nat
  || (s_base s + s_len s <=? s_base t)%nat
  || (s_base t + s_len t <=? s_base s)%nat
  || (s_len t =? 0)%nat.

(** The heap [h'] extends [h]: every array of [h] is still there, with the
    length it had. *)
Definition heap_ext (h h' : heap) : Prop :=
  (length h <= length h')%nat /\
  forall a, (a < length h)%nat ->
            length (array_at h' a) = length (array_at h a).

Definition is_reset (c : call) : bool :=
  match c with CReset _ => true | _ => false end.

(** * The embedding on the repository's own test cases *)

Section Tests.

(** README and TestUint16: on an empty buffer, [Uint16(0x0102, true)] gives
    [[2, 1]], big-endian gives [[1, 2]], and [PrependByte(0xFF)] on the
    first gives [[0xFF, 2, 1]]. *)
Example uint16_little_endian :
  (b <- Uint16 258 true (NewResizableBuffer None) ;;
   cs <- Bytes b ;; fun h => Some (load h cs, h)) []
  = Some ([2; 1], [[2; 1]]).
Proof. reflexivity. Qed.

Example uint16_big_endian :
  (b <- Uint16 258 false (NewResizableBuffer None) ;;
   cs <- Bytes b ;; fun h => Some (load h cs, h)) []
  = Some ([1; 2], [[1; 2]]).
Proof. reflexivity. Qed.

Example prepend_byte_after_uint16 :
  (b <- Uint16 258 true (NewResizableBuffer None) ;;
   b <- PrependByte 255 b ;;
   cs <- Bytes b ;; fun h => Some (load h cs, h)) []
  = Some ([255; 2; 1], [[2; 1]; [255; 2; 1]]).
Proof. reflexivity. Qed.

(** createMainTestCase: a one-byte buffer [[1]] with [offset = 1];
    [CopyBytes([1, 2, 3])] swaps the buffer and gives [[1, 1, 2, 3]],
    [PrependBytes([1, 2, 3])] gives [[1, 2, 3, 1]]. *)
Example copy_bytes_main_case :
  (b <- CopyBytes (Slice 1 0 3 3) {| buffer := Slice 0 0 1 1; offset := 1 |} ;;
   cs <- Bytes b ;; fun h => Some (s_arr (buffer b), load h cs, h))
    [[1]; [1; 2; 3]]
  = Some ((2%nat, [1; 1; 2; 3]), [[1]; [1; 2; 3]; [1; 1; 2; 3]]).
Proof. reflexivity. Qed.

Example prepend_bytes_main_case :
  (b <- PrependBytes (Slice 1 0 3 3)
          {| buffer := Slice 0 0 1 1; offset := 1 |} ;;
   cs <- Bytes b ;; fun h => Some (s_arr (buffer b), load h cs, h))
    [[1]; [1; 2; 3]]
  = Some ((2%nat, [1; 2; 3; 1]), [[1]; [1; 2; 3]; [1; 2; 3; 1]]).
Proof. reflexivity. Qed.

(** TestSubBuffer, "bound subbuffer", on a ten-byte buffer: after
    [Byte('A')], [SubBuffer(3)] and [CopyString("BCD")] through the
    sub-buffer, the parent's content is [[1, 'A', 'B', 'C', 'D']]. *)
Example sub_buffer_writes_through :
  (b <- Byte 65 {| buffer := Slice 0 0 10 10; offset := 1 |} ;;
   sp <- SubBuffer 3 b ;;
   CopyString "BCD" (fst sp) ;;;
   cs <- Bytes (snd sp) ;; fun h => Some (load h cs, h))
    [[1; 0; 0; 0; 0; 0; 0; 0; 0; 0]]
  = Some ([1; 65; 66; 67; 68], [[1; 65; 66; 67; 68; 0; 0; 0; 0; 0]]).
Proof. reflexivity. Qed.

(** TestReadInto, "reader errors": nothing is read, the error comes back. *)
Example read_into_error :
  ReadInto {| Read := fun _ => ([], Some "test error"%string) |} (-1)
           {| buffer := Slice 0 0 4 4; offset := 1 |} [[1; 0; 0; 0]]
  = Some ((Slice 0 1 0 3, Some "test error"%string,
           {| buffer := Slice 0 0 4 4; offset := 1 |}), [[1; 0; 0; 0]]).
Proof. reflexivity. Qed.

End Tests.

(** * Lemmas on lists, slices and the heap *)

Section ListFacts.

Lemma splice_length (l d : list byte) (i : nat) :
  (i + length d <= length l)%nat -> length (splice l i d) = length l.
Proof.
  intros H. unfold splice.
  rewrite !length_app, length_take, length_drop. lia.
Qed.

Lemma lookup_splice (l d : list byte) (i k : nat) :
  (i <= length l)%nat ->
  splice l i d !! k =
    if (k <? i)%nat then l !! k
    else if (k <? i + length d)%nat then d !! (k - i)%nat else l !! k.
Proof.
  intros H. unfold splice.
  destruct (Nat.ltb_spec k i) as [Hk|Hk].
  - rewrite lookup_app_l by (rewrite length_take; lia).
    apply lookup_take_lt; lia.
  - rewrite lookup_app_r by (rewrite length_take; lia).
    rewrite length_take, Nat.min_l by lia.
    destruct (Nat.ltb_spec k (i + length d)) as [Hk'|Hk'].
    + apply lookup_app_l; lia.
    + rewrite lookup_app_r by lia. rewrite lookup_drop. f_equal; lia.
Qed.

Lemma splice_nil (l : list byte) (i : nat) : splice l i [] = l.
Proof.
  unfold splice; simpl. rewrite Nat.add_0_r. apply take_drop.
Qed.

Lemma splice_splice (l d1 d2 : list byte) (i : nat) :
  (i + length d1 + length d2 <= length l)%nat ->
  splice (splice l i d1) (i + length d1) d2 = splice l i (d1 ++ d2).
Proof.
  intros H. apply list_eq; intros k.
  rewrite !lookup_splice by (rewrite ?splice_length; lia).
  rewrite length_app.
  repeat match goal with
         | |- context [(?a <? ?b)%nat] => destruct (Nat.ltb_spec a b)
         end; try lia; try reflexivity.
  - symmetry. apply lookup_app_l; lia.
  - rewrite lookup_app_r by lia. f_equal; lia.
Qed.

Lemma splice_self (l : list byte) (i n : nat) :
  splice l i (take n (drop i l)) = l.
Proof.
  destruct (Nat.le_gt_cases i (length l)) as [Hi|Hi].
  - apply list_eq; intros k. rewrite lookup_splice by lia.
    destruct (Nat.ltb_spec k i); [reflexivity|].
    destruct (Nat.ltb_spec k (i + length (take n (drop i l)))) as [Hk|Hk];
      [|reflexivity].
    rewrite length_take in Hk.
    rewrite lookup_take_lt by lia. rewrite lookup_drop. f_equal; lia.
  - rewrite drop_ge by lia. rewrite take_nil. apply splice_nil.
Qed.

Lemma take_splice_before (l d : list byte) (i n : nat) :
  (n <= i)%nat -> (i <= length l)%nat -> take n (splice l i d) = take n l.
Proof.
  intros Hn Hi. unfold splice.
  rewrite take_app_le by (rewrite length_take; lia).
  rewrite take_take. f_equal. lia.
Qed.

Lemma window_splice (l d : list byte) (i : nat) :
  (i <= length l)%nat -> take (length d) (drop i (splice l i d)) = d.
Proof.
  intros Hi. unfold splice.
  rewrite drop_app_length' by (rewrite length_take; lia).
  apply take_app_length.
Qed.

End ListFacts.

Section HeapFacts.

Implicit Types (h : heap) (s : slice) (b : ResizableBuffer) (d : list byte).

Lemma valid_spec h s :
  valid h s = true <->
  (s_len s <= s_cap s)%nat /\
  (s_cap s = 0%nat \/
   (s_base s + s_cap s <= length (array_at h (s_arr s)))%nat).
Proof.
  unfold valid.
  rewrite andb_true_iff, orb_true_iff, !Nat.leb_le, Nat.eqb_eq. tauto.
Qed.

Lemma inv_spec h b :
  inv h b = true <->
  valid h (buffer b) = true /\ 0 <= offset b <= len (buffer b).
Proof.
  unfold inv. rewrite !andb_true_iff, !Z.leb_le. tauto.
Qed.

Lemma array_at_Some h a x : h !! a = Some x -> array_at h a = x.
Proof. unfold array_at. intros ->. reflexivity. Qed.

Lemma array_at_None h a : (length h <= a)%nat -> array_at h a = [].
Proof.
  intros H. unfold array_at. rewrite (lookup_ge_None_2 h a H). reflexivity.
Qed.

Lemma array_at_lt h a : array_at h a <> [] -> (a < length h)%nat.
Proof.
  intros H. destruct (Nat.lt_ge_cases a (length h)) as [|Hge]; [assumption|].
  exfalso. apply H. apply array_at_None. exact Hge.
Qed.

Lemma poke_nil a i h : poke a i [] h = h.
Proof.
  unfold poke. rewrite splice_nil. unfold array_at.
  destruct (h !! a) as [x|] eqn:E; simpl.
  - apply list_insert_id. exact E.
  - apply list_insert_ge. apply lookup_ge_None. exact E.
Qed.

Lemma length_poke a i d h : length (poke a i d h) = length h.
Proof. unfold poke. apply length_insert. Qed.

Lemma array_at_poke_same a i d h :
  (a < length h)%nat -> array_at (poke a i d h) a = splice (array_at h a) i d.
Proof.
  intros H. apply array_at_Some. unfold poke.
  apply list_lookup_insert_eq. exact H.
Qed.

Lemma array_at_poke_ne a a' i d h :
  a <> a' -> array_at (poke a i d h) a' = array_at h a'.
Proof.
  intros H. unfold array_at, poke.
  rewrite list_lookup_insert_ne by exact H. reflexivity.
Qed.

Lemma length_array_at_poke a a' i d h :
  (i + length d <= length (array_at h a))%nat ->
  length (array_at (poke a i d h) a') = length (array_at h a').
Proof.
  intros H. destruct (decide (a = a')) as [<-|Hne].
  - destruct (Nat.lt_ge_cases a (length h)) as [Hlt|Hge].
    + rewrite array_at_poke_same by exact Hlt. apply splice_length. exact H.
    + rewrite !array_at_None by (rewrite ?length_poke; exact Hge). reflexivity.
  - rewrite array_at_poke_ne by exact Hne. reflexivity.
Qed.

Lemma valid_poke a i d h s :
  (i + length d <= length (array_at h a))%nat ->
  valid (poke a i d h) s = valid h s.
Proof.
  intros H. unfold valid. rewrite length_array_at_poke by exact H. reflexivity.
Qed.

Lemma array_at_alloc_old h x a :
  (a < length h)%nat -> array_at (h ++ [x]) a = array_at h a.
Proof.
  intros H. unfold array_at. rewrite lookup_app_l by exact H. reflexivity.
Qed.

Lemma array_at_alloc_new h x : array_at (h ++ [x]) (length h) = x.
Proof.
  apply array_at_Some. rewrite lookup_app_r by lia.
  rewrite Nat.sub_diag. reflexivity.
Qed.

Lemma valid_arr_lt h s :
  valid h s = true -> (0 < s_cap s)%nat -> (s_arr s < length h)%nat.
Proof.
  intros [Hl [H0|Hb]]%valid_spec Hc; [lia|].
  apply array_at_lt. intros E. rewrite E in Hb. simpl in Hb. lia.
Qed.

Lemma valid_alloc h x s : valid h s = true -> valid (h ++ [x]) s = true.
Proof.
  intros Hv. destruct (Nat.eq_0_gt_0_cases (s_cap s)) as [H0|Hpos].
  - apply valid_spec in Hv. apply valid_spec. intuition.
  - pose proof (valid_arr_lt h s Hv Hpos) as Hlt.
    unfold valid in *. rewrite array_at_alloc_old by exact Hlt. exact Hv.
Qed.

Lemma lookup_load h s k :
  load h s !! k =
    if (k <? s_len s)%nat then array_at h (s_arr s) !! (s_base s + k)%nat
    else None.
Proof.
  unfold load. destruct (Nat.ltb_spec k (s_len s)) as [Hk|Hk].
  - rewrite lookup_take_lt by exact Hk. apply lookup_drop.
  - apply lookup_take_ge. exact Hk.
Qed.

Lemma length_load h s : valid h s = true -> length (load h s) = s_len s.
Proof.
  intros [Hl [H0|Hb]]%valid_spec; unfold load;
    rewrite length_take, length_drop; lia.
Qed.

Lemma load_alloc h x s : valid h s = true -> load (h ++ [x]) s = load h s.
Proof.
  intros Hv. destruct (Nat.eq_0_gt_0_cases (s_len s)) as [H0|Hpos].
  - unfold load. rewrite H0. reflexivity.
  - assert (s_arr s < length h)%nat as Hlt.
    { apply valid_arr_lt; [exact Hv|]. apply valid_spec in Hv. lia. }
    unfold load. rewrite array_at_alloc_old by exact Hlt. reflexivity.
Qed.

(** Writing [d] at position [o] of a slice, seen through that slice. *)
Lemma load_poke_in h s o d :
  valid h s = true -> (o + length d <= s_len s)%nat ->
  load (poke (s_arr s) (s_base s + o) d h) s = splice (load h s) o d.
Proof.
  intros Hv Hd. destruct d as [|x d'].
  { rewrite poke_nil, splice_nil. reflexivity. }
  set (d := x :: d') in *.
  assert (0 < length d)%nat as Hpos by (unfold d; simpl; lia).
  pose proof (length_load h s Hv) as HL.
  assert (s_arr s < length h)%nat as Hlt.
  { apply valid_arr_lt; [exact Hv|]. apply valid_spec in Hv. lia. }
  apply valid_spec in Hv as [Hl [H0|Hb]]; [lia|].
  apply list_eq; intros k.
  rewrite lookup_load, array_at_poke_same by exact Hlt.
  rewrite !lookup_splice by lia. rewrite lookup_load.
  repeat match goal with
         | |- context [(?a <? ?b)%nat] => destruct (Nat.ltb_spec a b)
         end; try lia; try reflexivity; f_equal; lia.
Qed.

Lemma load_poke_other h s a i d :
  a <> s_arr s -> load (poke a i d h) s = load h s.
Proof.
  intros H. unfold load. rewrite array_at_poke_ne by exact H. reflexivity.
Qed.

(** Consecutive writes to one array fuse. *)
Lemma poke_poke a i d1 d2 h :
  (i + length d1 + length d2 <= length (array_at h a))%nat ->
  poke a (i + length d1) d2 (poke a i d1 h) = poke a i (d1 ++ d2) h.
Proof.
  intros H. destruct (Nat.lt_ge_cases a (length h)) as [Hlt|Hge].
  - unfold poke at 1. rewrite array_at_poke_same by exact Hlt.
    rewrite splice_splice by exact H.
    unfold poke. apply list_insert_insert_eq.
  - rewrite array_at_None in H by exact Hge. simpl in H.
    assert (d1 = []) as -> by (destruct d1; [reflexivity|simpl in H; lia]).
    assert (d2 = []) as -> by (destruct d2; [reflexivity|simpl in H; lia]).
    rewrite !poke_nil. reflexivity.
Qed.

(** The elements of a sub-slice [s[lo:hi]] with [hi <= len(s)]. *)
Lemma load_slice_range h s lo hi t :
  valid h s = true -> slice_range s lo hi = Some t -> hi <= len s ->
  load h t = take (Z.to_nat (hi - lo)) (drop (Z.to_nat lo) (load h s)).
Proof.
  intros Hv Hr Hhi. unfold slice_range in Hr.
  destruct (_ && _) eqn:Hc in Hr; [|discriminate].
  injection Hr as <-.
  apply andb_true_iff in Hc as [[H1 H2]%andb_true_iff H3].
  apply Z.leb_le in H1, H2, H3. unfold len in Hhi.
  apply list_eq; intros k. rewrite lookup_load; simpl.
  destruct (Nat.ltb_spec k (Z.to_nat (hi - lo))) as [Hk|Hk].
  - rewrite lookup_take_lt by exact Hk. rewrite lookup_drop, lookup_load.
    destruct (Nat.ltb_spec (Z.to_nat lo + k) (s_len s)); [|lia].
    f_equal; lia.
  - symmetry. apply lookup_take_ge. exact Hk.
Qed.

End HeapFacts.

(** * Symbolic execution of the primitives *)

Section Exec.

Implicit Types (h : heap) (s : slice) (b : ResizableBuffer) (d : list byte).

Lemma bind_eq {A B} (m : M A) (k : A -> M B) h a h' :
  m h = Some (a, h') -> bind m k h = k a h'.
Proof. intros H. unfold bind. rewrite H. reflexivity. Qed.

Lemma bind_eq2 {A B} (m : M A) (k : A -> M B) h r :
  m h = Some r -> bind m k h = k (fst r) (snd r).
Proof. intros H. unfold bind. rewrite H. destruct r. reflexivity. Qed.

Lemma slice_range_ok s lo hi :
  0 <= lo <= hi -> hi <= Z.of_nat (s_cap s) ->
  slice_range s lo hi =
    Some (Slice (s_arr s) (s_base s + Z.to_nat lo) (Z.to_nat (hi - lo))
                (s_cap s - Z.to_nat lo)).
Proof.
  intros [H1 H2] H3. unfold slice_range.
  apply Z.leb_le in H1, H2, H3. rewrite H1, H2, H3. reflexivity.
Qed.

Lemma valid_slice_range h s lo hi t :
  valid h s = true -> slice_range s lo hi = Some t -> valid h t = true.
Proof.
  intros Hv Hr. unfold slice_range in Hr.
  destruct (_ && _) eqn:Hc in Hr; [|discriminate].
  injection Hr as <-.
  apply andb_true_iff in Hc as [[H1 H2]%andb_true_iff H3].
  apply Z.leb_le in H1, H2, H3.
  apply valid_spec in Hv as [Hl Hb]. apply valid_spec; simpl.
  split; [lia|]. destruct Hb as [H0|Hb]; [left; lia|right; lia].
Qed.

Lemma poke_alloc h x i d :
  poke (length h) i d (h ++ [x]) = h ++ [splice x i d].
Proof.
  unfold poke. rewrite array_at_alloc_new.
  rewrite insert_app_r_alt by lia. rewrite Nat.sub_diag. reflexivity.
Qed.

Lemma ensureCapacity_eq h b n :
  inv h b = true -> ensureCapacity n b h = Some (grown n b h).
Proof.
  intros [Hv Ho]%inv_spec. unfold ensureCapacity, grown.
  destruct (Z.ltb_spec (len (buffer b) - offset b) n) as [Hn|Hn];
    [|reflexivity].
  unfold bind, make, copy, ret.
  destruct (Z.ltb_spec (n + len (buffer b)) 0) as [Hneg|_]; [unfold len in *; lia|].
  cbn [s_arr s_base s_len]. rewrite poke_alloc.
  do 3 f_equal.
  rewrite load_alloc by exact Hv.
  pose proof (length_load h _ Hv) as HL. unfold len in *.
  rewrite Nat.min_r by lia. rewrite take_ge by lia.
  unfold splice. rewrite take_0. simpl. f_equal.
  rewrite drop_replicate. do 2 f_equal. lia.
Qed.

Lemma grown_inv h b n : inv h b = true -> inv (snd (grown n b h)) (fst (grown n b h)) = true.
Proof.
  intros Hi. pose proof Hi as [Hv Ho]%inv_spec. unfold grown.
  destruct (Z.ltb_spec (len (buffer b) - offset b) n) as [Hn|Hn];
    [|exact Hi].
  apply inv_spec; simpl. split.
  - apply valid_spec; simpl. split; [lia|right].
    rewrite array_at_alloc_new, length_app, length_replicate.
    rewrite length_load by exact Hv. unfold len in *. lia.
  - unfold len in *; simpl. lia.
Qed.

Lemma grown_offset h b n : offset (fst (grown n b h)) = offset b.
Proof. unfold grown. destruct (_ <? _); reflexivity. Qed.

Lemma grown_room h b n :
  inv h b = true -> n <= len (buffer (fst (grown n b h))) - offset b.
Proof.
  intros [_ Ho]%inv_spec. unfold grown. destruct (Z.ltb_spec (len (buffer b) - offset b) n);
    unfold len in *; simpl; lia.
Qed.

Lemma grown_load h b n :
  inv h b = true ->
  load (snd (grown n b h)) (buffer (fst (grown n b h))) =
    load h (buffer b) ++
    replicate (if len (buffer b) - offset b <? n then Z.to_nat n else 0%nat) 0.
Proof.
  intros [Hv Ho]%inv_spec. unfold grown.
  destruct (Z.ltb_spec (len (buffer b) - offset b) n) as [Hn|Hn]; simpl.
  - unfold load at 1; simpl. rewrite array_at_alloc_new, drop_0.
    apply take_ge. rewrite length_app, length_replicate.
    rewrite length_load by exact Hv. unfold len in *. lia.
  - rewrite app_nil_r. reflexivity.
Qed.

Lemma grown_frame h b n s :
  valid h s = true ->
  valid (snd (grown n b h)) s = true /\ load (snd (grown n b h)) s = load h s.
Proof.
  intros Hv. unfold grown. destruct (_ <? _); simpl; [|auto].
  split; [apply valid_alloc|apply load_alloc]; exact Hv.
Qed.

Lemma slice_from_tail h b :
  inv h b = true -> slice_from (buffer b) (offset b) = Some (tail_at b).
Proof.
  intros [[Hl _]%valid_spec Ho]%inv_spec. unfold slice_from.
  rewrite slice_range_ok by (unfold len in *; lia). reflexivity.
Qed.

Lemma set_index_eq s i v h :
  0 <= i < len s ->
  set_index s i v h = Some (tt, poke (s_arr s) (s_base s + Z.to_nat i) [v] h).
Proof.
  intros [H1 H2]. unfold set_index.
  apply Z.leb_le in H1. apply Z.ltb_lt in H2. rewrite H1, H2. reflexivity.
Qed.

Lemma check_index_eq s i h :
  0 <= i < len s -> check_index s i h = Some (tt, h).
Proof.
  intros [H1 H2]. unfold check_index.
  apply Z.leb_le in H1. apply Z.ltb_lt in H2. rewrite H1, H2. reflexivity.
Qed.

Lemma set_indices_eq s xs : forall i h,
  valid h s = true -> 0 <= i -> i + Z.of_nat (length xs) <= len s ->
  set_indices s i xs h =
    Some (tt, poke (s_arr s) (s_base s + Z.to_nat i) xs h).
Proof.
  induction xs as [|x xs IH]; intros i h Hv Hi Hlen; simpl.
  - rewrite poke_nil. reflexivity.
  - simpl in Hlen. unfold len in *.
    rewrite (bind_eq _ _ _ _ _ (set_index_eq s i x h ltac:(unfold len; lia))).
    assert (s_base s + Z.to_nat i + 1 + length xs
            <= length (array_at h (s_arr s)))%nat as Hb.
    { apply valid_spec in Hv as [Hl [H0|Hb]]; lia. }
    rewrite IH.
    + f_equal. f_equal.
      replace (s_base s + Z.to_nat (i + 1))%nat
        with (s_base s + Z.to_nat i + length [x])%nat by (simpl; lia).
      apply (poke_poke _ _ [x] xs). simpl. lia.
    + rewrite valid_poke by (simpl; lia). exact Hv.
    + lia.
    + lia.
Qed.

End Exec.

(** * The append family *)

Section Append.

Implicit Types (h : heap) (s : slice) (b : ResizableBuffer) (d : list byte).

Lemma lift_eq {A} (o : option A) (a : A) h :
  o = Some a -> lift o h = Some (a, h).
Proof. intros ->. reflexivity. Qed.

Lemma put_eq s k xs h :
  valid h s = true -> Z.of_nat (length xs) <= len s ->
  k = Z.of_nat (length xs) - 1 -> (0 < length xs)%nat ->
  (check_index s k ;;; set_indices s 0 xs) h =
    Some (tt, poke (s_arr s) (s_base s) xs h).
Proof.
  intros Hv Hl -> Hpos.
  rewrite (bind_eq _ _ _ _ _
             (check_index_eq s (Z.of_nat (length xs) - 1) h ltac:(lia))).
  rewrite set_indices_eq by (try exact Hv; lia).
  rewrite Z2Nat.inj_0, Nat.add_0_r. reflexivity.
Qed.

Lemma tail_at_valid h b : inv h b = true -> valid h (tail_at b) = true.
Proof.
  intros Hi. pose proof Hi as [Hv Ho]%inv_spec.
  eapply valid_slice_range; [exact Hv|]. apply (slice_from_tail h b Hi).
Qed.

Lemma append_tail_eq {A} h b n d (w : slice -> M A) :
  inv h b = true -> n = Z.of_nat (length d) ->
  (exists a,
     w (tail_at (fst (grown n b h))) (snd (grown n b h)) =
       Some (a, poke (s_arr (buffer (fst (grown n b h))))
                     (s_base (buffer (fst (grown n b h)))
                      + Z.to_nat (offset b)) d (snd (grown n b h)))) ->
  (b1 <- ensureCapacity n b ;;
   dst <- lift (slice_from (buffer b1) (offset b1)) ;;
   w dst ;;;
   ret {| buffer := buffer b1; offset := offset b1 + n |}) h =
  Some (appended d b h).
Proof.
  intros Hi -> [a Hw].
  rewrite (bind_eq2 _ _ _ _ (ensureCapacity_eq h b _ Hi)).
  pose proof (grown_inv h b (Z.of_nat (length d)) Hi) as Hi1.
  pose proof (grown_offset h b (Z.of_nat (length d))) as Ho1.
  unfold appended.
  destruct (grown (Z.of_nat (length d)) b h) as [b1 h1]. simpl in *.
  rewrite (bind_eq _ _ _ _ _ (lift_eq _ _ _ (slice_from_tail h1 b1 Hi1))).
  rewrite (bind_eq _ _ _ _ _ Hw). unfold ret. rewrite Ho1. reflexivity.
Qed.

Lemma grown_tail_valid h b n :
  inv h b = true ->
  valid (snd (grown n b h)) (tail_at (fst (grown n b h))) = true /\
  n <= len (tail_at (fst (grown n b h))) /\
  s_arr (tail_at (fst (grown n b h))) = s_arr (buffer (fst (grown n b h))) /\
  s_base (tail_at (fst (grown n b h))) =
    (s_base (buffer (fst (grown n b h))) + Z.to_nat (offset b))%nat.
Proof.
  intros Hi.
  pose proof (grown_inv h b n Hi) as Hi1.
  pose proof (grown_offset h b n) as Ho1.
  pose proof (grown_room h b n Hi) as Hr.
  pose proof Hi1 as [_ Hb]%inv_spec.
  split; [apply tail_at_valid; exact Hi1|].
  unfold tail_at, len in *; simpl. rewrite Ho1 in *. repeat split. lia.
Qed.

Lemma put_append_eq h b (v : Z) k xs
      (put : slice -> M unit) :
  inv h b = true -> (0 < length xs)%nat ->
  k = Z.of_nat (length xs) - 1 ->
  (forall s, put s = (check_index s k ;;; set_indices s 0 xs)) ->
  (b1 <- ensureCapacity (Z.of_nat (length xs)) b ;;
   dst <- lift (slice_from (buffer b1) (offset b1)) ;;
   put dst ;;;
   ret {| buffer := buffer b1;
          offset := offset b1 + Z.of_nat (length xs) |}) h =
  Some (appended xs b h).
Proof.
  intros Hi Hpos Hk Hput. apply append_tail_eq; [exact Hi|reflexivity|].
  destruct (grown_tail_valid h b (Z.of_nat (length xs)) Hi)
    as (Hv & Hl & Ha & Hb).
  exists tt. rewrite Hput, <- Ha, <- Hb.
  apply put_eq; assumption.
Qed.

Lemma Uint16_eq h b v le :
  inv h b = true -> Uint16 v le b h = Some (appended (bytes16 le v) b h).
Proof.
  intros Hi. unfold Uint16.
  destruct le;
    [apply (put_append_eq h b v 1 (le_bytes16 v)
              (fun s => LittleEndian_PutUint16 s v) Hi)
    |apply (put_append_eq h b v 1 (be_bytes16 v)
              (fun s => BigEndian_PutUint16 s v) Hi)];
    solve [simpl; lia|reflexivity].
Qed.

Lemma Uint32_eq h b v le :
  inv h b = true -> Uint32 v le b h = Some (appended (bytes32 le v) b h).
Proof.
  intros Hi. unfold Uint32.
  destruct le;
    [apply (put_append_eq h b v 3 (le_bytes32 v)
              (fun s => LittleEndian_PutUint32 s v) Hi)
    |apply (put_append_eq h b v 3 (be_bytes32 v)
              (fun s => BigEndian_PutUint32 s v) Hi)];
    solve [simpl; lia|reflexivity].
Qed.

Lemma Uint64_eq h b v le :
  inv h b = true -> Uint64 v le b h = Some (appended (bytes64 le v) b h).
Proof.
  intros Hi. unfold Uint64.
  destruct le;
    [apply (put_append_eq h b v 7 (le_bytes64 v)
              (fun s => LittleEndian_PutUint64 s v) Hi)
    |apply (put_append_eq h b v 7 (be_bytes64 v)
              (fun s => BigEndian_PutUint64 s v) Hi)];
    solve [simpl; lia|reflexivity].
Qed.

Lemma CopyBytes_eq h b p :
  inv h b = true -> valid h p = true ->
  CopyBytes p b h = Some (appended (load h p) b h).
Proof.
  intros Hi Hp. unfold CopyBytes.
  pose proof (length_load h p Hp) as HL.
  apply append_tail_eq; [exact Hi|unfold len; lia|].
  destruct (grown_tail_valid h b (len p) Hi) as (Hv & Hl & Ha & Hb).
  destruct (grown_frame h b (len p) p Hp) as [Hp1 HL1].
  eexists. unfold copy. rewrite Ha, Hb, HL1. do 3 f_equal.
  apply take_ge. unfold len in *. lia.
Qed.

Lemma CopyString_eq h b p :
  inv h b = true ->
  CopyString p b h = Some (appended (string_bytes p) b h).
Proof.
  intros Hi. unfold CopyString.
  apply append_tail_eq; [exact Hi|reflexivity|].
  destruct (grown_tail_valid h b (Z.of_nat (length (string_bytes p))) Hi)
    as (Hv & Hl & Ha & Hb).
  eexists. unfold copy_string. rewrite Ha, Hb. do 3 f_equal.
  apply take_ge. unfold len in *. lia.
Qed.

Lemma Byte_eq h b bt :
  inv h b = true -> Byte bt b h = Some (appended [bt] b h).
Proof.
  intros Hi. unfold Byte.
  rewrite (bind_eq2 _ _ _ _ (ensureCapacity_eq h b _ Hi)).
  pose proof (grown_inv h b 1 Hi) as [Hv1 Hb1]%inv_spec.
  pose proof (grown_offset h b 1) as Ho1.
  pose proof (grown_room h b 1 Hi) as Hr.
  unfold appended. change (Z.of_nat (length [bt])) with 1.
  destruct (grown 1 b h) as [b1 h1]. simpl in *.
  rewrite (bind_eq _ _ _ _ _
             (set_index_eq (buffer b1) (offset b1) bt h1 ltac:(lia))).
  unfold ret. rewrite Ho1. reflexivity.
Qed.

Lemma CRLF_eq h b :
  inv h b = true -> CRLF b h = Some (appended [13; 10] b h).
Proof.
  intros Hi. unfold CRLF.
  rewrite (bind_eq2 _ _ _ _ (ensureCapacity_eq h b _ Hi)).
  pose proof (grown_inv h b 2 Hi) as [Hv1 Hb1]%inv_spec.
  pose proof (grown_offset h b 2) as Ho1.
  pose proof (grown_room h b 2 Hi) as Hr.
  unfold appended. change (Z.of_nat (length [13; 10])) with 2.
  destruct (grown 2 b h) as [b1 h1]. simpl in *.
  rewrite (bind_eq _ _ _ _ _
             (set_index_eq (buffer b1) (offset b1) 13 h1 ltac:(lia))).
  rewrite (bind_eq _ _ _ _ _
             (set_index_eq (buffer b1) (offset b1 + 1) 10 _ ltac:(lia))).
  unfold ret. rewrite Ho1. apply f_equal, f_equal.
  replace (s_base (buffer b1) + Z.to_nat (offset b + 1))%nat
    with (s_base (buffer b1) + Z.to_nat (offset b) + length [13])%nat
    by (simpl; lia).
  apply (poke_poke _ _ [13] [10]).
  apply valid_spec in Hv1 as [Hl [H0|Hb]]; unfold len in *; simpl; lia.
Qed.

Lemma run_append_eq h b op :
  inv h b = true -> append_ok h op = true ->
  run_append op b h = Some (appended (append_bytes h op) b h).
Proof.
  intros Hi Hok. destruct op; simpl in *.
  - apply CopyBytes_eq; assumption.
  - apply CopyString_eq; assumption.
  - apply Byte_eq; assumption.
  - apply CRLF_eq; assumption.
  - apply Uint16_eq; assumption.
  - apply Uint32_eq; assumption.
  - apply Uint64_eq; assumption.
  - apply Uint16_eq; assumption.
  - apply Uint32_eq; assumption.
  - apply Uint64_eq; assumption.
  - apply Uint32_eq; assumption.
  - apply Uint64_eq; assumption.
Qed.

End Append.

Section AppendFacts.

Implicit Types (h : heap) (s : slice) (b : ResizableBuffer) (d : list byte).

Lemma appended_load h b d :
  inv h b = true ->
  load (snd (appended d b h)) (buffer (fst (appended d b h))) =
    splice (load h (buffer b) ++
            replicate (if len (buffer b) - offset b <? Z.of_nat (length d)
                       then length d else 0%nat) 0)
           (Z.to_nat (offset b)) d.
Proof.
  intros Hi. unfold appended. cbn [fst snd buffer].
  pose proof (grown_inv h b (Z.of_nat (length d)) Hi) as [Hv1 Hb1]%inv_spec.
  pose proof (grown_room h b (Z.of_nat (length d)) Hi) as Hr.
  pose proof Hi as [_ Ho]%inv_spec.
  rewrite load_poke_in by (try exact Hv1; unfold len in *; lia).
  rewrite grown_load by exact Hi. rewrite Nat2Z.id. reflexivity.
Qed.

Lemma appended_inv h b d :
  inv h b = true -> inv (snd (appended d b h)) (fst (appended d b h)) = true.
Proof.
  intros Hi. unfold appended. cbn [fst snd buffer].
  pose proof (grown_inv h b (Z.of_nat (length d)) Hi) as [Hv1 Hb1]%inv_spec.
  pose proof (grown_room h b (Z.of_nat (length d)) Hi) as Hr.
  pose proof Hi as [_ Ho]%inv_spec.
  apply inv_spec; cbn [buffer offset]. split; [|lia].
  destruct d as [|x d']; [rewrite poke_nil; exact Hv1|].
  rewrite valid_poke; [exact Hv1|].
  apply valid_spec in Hv1 as [Hl [H0|Hb]]; unfold len in *; simpl in *; lia.
Qed.

End AppendFacts.

(** * The prepend family *)

Section Prepend.

Implicit Types (h : heap) (s : slice) (b : ResizableBuffer) (d : list byte).

Lemma load_poke_apart h s a i d :
  (i + length d <= length (array_at h a))%nat ->
  a <> s_arr s \/ (s_base s + s_len s <= i)%nat
  \/ (i + length d <= s_base s)%nat ->
  load (poke a i d h) s = load h s.
Proof.
  intros Hin Hcases. destruct (decide (a = s_arr s)) as [->|Hne];
    [|apply load_poke_other; exact Hne].
  destruct Hcases as [Hne|Hcases]; [congruence|].
  destruct (Nat.lt_ge_cases (s_arr s) (length h)) as [Hlt|Hge].
  - apply list_eq; intros k. rewrite !lookup_load.
    destruct (Nat.ltb_spec k (s_len s)); [|reflexivity].
    rewrite array_at_poke_same by exact Hlt.
    rewrite lookup_splice by lia.
    repeat match goal with
           | |- context [(?x <? ?y)%nat] => destruct (Nat.ltb_spec x y)
           end; try lia; reflexivity.
  - unfold poke. rewrite list_insert_ge by exact Hge. reflexivity.
Qed.

Lemma prependStart_eq h b n (f : slice -> M unit) :
  inv h b = true -> 0 <= n ->
  prependStart n f b h =
    (f (buffer (fst (shifted n b h))) ;;;
     ret {| buffer := buffer (fst (shifted n b h)); offset := offset b + n |})
      (snd (shifted n b h)).
Proof.
  intros [Hv Ho]%inv_spec Hn. unfold prependStart, shifted.
  pose proof (length_load h _ Hv) as HL.
  pose proof Hv as [Hl _]%valid_spec.
  destruct (Z.ltb_spec (len (buffer b) - offset b) n) as [Hlt|Hge].
  - unfold bind at 1. unfold bind at 1. unfold make.
    destruct (Z.ltb_spec (n + len (buffer b)) 0) as [Hneg|_];
      [unfold len in *; lia|].
    unfold slice_from. rewrite slice_range_ok
      by (unfold len in *; cbn [s_cap s_len]; lia).
    cbn [lift bind copy ret s_arr s_base s_len fst snd buffer offset].
    rewrite poke_alloc. rewrite load_alloc by exact Hv.
    replace (splice _ _ _)
      with (replicate (Z.to_nat n) 0 ++ load h (buffer b)); [reflexivity|].
    unfold len in *. cbn [s_len]. rewrite take_ge by lia.
    unfold splice. rewrite take_replicate, drop_replicate.
    rewrite Nat.min_l by lia.
    replace (Z.to_nat (n + Z.of_nat (s_len (buffer b)))
             - (0 + Z.to_nat n + length (load h (buffer b))))%nat
      with 0%nat by lia.
    simpl. rewrite app_nil_r. reflexivity.
  - unfold bind at 1. unfold bind at 1.
    unfold slice_from. rewrite slice_range_ok by (unfold len in *; lia).
    cbn [lift bind copy ret s_arr s_base s_len fst snd buffer offset].
    unfold len. rewrite Nat.min_l by lia. reflexivity.
Qed.

Lemma shifted_inv h b n :
  inv h b = true -> 0 <= n ->
  inv (snd (shifted n b h)) (fst (shifted n b h)) = true.
Proof.
  intros Hi Hn. pose proof Hi as [Hv Ho]%inv_spec. unfold shifted.
  pose proof (length_load h _ Hv) as HL.
  destruct (Z.ltb_spec (len (buffer b) - offset b) n) as [Hlt|Hge].
  - apply inv_spec; simpl. split.
    + apply valid_spec; simpl. split; [lia|right].
      rewrite array_at_alloc_new, length_app, length_replicate.
      rewrite length_load by exact Hv. unfold len in *. lia.
    + unfold len in *; simpl. lia.
  - cbn [fst snd]. apply inv_spec. split; [|exact Ho].
    set (d := take _ _).
    destruct d as [|x d'] eqn:Ed; [rewrite poke_nil; exact Hv|].
    rewrite valid_poke; [exact Hv|]. rewrite <- Ed. unfold d.
    rewrite length_take.
    assert (0 < s_len (buffer b))%nat.
    { destruct (s_len (buffer b)); [|lia]. unfold d in Ed.
      destruct (load h (buffer b)); [|discriminate].
      rewrite take_nil in Ed. discriminate. }
    apply valid_spec in Hv as [Hl [H0|Hb]]; unfold len in *; lia.
Qed.

Lemma shifted_offset h b n : offset (fst (shifted n b h)) = offset b.
Proof. unfold shifted. destruct (_ <? _); reflexivity. Qed.

Lemma shifted_room h b n :
  inv h b = true -> 0 <= n ->
  n <= len (buffer (fst (shifted n b h))) - offset b.
Proof.
  intros [_ Ho]%inv_spec Hn. unfold shifted.
  destruct (Z.ltb_spec (len (buffer b) - offset b) n);
    unfold len in *; simpl; lia.
Qed.

Lemma shifted_load h b n :
  inv h b = true -> 0 <= n ->
  load (snd (shifted n b h)) (buffer (fst (shifted n b h))) =
    if len (buffer b) - offset b <? n
    then replicate (Z.to_nat n) 0 ++ load h (buffer b)
    else take (Z.to_nat n) (load h (buffer b)) ++
         take (Z.to_nat (len (buffer b) - n)) (load h (buffer b)).
Proof.
  intros [Hv Ho]%inv_spec Hn. unfold shifted.
  pose proof (length_load h _ Hv) as HL.
  destruct (Z.ltb_spec (len (buffer b) - offset b) n) as [Hlt|Hge];
    cbn [fst snd buffer].
  - unfold load at 1; simpl. rewrite array_at_alloc_new, drop_0.
    apply take_ge. rewrite length_app, length_replicate.
    rewrite length_load by exact Hv. unfold len in *. lia.
  - rewrite load_poke_in
      by (try exact Hv; rewrite length_take, length_load by exact Hv;
          unfold len in *; lia).
    unfold splice. f_equal. rewrite length_take.
    rewrite drop_ge by (unfold len in *; lia). apply app_nil_r.
Qed.

Lemma shifted_frame h b n s :
  inv h b = true -> 0 <= n -> valid h s = true ->
  valid (snd (shifted n b h)) s = true.
Proof.
  intros Hi Hn Hs. pose proof Hi as [Hv Ho]%inv_spec. unfold shifted.
  pose proof (length_load h _ Hv) as HL.
  destruct (Z.ltb_spec (len (buffer b) - offset b) n) as [Hlt|Hge];
    cbn [snd]; [apply valid_alloc; exact Hs|].
  set (d := take _ _).
  destruct d as [|x d'] eqn:Ed; [rewrite poke_nil; exact Hs|].
  rewrite valid_poke; [exact Hs|]. rewrite <- Ed. unfold d.
  rewrite length_take.
  assert (0 < s_len (buffer b))%nat.
  { destruct (s_len (buffer b)); [|lia]. unfold d in Ed.
    destruct (load h (buffer b)); [|discriminate].
    rewrite take_nil in Ed. discriminate. }
  apply valid_spec in Hv as [Hl [H0|Hb]]; unfold len in *; lia.
Qed.

Lemma shifted_clear h b v :
  inv h b = true -> valid h v = true -> clear_of_shift b v = true ->
  load (snd (shifted (len v) b h)) v = load h v.
Proof.
  intros Hi Hp Hc.
  destruct (Nat.eq_dec (s_len v) 0%nat) as [Hz|Hnz];
    [unfold load; rewrite Hz; reflexivity|].
  pose proof Hi as [Hv Ho]%inv_spec. unfold shifted.
  pose proof (length_load h _ Hv) as HL.
  unfold clear_of_shift in Hc.
  destruct (Z.ltb_spec (len (buffer b) - offset b) (len v)) as [Hlt|Hge];
    cbn [snd]; [apply load_alloc; exact Hp|].
  simpl in Hc.
  set (d := take _ _).
  destruct d as [|x d'] eqn:Ed; [rewrite poke_nil; reflexivity|].
  assert (0 < s_len (buffer b))%nat.
  { destruct (s_len (buffer b)); [|lia]. unfold d in Ed.
    destruct (load h (buffer b)); [|discriminate].
    rewrite take_nil in Ed. discriminate. }
  rewrite <- Ed. unfold d.
  apply load_poke_apart.
  - rewrite length_take.
    apply valid_spec in Hv as [Hl [H0|Hb]]; unfold len in *; lia.
  - rewrite length_take.
    apply orb_true_iff in Hc as [[[Hc|Hc]%orb_true_iff|Hc]%orb_true_iff|Hc].
    + apply Nat.eqb_eq in Hc. lia.
    + left. apply negb_true_iff, Nat.eqb_neq in Hc. congruence.
    + apply Nat.leb_le in Hc. right; left. unfold len in *. lia.
    + apply Nat.leb_le in Hc. right; right. unfold len in *. lia.
Qed.

Lemma prepend_gen h b n (f : slice -> M unit) d :
  inv h b = true -> n = Z.of_nat (length d) ->
  f (buffer (fst (shifted n b h))) (snd (shifted n b h)) =
    Some (tt, poke (s_arr (buffer (fst (shifted n b h))))
                   (s_base (buffer (fst (shifted n b h)))) d
                   (snd (shifted n b h))) ->
  prependStart n f b h = Some (prepended d b h).
Proof.
  intros Hi -> Hf. rewrite prependStart_eq by (try exact Hi; lia).
  rewrite (bind_eq _ _ _ _ _ Hf). reflexivity.
Qed.

Lemma shifted_buffer_valid h b n :
  inv h b = true -> 0 <= n ->
  valid (snd (shifted n b h)) (buffer (fst (shifted n b h))) = true /\
  n <= len (buffer (fst (shifted n b h))).
Proof.
  intros Hi Hn.
  pose proof (shifted_inv h b n Hi Hn) as [Hv1 _]%inv_spec.
  pose proof (shifted_room h b n Hi Hn) as Hr.
  pose proof Hi as [_ Ho]%inv_spec.
  split; [exact Hv1|lia].
Qed.

Lemma put_prepend_eq h b k xs (put : slice -> M unit) :
  inv h b = true -> (0 < length xs)%nat ->
  k = Z.of_nat (length xs) - 1 ->
  (forall s, put s = (check_index s k ;;; set_indices s 0 xs)) ->
  prependStart (Z.of_nat (length xs)) put b h = Some (prepended xs b h).
Proof.
  intros Hi Hpos Hk Hput. apply prepend_gen; [exact Hi|reflexivity|].
  destruct (shifted_buffer_valid h b (Z.of_nat (length xs)) Hi ltac:(lia))
    as [Hv Hl].
  rewrite Hput. apply put_eq; assumption.
Qed.

Lemma PrependUint16_eq h b v le :
  inv h b = true ->
  PrependUint16 v le b h = Some (prepended (bytes16 le v) b h).
Proof.
  intros Hi. unfold PrependUint16.
  destruct le;
    [apply (put_prepend_eq h b 1 (le_bytes16 v) _ Hi)
    |apply (put_prepend_eq h b 1 (be_bytes16 v) _ Hi)];
    solve [simpl; lia|reflexivity].
Qed.

Lemma PrependUint32_eq h b v le :
  inv h b = true ->
  PrependUint32 v le b h = Some (prepended (bytes32 le v) b h).
Proof.
  intros Hi. unfold PrependUint32.
  destruct le;
    [apply (put_prepend_eq h b 3 (le_bytes32 v) _ Hi)
    |apply (put_prepend_eq h b 3 (be_bytes32 v) _ Hi)];
    solve [simpl; lia|reflexivity].
Qed.

Lemma PrependUint64_eq h b v le :
  inv h b = true ->
  PrependUint64 v le b h = Some (prepended (bytes64 le v) b h).
Proof.
  intros Hi. unfold PrependUint64.
  destruct le;
    [apply (put_prepend_eq h b 7 (le_bytes64 v) _ Hi)
    |apply (put_prepend_eq h b 7 (be_bytes64 v) _ Hi)];
    solve [simpl; lia|reflexivity].
Qed.

Lemma PrependByte_eq h b v :
  inv h b = true -> PrependByte v b h = Some (prepended [v] b h).
Proof.
  intros Hi. unfold PrependByte.
  apply (prepend_gen h b 1 _ [v] Hi); [reflexivity|].
  destruct (shifted_buffer_valid h b 1 Hi ltac:(lia)) as [Hv Hl].
  rewrite set_index_eq by lia.
  rewrite Z2Nat.inj_0, Nat.add_0_r. reflexivity.
Qed.

Lemma PrependString_eq h b v :
  inv h b = true ->
  PrependString v b h = Some (prepended (string_bytes v) b h).
Proof.
  intros Hi. unfold PrependString.
  apply prepend_gen; [exact Hi|reflexivity|].
  destruct (shifted_buffer_valid h b (Z.of_nat (length (string_bytes v))) Hi
              ltac:(lia)) as [Hv Hl].
  unfold bind, copy_string, ret. do 3 f_equal.
  apply take_ge. unfold len in *. lia.
Qed.

(** [PrependBytes] writes the bytes its argument holds once the shift is
    done. *)
Lemma PrependBytes_eq h b v :
  inv h b = true -> valid h v = true ->
  PrependBytes v b h =
    Some (prepended (load (snd (shifted (len v) b h)) v) b h).
Proof.
  intros Hi Hp. unfold PrependBytes.
  assert (0 <= len v) as Hn by (unfold len; lia).
  pose proof (shifted_frame h b (len v) v Hi Hn Hp) as Hp1.
  pose proof (length_load _ _ Hp1) as HL.
  destruct (shifted_buffer_valid h b (len v) Hi Hn) as [Hv Hl].
  apply prepend_gen; [exact Hi|rewrite HL; reflexivity|].
  unfold bind, copy, ret. do 3 f_equal.
  revert HL Hl. generalize (shifted (len v) b h). intros sh HL Hl.
  apply take_ge. unfold len in *. lia.
Qed.

Lemma prepend_bytes_length h h' op :
  prepend_ok h op = true -> prepend_ok h' op = true ->
  length (prepend_bytes h' op) = length (prepend_bytes h op).
Proof.
  intros H1 H2. destruct op; try reflexivity. simpl in *.
  rewrite !length_load by assumption. reflexivity.
Qed.

Lemma run_prepend_eq h b op :
  inv h b = true -> prepend_ok h op = true ->
  let n := Z.of_nat (length (prepend_bytes h op)) in
  run_prepend op b h =
    Some (prepended (prepend_bytes (snd (shifted n b h)) op) b h).
Proof.
  intros Hi Hok n. destruct op; simpl in *.
  - unfold n. rewrite length_load by exact Hok.
    apply PrependBytes_eq; assumption.
  - apply PrependByte_eq; assumption.
  - apply PrependString_eq; assumption.
  - apply PrependUint16_eq; assumption.
  - apply PrependUint32_eq; assumption.
  - apply PrependUint64_eq; assumption.
  - apply PrependUint16_eq; assumption.
  - apply PrependUint32_eq; assumption.
  - apply PrependUint64_eq; assumption.
  - apply PrependUint32_eq; assumption.
  - apply PrependUint64_eq; assumption.
Qed.

Lemma prepend_ok_shifted h b op n :
  inv h b = true -> 0 <= n -> prepend_ok h op = true ->
  prepend_ok (snd (shifted n b h)) op = true.
Proof.
  intros Hi Hn Hok. destruct op; try reflexivity. simpl in *.
  apply shifted_frame; assumption.
Qed.

Lemma prepend_bytes_clear h b op :
  inv h b = true -> prepend_ok h op = true -> prepend_clear b op = true ->
  prepend_bytes
    (snd (shifted (Z.of_nat (length (prepend_bytes h op))) b h)) op =
  prepend_bytes h op.
Proof.
  intros Hi Hok Hc. destruct op; try reflexivity. simpl in *.
  rewrite length_load by exact Hok. apply shifted_clear; assumption.
Qed.

Lemma prepended_load h b d :
  inv h b = true ->
  load (snd (prepended d b h)) (buffer (fst (prepended d b h))) =
    d ++ (if len (buffer b) - offset b <? Z.of_nat (length d)
          then load h (buffer b)
          else take (Z.to_nat (len (buffer b) - Z.of_nat (length d)))
                    (load h (buffer b))).
Proof.
  intros Hi. unfold prepended. cbn [fst snd buffer].
  destruct (shifted_buffer_valid h b (Z.of_nat (length d)) Hi ltac:(lia))
    as [Hv1 Hl1].
  pose proof Hi as [Hv Ho]%inv_spec.
  pose proof (length_load h _ Hv) as HL.
  rewrite <- (Nat.add_0_r (s_base _)).
  rewrite load_poke_in by (try exact Hv1; unfold len in *; lia).
  rewrite shifted_load by (try exact Hi; lia).
  unfold splice. rewrite take_0. simpl. f_equal.
  destruct (Z.ltb_spec (len (buffer b) - offset b) (Z.of_nat (length d))).
  - rewrite drop_app_length'; [reflexivity|].
    rewrite length_replicate. lia.
  - rewrite drop_app_length'; [reflexivity|].
    rewrite length_take, length_load by exact Hv. unfold len in *. lia.
Qed.

Lemma prepended_inv h b d :
  inv h b = true -> inv (snd (prepended d b h)) (fst (prepended d b h)) = true.
Proof.
  intros Hi. unfold prepended. cbn [fst snd buffer].
  destruct (shifted_buffer_valid h b (Z.of_nat (length d)) Hi ltac:(lia))
    as [Hv1 Hl1].
  pose proof (shifted_room h b (Z.of_nat (length d)) Hi ltac:(lia)) as Hr.
  pose proof Hi as [_ Ho]%inv_spec.
  apply inv_spec; cbn [buffer offset]. split; [|lia].
  destruct d as [|x d']; [rewrite poke_nil; exact Hv1|].
  rewrite valid_poke; [exact Hv1|].
  apply valid_spec in Hv1 as [Hl [H0|Hb]]; unfold len in *; simpl in *; lia.
Qed.

Lemma prepended_content h b d :
  inv h b = true ->
  content (snd (prepended d b h)) (fst (prepended d b h)) = d ++ content h b.
Proof.
  intros Hi. unfold content. rewrite prepended_load by exact Hi.
  pose proof Hi as [Hv Ho]%inv_spec.
  pose proof (length_load h _ Hv) as HL.
  unfold prepended. cbn [fst offset].
  replace (Z.to_nat (offset b + Z.of_nat (length d)))
    with (length d + Z.to_nat (offset b))%nat by lia.
  rewrite take_app_add. f_equal.
  destruct (Z.ltb_spec (len (buffer b) - offset b) (Z.of_nat (length d)));
    [reflexivity|].
  rewrite take_take. f_equal. unfold len in *. lia.
Qed.

Lemma poke_self a i n h :
  poke a i (take n (drop i (array_at h a))) h = h.
Proof.
  unfold poke. rewrite splice_self. unfold array_at.
  destruct (h !! a) as [x|] eqn:E; simpl.
  - apply list_insert_id. exact E.
  - apply list_insert_ge. apply lookup_ge_None. exact E.
Qed.

Lemma shifted_zero h b : inv h b = true -> shifted 0 b h = (b, h).
Proof.
  intros [Hv Ho]%inv_spec. unfold shifted.
  destruct (Z.ltb_spec (len (buffer b) - offset b) 0) as [Hlt|_]; [lia|].
  f_equal. unfold load. rewrite take_take, Z.sub_0_r.
  unfold len. rewrite Nat2Z.id, Nat.min_id.
  change (Z.to_nat 0) with 0%nat. rewrite Nat.add_0_r. apply poke_self.
Qed.

Lemma grown_zero h b : inv h b = true -> grown 0 b h = (b, h).
Proof.
  intros [Hv Ho]%inv_spec. unfold grown.
  destruct (Z.ltb_spec (len (buffer b) - offset b) 0) as [Hlt|_]; [lia|].
  reflexivity.
Qed.

Lemma offset_add_0 b : {| buffer := buffer b; offset := offset b + 0 |} = b.
Proof. destruct b; simpl. rewrite Z.add_0_r. reflexivity. Qed.

End Prepend.

(** * The claims *)

(** C1. An append-family write of [n] bytes (CopyBytes, CopyString, Byte,
    CRLF and the fixed-width encoders) on a buffer that satisfies the state
    invariant returns, and: the cursor increases by exactly [n]; if the spare
    tail capacity [C - cursor] is at least [n] the storage is not
    reallocated (same slice, no array added to the heap, the only bytes
    changed are the [n] written at the cursor); otherwise one new array of
    size exactly [n + C] is allocated, holding the old [storage[0:C]] in its
    prefix, and becomes the storage, and no older array changes.  In both
    cases the [n] bytes stand at [storage[cursor:cursor+n]] and
    [storage[0:cursor]] is what it was. *)
Theorem append_tail_grow_and_write (h : heap) (b : ResizableBuffer)
        (op : append_op) :
  inv h b = true -> append_ok h op = true ->
  let d := append_bytes h op in
  let n := Z.of_nat (length d) in
  let C := len (buffer b) in
  let cursor := Z.to_nat (offset b) in
  exists b' h',
    run_append op b h = Some (b', h') /\
    offset b' = offset b + n /\
    (n <= C - offset b ->
       buffer b' = buffer b /\
       h' = poke (s_arr (buffer b)) (s_base (buffer b) + cursor) d h /\
       length h' = length h /\
       load h' (buffer b') = splice (load h (buffer b)) cursor d) /\
    (C - offset b < n ->
       buffer b' = Slice (length h) 0 (Z.to_nat (n + C)) (Z.to_nat (n + C)) /\
       h' = h ++ [splice (load h (buffer b) ++ replicate (Z.to_nat n) 0)
                         cursor d] /\
       take (Z.to_nat C) (load h (buffer b) ++ replicate (Z.to_nat n) 0)
         = load h (buffer b) /\
       Z.of_nat (length (load h' (buffer b'))) = n + C) /\
    take (length d) (drop cursor (load h' (buffer b'))) = d /\
    take cursor (load h' (buffer b')) = take cursor (load h (buffer b)).
Proof.
  intros Hi Hok d n C cursor.
  pose proof Hi as [Hv Ho]%inv_spec.
  pose proof (length_load h _ Hv) as HL.
  pose proof (appended_load h b d Hi) as Hload.
  pose proof (appended_inv h b d Hi) as [Hv' _]%inv_spec.
  pose proof (length_load _ _ Hv') as HL'.
  exists (fst (appended d b h)), (snd (appended d b h)).
  rewrite (run_append_eq h b op Hi Hok). fold d.
  split; [destruct (appended d b h); reflexivity|].
  split; [reflexivity|].
  fold n in Hload. fold cursor in Hload.
  repeat split.
  - unfold appended, grown. fold n. fold C.
    destruct (Z.ltb_spec (C - offset b) n); [lia|reflexivity].
  - unfold appended, grown. fold n. fold C.
    destruct (Z.ltb_spec (C - offset b) n); [lia|reflexivity].
  - unfold appended, grown. fold n. fold C.
    destruct (Z.ltb_spec (C - offset b) n); [lia|]. apply length_poke.
  - rewrite Hload. fold C.
    destruct (Z.ltb_spec (C - offset b) n); [lia|].
    simpl. rewrite app_nil_r. reflexivity.
  - unfold appended, grown. fold n. fold C.
    destruct (Z.ltb_spec (C - offset b) n); [reflexivity|lia].
  - unfold appended, grown. fold n. fold C.
    destruct (Z.ltb_spec (C - offset b) n); [|lia].
    cbn [fst snd buffer s_arr s_base]. rewrite poke_alloc. reflexivity.
  - apply take_app_length'. unfold C, len. lia.
  - rewrite HL'. unfold appended, grown. fold n. fold C.
    destruct (Z.ltb_spec (C - offset b) n); [|lia].
    cbn [fst snd buffer s_len]. unfold C, len in *. lia.
  - rewrite Hload. apply window_splice.
    rewrite length_app. unfold cursor, len in *. lia.
  - rewrite Hload. rewrite take_splice_before;
      [|lia|rewrite length_app; unfold cursor, len in *; lia].
    apply take_app_le. unfold cursor, len in *. lia.
Qed.

Lemma append_tail_grow_and_write_witness :
  inv abc_heap abc_buffer = true /\
  append_ok abc_heap (AUint32 16909060 false) = true /\
  exists b' h',
    run_append (AUint32 16909060 false) abc_buffer abc_heap = Some (b', h') /\
    offset b' = 7 /\
    take 3 (load h' (buffer b')) = [97; 98; 99].
Proof.
  split; [reflexivity|]. split; [reflexivity|].
  destruct (append_tail_grow_and_write abc_heap abc_buffer
              (AUint32 16909060 false) eq_refl eq_refl)
    as (b' & h' & Hrun & Hoff & _ & _ & _ & Hpre).
  exists b', h'. split; [exact Hrun|]. split; [exact Hoff|]. exact Hpre.
Defined.

(** C2, as stated, fails: prepending the two bytes ["bc"] that the slice
    [b.Bytes()[1:3]] holds, onto a buffer with content ["abc"] and three
    spare bytes, leaves the content ["baabc"], not ["bcabc"]: the in-place
    shift overwrites the argument before it is copied to the front.  So the
    statement "for every state and every prepend of the bytes [p], the
    content becomes [p] followed by the old content" does not hold. *)
Lemma prepend_bytes_of_own_content :
  inv abc_heap abc_buffer = true /\
  prepend_ok abc_heap (PBytes abc_inner) = true /\
  prepend_bytes abc_heap (PBytes abc_inner) = [98; 99] /\
  content abc_heap abc_buffer = [97; 98; 99] /\
  run_prepend (PBytes abc_inner) abc_buffer abc_heap =
    Some ({| buffer := Slice 0 0 6 6; offset := 5 |},
          [[98; 97; 97; 98; 99; 0]]) /\
  content [[98; 97; 97; 98; 99; 0]] {| buffer := Slice 0 0 6 6; offset := 5 |}
    = [98; 97; 97; 98; 99] /\
  ~ (forall h b op,
       inv h b = true -> prepend_ok h op = true ->
       exists b' h',
         run_prepend op b h = Some (b', h') /\
         content h' b' = prepend_bytes h op ++ content h b /\
         offset b' = offset b + Z.of_nat (length (prepend_bytes h op))).
Proof.
  repeat split; try reflexivity.
  intros All.
  destruct (All abc_heap abc_buffer (PBytes abc_inner) eq_refl eq_refl)
    as (b' & h' & Hrun & Hcont & _).
  vm_compute in Hrun. injection Hrun as <- <-.
  vm_compute in Hcont. discriminate Hcont.
Qed.

(** C2, amended. For every buffer state with logical content [s] and every
    prepend-family operation given [n] bytes [p] -- where the argument of a
    PrependBytes keeps clear of the storage the in-place shift overwrites
    (it does not overlap [storage[n:C]], or the prepend reallocates) --
    the call returns, the logical content is then [p] followed by [s], and
    the cursor has increased by exactly [n].  In particular a second such
    prepend of [p2] leaves [p2] followed by [p] followed by [s]. *)
Theorem prepend_content (h : heap) (b : ResizableBuffer) (op : prepend_op) :
  inv h b = true -> prepend_ok h op = true -> prepend_clear b op = true ->
  let p := prepend_bytes h op in
  exists b' h',
    run_prepend op b h = Some (b', h') /\
    content h' b' = p ++ content h b /\
    offset b' = offset b + Z.of_nat (length p) /\
    forall op2,
      prepend_ok h' op2 = true -> prepend_clear b' op2 = true ->
      exists b'' h'',
        run_prepend op2 b' h' = Some (b'', h'') /\
        content h'' b'' = prepend_bytes h' op2 ++ p ++ content h b /\
        offset b'' = offset b + Z.of_nat (length p)
                     + Z.of_nat (length (prepend_bytes h' op2)).
Proof.
  assert (forall h b op,
    inv h b = true -> prepend_ok h op = true -> prepend_clear b op = true ->
    exists b' h',
      run_prepend op b h = Some (b', h') /\
      content h' b' = prepend_bytes h op ++ content h b /\
      offset b' = offset b + Z.of_nat (length (prepend_bytes h op)) /\
      inv h' b' = true) as One.
  { clear. intros h b op Hi Hok Hc.
    exists (fst (prepended (prepend_bytes h op) b h)),
           (snd (prepended (prepend_bytes h op) b h)).
    rewrite (run_prepend_eq h b op Hi Hok).
    rewrite (prepend_bytes_clear h b op Hi Hok Hc).
    split; [destruct (prepended _ b h); reflexivity|].
    split; [apply prepended_content; exact Hi|].
    split; [reflexivity|apply prepended_inv; exact Hi]. }
  intros Hi Hok Hc p.
  destruct (One h b op Hi Hok Hc) as (b' & h' & Hrun & Hcont & Hoff & Hi').
  exists b', h'. repeat split; try assumption.
  intros op2 Hok2 Hc2.
  destruct (One h' b' op2 Hi' Hok2 Hc2) as (b2 & h2 & Hrun2 & Hcont2 & Hoff2 & _).
  exists b2, h2. split; [exact Hrun2|]. split.
  - rewrite Hcont2, Hcont. reflexivity.
  - rewrite Hoff2, Hoff. reflexivity.
Qed.

Lemma prepend_content_witness :
  inv abc_heap abc_buffer = true /\
  prepend_ok abc_heap (PUint16 258 true) = true /\
  prepend_clear abc_buffer (PUint16 258 true) = true /\
  exists b' h',
    run_prepend (PUint16 258 true) abc_buffer abc_heap = Some (b', h') /\
    content h' b' = [2; 1] ++ [97; 98; 99].
Proof.
  split; [reflexivity|]. split; [reflexivity|]. split; [reflexivity|].
  destruct (prepend_content abc_heap abc_buffer (PUint16 258 true)
              eq_refl eq_refl eq_refl)
    as (b' & h' & Hrun & Hcont & _).
  exists b', h'. split; [exact Hrun|exact Hcont].
Defined.

(** C8. A prepend of [n] bytes on a buffer whose spare tail capacity
    [C - cursor] is at least [n] does not reallocate: it first moves the
    whole store right by [n] in place -- every position [i] with
    [n <= i < C] receives the old [storage[i-n]], the unused tail beyond the
    cursor included, the bytes being read before any is overwritten -- and
    only then writes the [n] new bytes [w] at [storage[0:n]].  [w] is the
    operation's input whenever the argument slice of a PrependBytes keeps
    clear of the shifted region. *)
Theorem prepend_in_place_shifts_whole_store (h : heap) (b : ResizableBuffer)
        (op : prepend_op) :
  inv h b = true -> prepend_ok h op = true ->
  let n := length (prepend_bytes h op) in
  let C := s_len (buffer b) in
  Z.of_nat n <= len (buffer b) - offset b ->
  let L := load h (buffer b) in
  let h1 := poke (s_arr (buffer b)) (s_base (buffer b) + n)
                 (take (C - n) L) h in
  length h1 = length h /\
  load h1 (buffer b) = take n L ++ take (C - n) L /\
  (forall i, (n <= i < C)%nat -> load h1 (buffer b) !! i = L !! (i - n)%nat) /\
  exists w,
    length w = n /\
    (prepend_clear b op = true -> w = prepend_bytes h op) /\
    run_prepend op b h =
      Some ({| buffer := buffer b; offset := offset b + Z.of_nat n |},
            poke (s_arr (buffer b)) (s_base (buffer b)) w h1) /\
    load (poke (s_arr (buffer b)) (s_base (buffer b)) w h1) (buffer b)
      = w ++ take (C - n) L.
Proof.
  intros Hi Hok n C Hroom L h1.
  pose proof Hi as [Hv Ho]%inv_spec.
  pose proof (length_load h _ Hv) as HL.
  assert (shifted (Z.of_nat n) b h = (b, h1)) as Hsh.
  { unfold shifted.
    destruct (Z.ltb_spec (len (buffer b) - offset b) (Z.of_nat n)); [lia|].
    unfold h1, C, L, len. rewrite Nat2Z.id. do 3 f_equal. lia. }
  pose proof (shifted_load h b (Z.of_nat n) Hi ltac:(lia)) as Hload.
  rewrite Hsh in Hload. cbn [fst snd] in Hload.
  destruct (Z.ltb_spec (len (buffer b) - offset b) (Z.of_nat n)) as [|_];
    [lia|].
  rewrite Nat2Z.id in Hload.
  replace (Z.to_nat (len (buffer b) - Z.of_nat n)) with (C - n)%nat in Hload
    by (unfold C, len; lia).
  fold L in Hload.
  split; [apply length_poke|]. split; [exact Hload|]. split.
  { intros i Hi'. rewrite Hload.
    rewrite lookup_app_r by (rewrite length_take; unfold L; lia).
    rewrite length_take, Nat.min_l by (unfold L; lia).
    apply lookup_take_lt. lia. }
  pose proof (prepend_ok_shifted h b op (Z.of_nat n) Hi ltac:(lia) Hok) as Hok1.
  exists (prepend_bytes (snd (shifted (Z.of_nat n) b h)) op).
  pose proof (prepend_bytes_length h _ op Hok Hok1) as Hlen.
  split; [exact Hlen|]. split.
  { intros Hc. apply prepend_bytes_clear; assumption. }
  pose proof (run_prepend_eq h b op Hi Hok) as Hrun. cbn zeta in Hrun.
  fold n in Hrun. rewrite Hrun.
  pose proof (prepended_load h b
                (prepend_bytes (snd (shifted (Z.of_nat n) b h)) op) Hi) as HPL.
  unfold prepended in *. rewrite Hlen in *. fold n in HPL |- *.
  rewrite Hsh in *. cbn [fst snd buffer] in *.
  split; [reflexivity|].
  rewrite HPL.
  destruct (Z.ltb_spec (len (buffer b) - offset b) (Z.of_nat n)) as [|_];
    [lia|].
  do 2 f_equal. unfold C, len. lia.
Qed.

Lemma prepend_in_place_shifts_whole_store_witness :
  inv abc_heap abc_buffer = true /\
  prepend_ok abc_heap (PByte 255) = true /\
  1 <= len (buffer abc_buffer) - offset abc_buffer /\
  load (poke 0 1 [97; 98; 99; 0; 0] abc_heap) (buffer abc_buffer)
    = [97] ++ [97; 98; 99; 0; 0] /\
  run_prepend (PByte 255) abc_buffer abc_heap =
    Some ({| buffer := Slice 0 0 6 6; offset := 4 |},
          [[255; 97; 98; 99; 0; 0]]).
Proof.
  split; [reflexivity|]. split; [reflexivity|].
  split; [vm_compute; discriminate|].
  destruct (prepend_in_place_shifts_whole_store abc_heap abc_buffer
              (PByte 255) eq_refl eq_refl)
    as (_ & Hshift & _ & w & _ & Hw & Hrun & _).
  { vm_compute. discriminate. }
  split; [exact Hshift|].
  rewrite Hrun. rewrite (Hw eq_refl). reflexivity.
Defined.

(** C10. Appending or prepending a zero-length input (CopyBytes or
    PrependBytes with an empty or nil slice, CopyString or PrependString
    with the empty string) returns and leaves the buffer completely
    unchanged: same cursor, same slice (capacity and storage identity, no
    reallocation) and the very same heap, so every byte is unchanged. *)
Theorem zero_length_write_is_noop (h : heap) (b : ResizableBuffer) :
  inv h b = true ->
  (forall p, s_len p = 0%nat -> CopyBytes p b h = Some (b, h)) /\
  CopyString "" b h = Some (b, h) /\
  (forall v, s_len v = 0%nat -> PrependBytes v b h = Some (b, h)) /\
  PrependString "" b h = Some (b, h).
Proof.
  intros Hi.
  assert (forall (A : Type) (w : slice -> M A),
            (forall s h0, exists a, w s h0 = Some (a, h0)) ->
            (b1 <- ensureCapacity 0 b ;;
             dst <- lift (slice_from (buffer b1) (offset b1)) ;;
             w dst ;;;
             ret {| buffer := buffer b1; offset := offset b1 + 0 |}) h
            = Some (b, h)) as App.
  { intros A w Hw.
    rewrite (bind_eq2 _ _ _ _ (ensureCapacity_eq h b 0 Hi)).
    rewrite grown_zero by exact Hi. cbn [fst snd].
    rewrite (bind_eq _ _ _ _ _ (lift_eq _ _ _ (slice_from_tail h b Hi))).
    destruct (Hw (tail_at b) h) as [a Ha].
    rewrite (bind_eq _ _ _ _ _ Ha). unfold ret.
    rewrite offset_add_0. reflexivity. }
  assert (forall (f : slice -> M unit),
            (forall s h0, f s h0 = Some (tt, h0)) ->
            prependStart 0 f b h = Some (b, h)) as Pre.
  { intros f Hf. rewrite prependStart_eq by (try exact Hi; lia).
    rewrite shifted_zero by exact Hi. cbn [fst snd].
    rewrite (bind_eq _ _ _ _ _ (Hf _ _)). unfold ret.
    rewrite offset_add_0. reflexivity. }
  repeat split.
  - intros p Hp. unfold CopyBytes, len. rewrite Hp. apply App.
    intros s h0. eexists. unfold copy. rewrite Hp, Nat.min_0_r, take_0.
    rewrite poke_nil. reflexivity.
  - apply (App _ (fun dst => copy_string dst "")).
    intros s h0. eexists. unfold copy_string. simpl.
    rewrite Nat.min_0_r, poke_nil. reflexivity.
  - intros v Hv. unfold PrependBytes, len. rewrite Hv. apply Pre.
    intros s h0. unfold bind, copy, ret. rewrite Hv, Nat.min_0_r, take_0.
    rewrite poke_nil. reflexivity.
  - apply (Pre (fun b0 => copy_string b0 "" ;;; ret tt)).
    intros s h0. unfold bind, copy_string, ret. simpl.
    rewrite Nat.min_0_r, poke_nil. reflexivity.
Qed.

Lemma zero_length_write_is_noop_witness :
  inv abc_heap abc_buffer = true /\
  CopyBytes (Slice 0 0 0 0) abc_buffer abc_heap = Some (abc_buffer, abc_heap) /\
  PrependString "" abc_buffer abc_heap = Some (abc_buffer, abc_heap).
Proof.
  split; [reflexivity|].
  destruct (zero_length_write_is_noop abc_heap abc_buffer eq_refl)
    as (Hcb & _ & _ & Hps).
  split; [apply Hcb; reflexivity|exact Hps].
Defined.

(** * Byte order *)

Section Bits.

Lemma testbit_to_byte v i :
  0 <= i -> Z.testbit (to_byte v) i = (i <? 8) && Z.testbit v i.
Proof.
  intros Hi. unfold to_byte. change 255 with (Z.ones 8).
  rewrite Z.land_ones by lia. apply Z.testbit_mod_pow2. lia.
Qed.

Lemma testbit_shl_byte w v s i :
  0 <= i -> 0 <= s -> 0 <= w ->
  Z.testbit (shl w (to_byte (Z.shiftr v s)) s) i =
    (i <? w) && ((s <=? i) && (i <? s + 8)) && Z.testbit v i.
Proof.
  intros Hi Hs Hw. unfold shl, wrap.
  rewrite Z.testbit_mod_pow2 by lia.
  rewrite Z.shiftl_spec by lia.
  destruct (Z.leb_spec s i) as [Hsi|Hsi].
  - rewrite testbit_to_byte by lia. rewrite Z.shiftr_spec by lia.
    replace (i - s + s) with i by lia.
    replace (i - s <? 8) with (i <? s + 8); [rewrite andb_assoc; reflexivity|].
    destruct (Z.ltb_spec i (s + 8)), (Z.ltb_spec (i - s) 8); lia || reflexivity.
  - rewrite Z.testbit_neg_r by lia. simpl. rewrite andb_false_r. reflexivity.
Qed.

Lemma testbit_high w v i :
  0 <= v < 2 ^ w -> 0 <= w <= i -> Z.testbit v i = false.
Proof.
  intros Hv Hw. rewrite <- (Z.mod_small v (2 ^ w)) by exact Hv.
  apply Z.mod_pow2_bits_high. exact Hw.
Qed.

Ltac byte_bits w :=
  match goal with
  | Hv : 0 <= ?v < _ |- _ = ?v =>
      apply Z.bits_inj'; intros i Hi;
      repeat rewrite Z.lor_spec;
      repeat rewrite (testbit_shl_byte w) by lia;
      repeat rewrite testbit_to_byte by lia;
      destruct (Z.ltb_spec i w) as [Hlow|Hhigh];
      [ destruct (Z.testbit v i);
        rewrite ?andb_true_r, ?andb_false_r; [|reflexivity];
        repeat match goal with
               | |- context [(?a <=? ?b)] =>
                   destruct (Z.leb_spec a b); try lia
               | |- context [(?a <? ?b)] =>
                   destruct (Z.ltb_spec a b); try lia
               end; reflexivity
      | rewrite (testbit_high w v i Hv) by lia;
        rewrite ?andb_false_r; reflexivity ]
  end.

Lemma bytes16_round v :
  0 <= v < 2 ^ 16 ->
  Z.lor (to_byte v) (shl 16 (to_byte (Z.shiftr v 8)) 8) = v.
Proof. intros Hv. byte_bits 16. Qed.

Lemma bytes32_round v :
  0 <= v < 2 ^ 32 ->
  Z.lor (Z.lor (Z.lor (to_byte v) (shl 32 (to_byte (Z.shiftr v 8)) 8))
               (shl 32 (to_byte (Z.shiftr v 16)) 16))
        (shl 32 (to_byte (Z.shiftr v 24)) 24) = v.
Proof. intros Hv. byte_bits 32. Qed.

Lemma bytes64_round v :
  0 <= v < 2 ^ 64 ->
  Z.lor (Z.lor (Z.lor (Z.lor (Z.lor (Z.lor (Z.lor
    (to_byte v) (shl 64 (to_byte (Z.shiftr v 8)) 8))
    (shl 64 (to_byte (Z.shiftr v 16)) 16))
    (shl 64 (to_byte (Z.shiftr v 24)) 24))
    (shl 64 (to_byte (Z.shiftr v 32)) 32))
    (shl 64 (to_byte (Z.shiftr v 40)) 40))
    (shl 64 (to_byte (Z.shiftr v 48)) 48))
    (shl 64 (to_byte (Z.shiftr v 56)) 56) = v.
Proof. intros Hv. byte_bits 64. Qed.

End Bits.

Section RoundTrip.

Implicit Types (h : heap) (s p : slice) (b : ResizableBuffer).

Lemma get_index_eq h s i x :
  load h s !! Z.to_nat i = Some x -> 0 <= i < len s ->
  get_index s i h = Some (x, h).
Proof.
  intros Hx [H1 H2]. unfold get_index.
  apply Z.leb_le in H1. apply Z.ltb_lt in H2. rewrite H1, H2, Hx. reflexivity.
Qed.

Ltac read_byte h p Hload Hlen i x :=
  rewrite (bind_eq _ _ _ _ _
             (get_index_eq h p i x
                ltac:(rewrite Hload; reflexivity)
                ltac:(unfold len; rewrite Hlen; simpl; lia))).

Ltac check_last h p Hlen i :=
  rewrite (bind_eq _ _ _ _ _
             (check_index_eq p i h
                ltac:(unfold len; rewrite Hlen; simpl; lia))).

Lemma Uint16_of_bytes h p v le :
  load h p = bytes16 le v -> s_len p = 2%nat -> 0 <= v < 2 ^ 16 ->
  (if le then LittleEndian_Uint16 p else BigEndian_Uint16 p) h = Some (v, h).
Proof.
  intros Hload Hlen Hv.
  destruct le; unfold LittleEndian_Uint16, BigEndian_Uint16;
    check_last h p Hlen 1.
  - read_byte h p Hload Hlen 0 (to_byte v).
    read_byte h p Hload Hlen 1 (to_byte (Z.shiftr v 8)).
    unfold ret. rewrite bytes16_round by exact Hv. reflexivity.
  - read_byte h p Hload Hlen 0 (to_byte (Z.shiftr v 8)).
    read_byte h p Hload Hlen 1 (to_byte v).
    unfold ret. rewrite bytes16_round by exact Hv. reflexivity.
Qed.

Lemma Uint32_of_bytes h p v le :
  load h p = bytes32 le v -> s_len p = 4%nat -> 0 <= v < 2 ^ 32 ->
  (if le then LittleEndian_Uint32 p else BigEndian_Uint32 p) h = Some (v, h).
Proof.
  intros Hload Hlen Hv.
  destruct le; unfold LittleEndian_Uint32, BigEndian_Uint32;
    check_last h p Hlen 3.
  - read_byte h p Hload Hlen 0 (to_byte v).
    read_byte h p Hload Hlen 1 (to_byte (Z.shiftr v 8)).
    read_byte h p Hload Hlen 2 (to_byte (Z.shiftr v 16)).
    read_byte h p Hload Hlen 3 (to_byte (Z.shiftr v 24)).
    unfold ret. rewrite bytes32_round by exact Hv. reflexivity.
  - read_byte h p Hload Hlen 0 (to_byte (Z.shiftr v 24)).
    read_byte h p Hload Hlen 1 (to_byte (Z.shiftr v 16)).
    read_byte h p Hload Hlen 2 (to_byte (Z.shiftr v 8)).
    read_byte h p Hload Hlen 3 (to_byte v).
    unfold ret. rewrite bytes32_round by exact Hv. reflexivity.
Qed.

Lemma Uint64_of_bytes h p v le :
  load h p = bytes64 le v -> s_len p = 8%nat -> 0 <= v < 2 ^ 64 ->
  (if le then LittleEndian_Uint64 p else BigEndian_Uint64 p) h = Some (v, h).
Proof.
  intros Hload Hlen Hv.
  destruct le; unfold LittleEndian_Uint64, BigEndian_Uint64;
    check_last h p Hlen 7.
  - read_byte h p Hload Hlen 0 (to_byte v).
    read_byte h p Hload Hlen 1 (to_byte (Z.shiftr v 8)).
    read_byte h p Hload Hlen 2 (to_byte (Z.shiftr v 16)).
    read_byte h p Hload Hlen 3 (to_byte (Z.shiftr v 24)).
    read_byte h p Hload Hlen 4 (to_byte (Z.shiftr v 32)).
    read_byte h p Hload Hlen 5 (to_byte (Z.shiftr v 40)).
    read_byte h p Hload Hlen 6 (to_byte (Z.shiftr v 48)).
    read_byte h p Hload Hlen 7 (to_byte (Z.shiftr v 56)).
    unfold ret. rewrite bytes64_round by exact Hv. reflexivity.
  - read_byte h p Hload Hlen 0 (to_byte (Z.shiftr v 56)).
    read_byte h p Hload Hlen 1 (to_byte (Z.shiftr v 48)).
    read_byte h p Hload Hlen 2 (to_byte (Z.shiftr v 40)).
    read_byte h p Hload Hlen 3 (to_byte (Z.shiftr v 32)).
    read_byte h p Hload Hlen 4 (to_byte (Z.shiftr v 24)).
    read_byte h p Hload Hlen 5 (to_byte (Z.shiftr v 16)).
    read_byte h p Hload Hlen 6 (to_byte (Z.shiftr v 8)).
    read_byte h p Hload Hlen 7 (to_byte v).
    unfold ret. rewrite bytes64_round by exact Hv. reflexivity.
Qed.

(** The bytes an append has just written, as a slice of the new storage. *)
Lemma appended_window h b d :
  inv h b = true ->
  exists p,
    slice_range (buffer (fst (appended d b h))) (offset b)
                (offset b + Z.of_nat (length d)) = Some p /\
    s_len p = length d /\
    load (snd (appended d b h)) p = d.
Proof.
  intros Hi.
  pose proof (appended_inv h b d Hi) as Hi'.
  pose proof Hi' as [Hv' Ho']%inv_spec.
  pose proof Hv' as [Hl' _]%valid_spec.
  pose proof Hi as [Hv Ho]%inv_spec.
  pose proof (length_load h _ Hv) as HL.
  assert (offset (fst (appended d b h)) = offset b + Z.of_nat (length d))
    as Hoff by reflexivity.
  rewrite Hoff in Ho'.
  eexists. split; [apply slice_range_ok; unfold len in *; lia|].
  split; [cbn [s_len]; lia|].
  erewrite load_slice_range;
    [|exact Hv'|apply slice_range_ok; unfold len in *; lia|lia].
  rewrite appended_load by exact Hi.
  replace (Z.to_nat (offset b + Z.of_nat (length d) - offset b))
    with (length d) by lia.
  apply window_splice. rewrite length_app, length_load by exact Hv.
  unfold len in *. lia.
Qed.

End RoundTrip.

(** C3. For every unsigned value of width 16, 32 or 64 bits and either byte
    order: appending it with Uint16, Uint32 or Uint64 returns, and decoding
    the 2, 4 or 8 bytes that then stand at the old cursor position with
    encoding/binary's reader of the same byte order gives back the value. *)
Theorem uint_append_round_trip (h : heap) (b : ResizableBuffer) :
  inv h b = true ->
  (forall v le, 0 <= v < 2 ^ 16 ->
     exists b' h' p,
       Uint16 v le b h = Some (b', h') /\
       slice_range (buffer b') (offset b) (offset b + 2) = Some p /\
       (if le then LittleEndian_Uint16 p else BigEndian_Uint16 p) h'
         = Some (v, h')) /\
  (forall v le, 0 <= v < 2 ^ 32 ->
     exists b' h' p,
       Uint32 v le b h = Some (b', h') /\
       slice_range (buffer b') (offset b) (offset b + 4) = Some p /\
       (if le then LittleEndian_Uint32 p else BigEndian_Uint32 p) h'
         = Some (v, h')) /\
  (forall v le, 0 <= v < 2 ^ 64 ->
     exists b' h' p,
       Uint64 v le b h = Some (b', h') /\
       slice_range (buffer b') (offset b) (offset b + 8) = Some p /\
       (if le then LittleEndian_Uint64 p else BigEndian_Uint64 p) h'
         = Some (v, h')).
Proof.
  intros Hi. repeat split; intros v le Hv.
  - destruct (appended_window h b (bytes16 le v) Hi) as (p & Hp & Hlen & Hload).
    exists (fst (appended (bytes16 le v) b h)),
           (snd (appended (bytes16 le v) b h)), p.
    rewrite Uint16_eq by exact Hi.
    split; [destruct (appended _ b h); reflexivity|].
    replace (Z.of_nat (length (bytes16 le v))) with 2 in Hp
      by (destruct le; reflexivity).
    split; [exact Hp|].
    apply Uint16_of_bytes; [exact Hload| |exact Hv].
    rewrite Hlen. destruct le; reflexivity.
  - destruct (appended_window h b (bytes32 le v) Hi) as (p & Hp & Hlen & Hload).
    exists (fst (appended (bytes32 le v) b h)),
           (snd (appended (bytes32 le v) b h)), p.
    rewrite Uint32_eq by exact Hi.
    split; [destruct (appended _ b h); reflexivity|].
    replace (Z.of_nat (length (bytes32 le v))) with 4 in Hp
      by (destruct le; reflexivity).
    split; [exact Hp|].
    apply Uint32_of_bytes; [exact Hload| |exact Hv].
    rewrite Hlen. destruct le; reflexivity.
  - destruct (appended_window h b (bytes64 le v) Hi) as (p & Hp & Hlen & Hload).
    exists (fst (appended (bytes64 le v) b h)),
           (snd (appended (bytes64 le v) b h)), p.
    rewrite Uint64_eq by exact Hi.
    split; [destruct (appended _ b h); reflexivity|].
    replace (Z.of_nat (length (bytes64 le v))) with 8 in Hp
      by (destruct le; reflexivity).
    split; [exact Hp|].
    apply Uint64_of_bytes; [exact Hload| |exact Hv].
    rewrite Hlen. destruct le; reflexivity.
Qed.

Lemma uint_append_round_trip_witness :
  inv abc_heap abc_buffer = true /\
  0 <= 258 < 2 ^ 16 /\
  exists b' h' p,
    Uint16 258 true abc_buffer abc_heap = Some (b', h') /\
    slice_range (buffer b') 3 5 = Some p /\
    LittleEndian_Uint16 p h' = Some (258, h').
Proof.
  split; [reflexivity|]. split; [lia|].
  destruct (uint_append_round_trip abc_heap abc_buffer eq_refl)
    as (H16 & _ & _).
  exact (H16 258 true ltac:(lia)).
Defined.

(** * Reset, ReadInto and SubBuffer *)

Section Rest.

Implicit Types (h : heap) (s p : slice) (b : ResizableBuffer) (d : list byte).

Lemma valid_poke_in h t o d s :
  valid h t = true -> (o + length d <= s_len t)%nat ->
  valid (poke (s_arr t) (s_base t + o) d h) s = valid h s.
Proof.
  intros Hv Hd. destruct d as [|x d']; [rewrite poke_nil; reflexivity|].
  apply valid_poke.
  apply valid_spec in Hv as [Hl [H0|Hb]]; simpl in *; lia.
Qed.

Lemma Reset_eq h b zeroOut :
  inv h b = true ->
  Reset zeroOut b h =
    Some ({| buffer := buffer b; offset := 0 |},
          if zeroOut
          then poke (s_arr (buffer b)) (s_base (buffer b))
                    (replicate (Z.to_nat (offset b)) 0) h
          else h).
Proof.
  intros [Hv Ho]%inv_spec. pose proof Hv as [Hl _]%valid_spec.
  unfold Reset. destruct zeroOut; [|reflexivity].
  unfold slice_to. rewrite slice_range_ok by (unfold len in *; lia).
  unfold bind, lift, clear, ret. cbn [s_arr s_base s_len].
  rewrite Z.sub_0_r. change (Z.to_nat 0) with 0%nat.
  rewrite Nat.add_0_r. reflexivity.
Qed.

(** The state [ReadInto] leaves behind when the reader stores [d]. *)
Lemma ReadInto_eq h b r m :
  inv h b = true ->
  let bound := if 0 <? m then m else len (buffer b) - offset b in
  let b1 := fst (grown m b h) in
  let h1 := snd (grown m b h) in
  let p := Slice (s_arr (buffer b1))
                 (s_base (buffer b1) + Z.to_nat (offset b))
                 (Z.to_nat bound)
                 (s_cap (buffer b1) - Z.to_nat (offset b)) in
  let d := fst (Read r p) in
  (length d <= Z.to_nat bound)%nat ->
  ReadInto r m b h =
    Some ((Slice (s_arr (buffer b1))
                 (s_base (buffer b1) + Z.to_nat (offset b))
                 (length d)
                 (s_cap (buffer b1) - Z.to_nat (offset b)),
           snd (Read r p),
           {| buffer := buffer b1; offset := offset b + Z.of_nat (length d) |}),
          poke (s_arr (buffer b1))
               (s_base (buffer b1) + Z.to_nat (offset b)) d h1).
Proof.
  intros Hi bound b1 h1 p d Hd.
  pose proof Hi as [Hv Ho]%inv_spec.
  pose proof (grown_inv h b m Hi) as [Hv1 Hb1]%inv_spec.
  pose proof Hv1 as [Hl1 _]%valid_spec.
  pose proof (grown_offset h b m) as Ho1.
  pose proof (grown_room h b m Hi) as Hr.
  fold b1 in Hv1, Hb1, Hl1, Ho1, Hr. fold h1 in Hv1.
  assert ((if 0 <? m
           then b' <- ensureCapacity m b ;; ret (b', m)
           else ret (b, len (buffer b) - offset b)) h
          = Some ((b1, bound), h1)) as Hfirst.
  { unfold bound, b1, h1. destruct (Z.ltb_spec 0 m) as [Hm|Hm].
    - rewrite (bind_eq2 _ _ _ _ (ensureCapacity_eq h b m Hi)). reflexivity.
    - unfold grown.
      destruct (Z.ltb_spec (len (buffer b) - offset b) m); [lia|].
      reflexivity. }
  assert (0 <= bound <= len (buffer b1) - offset b) as Hbound.
  { unfold bound. destruct (Z.ltb_spec 0 m) as [Hm|Hm]; [lia|].
    unfold b1, grown.
    destruct (Z.ltb_spec (len (buffer b) - offset b) m); [lia|].
    simpl. lia. }
  unfold ReadInto. rewrite (bind_eq _ _ _ _ _ Hfirst). cbn [fst snd].
  rewrite Ho1.
  rewrite (bind_eq _ _ _ _ _
             (lift_eq _ _ h1
                (slice_range_ok (buffer b1) (offset b) (offset b + bound)
                   ltac:(lia) ltac:(unfold len in *; lia)))).
  replace (Z.to_nat (offset b + bound - offset b)) with (Z.to_nat bound)
    by lia.
  fold p. unfold bind at 1. unfold reader_read.
  fold d. destruct (Read r p) as [d0 e] eqn:Er. cbn [fst snd] in *.
  subst d.
  assert ((length d0 <=? s_len p)%nat = true) as ->
    by (apply Nat.leb_le; unfold p; cbn [s_len]; lia).
  cbn [fst snd].
  rewrite (bind_eq _ _ _ _ _
             (lift_eq _ _ _
                (slice_range_ok (buffer b1) (offset b)
                   (offset b + Z.of_nat (length d0))
                   ltac:(lia) ltac:(unfold len in *; lia)))).
  unfold ret. unfold p; cbn [s_arr s_base].
  replace (Z.to_nat (offset b + Z.of_nat (length d0) - offset b))
    with (length d0) by lia.
  reflexivity.
Qed.

Lemma SubBuffer_eq h b L :
  inv h b = true ->
  let L' := if L <? 0 then len (buffer b) - offset b else L in
  let b1 := fst (grown L' b h) in
  SubBuffer L b h =
    Some (({| buffer := Slice (s_arr (buffer b1))
                              (s_base (buffer b1) + Z.to_nat (offset b))
                              (Z.to_nat L')
                              (s_cap (buffer b1) - Z.to_nat (offset b));
              offset := 0 |},
           {| buffer := buffer b1; offset := offset b + L' |}),
          snd (grown L' b h)).
Proof.
  intros Hi L' b1.
  pose proof Hi as [Hv Ho]%inv_spec.
  assert (0 <= L') as HL'
    by (unfold L'; destruct (Z.ltb_spec L 0); lia).
  pose proof (grown_inv h b L' Hi) as [Hv1 Hb1]%inv_spec.
  pose proof Hv1 as [Hl1 _]%valid_spec.
  pose proof (grown_offset h b L') as Ho1.
  pose proof (grown_room h b L' Hi) as Hr.
  fold b1 in Hv1, Hb1, Hl1, Ho1, Hr.
  unfold SubBuffer. fold L'.
  rewrite (bind_eq2 _ _ _ _ (ensureCapacity_eq h b L' Hi)). fold b1.
  rewrite Ho1.
  rewrite (bind_eq _ _ _ _ _
             (lift_eq _ _ _
                (slice_range_ok (buffer b1) (offset b) (offset b + L')
                   ltac:(lia) ltac:(unfold len in *; lia)))).
  unfold ret.
  replace (Z.to_nat (offset b + L' - offset b)) with (Z.to_nat L') by lia.
  reflexivity.
Qed.

End Rest.

(** C4. On a buffer that satisfies the state invariant, [Reset(true)]
    returns, sets every byte of [storage[0:cursor]] to zero and leaves every
    byte at an index [>= cursor] unchanged; [Reset(false)] returns and
    leaves the heap, hence every byte, unchanged.  In both cases the cursor
    becomes 0 and the buffer keeps its slice: same backing array, same
    capacity, nothing allocated. *)
Theorem reset_zeroes_written_prefix_only (h : heap) (b : ResizableBuffer) :
  inv h b = true ->
  let cursor := Z.to_nat (offset b) in
  let L := load h (buffer b) in
  (exists h',
     Reset true b h = Some ({| buffer := buffer b; offset := 0 |}, h') /\
     h' = poke (s_arr (buffer b)) (s_base (buffer b)) (replicate cursor 0) h /\
     length h' = length h /\
     load h' (buffer b) = replicate cursor 0 ++ drop cursor L /\
     (forall i, (i < cursor)%nat -> load h' (buffer b) !! i = Some 0) /\
     (forall i, (cursor <= i)%nat -> load h' (buffer b) !! i = L !! i)) /\
  Reset false b h = Some ({| buffer := buffer b; offset := 0 |}, h).
Proof.
  intros Hi cursor L. pose proof Hi as [Hv Ho]%inv_spec.
  pose proof (length_load h _ Hv) as HL.
  split; [|apply (Reset_eq h b false Hi)].
  eexists. split; [apply (Reset_eq h b true Hi)|]. fold cursor.
  split; [reflexivity|]. split; [apply length_poke|].
  assert (load (poke (s_arr (buffer b)) (s_base (buffer b))
                     (replicate cursor 0) h) (buffer b)
          = replicate cursor 0 ++ drop cursor L) as Hload.
  { rewrite <- (Nat.add_0_r (s_base (buffer b))).
    rewrite load_poke_in
      by (try exact Hv; rewrite length_replicate; unfold cursor, len in *; lia).
    unfold splice. rewrite take_0, length_replicate. reflexivity. }
  split; [exact Hload|]. split; intros i Hlt; rewrite Hload.
  - rewrite lookup_app_l by (rewrite length_replicate; lia).
    apply lookup_replicate_2. exact Hlt.
  - rewrite lookup_app_r by (rewrite length_replicate; lia).
    rewrite length_replicate, lookup_drop. f_equal. lia.
Qed.

Lemma reset_zeroes_written_prefix_only_witness :
  inv abc_heap abc_buffer = true /\
  Reset true abc_buffer abc_heap =
    Some ({| buffer := Slice 0 0 6 6; offset := 0 |}, [[0; 0; 0; 0; 0; 0]]) /\
  Reset false abc_buffer abc_heap =
    Some ({| buffer := Slice 0 0 6 6; offset := 0 |}, abc_heap).
Proof.
  split; [reflexivity|].
  destruct (reset_zeroes_written_prefix_only abc_heap abc_buffer eq_refl)
    as ((h' & Ht & Hh' & _) & Hf).
  split; [rewrite Ht, Hh'; reflexivity|exact Hf].
Defined.

(** C5. When the source, asked to fill the slice [p] it is handed (of
    length [bound]: [maxSize] if positive, else the spare tail capacity),
    produces [k <= bound] bytes and reports an error (or none), ReadInto
    returns: the error is the source's, unchanged; the chunk is the slice
    [storage[cursor'-k:cursor']] of the [k] bytes stored, possibly empty;
    and the cursor has advanced by exactly [k]. *)
Theorem read_into_passes_error_and_count (h : heap) (b : ResizableBuffer)
        (r : Reader) (maxSize : Z) :
  inv h b = true ->
  let bound := if 0 <? maxSize then maxSize
               else len (buffer b) - offset b in
  (forall p, s_len p = Z.to_nat bound ->
             (length (fst (Read r p)) <= s_len p)%nat) ->
  exists p chunk err b' h',
    ReadInto r maxSize b h = Some ((chunk, err, b'), h') /\
    len p = bound /\
    err = snd (Read r p) /\
    let d := fst (Read r p) in
    let k := Z.of_nat (length d) in
    offset b' = offset b + k /\
    slice_range (buffer b') (offset b' - k) (offset b') = Some chunk /\
    len chunk = k /\
    load h' chunk = d.
Proof.
  intros Hi bound Hr.
  pose proof Hi as [Hv Ho]%inv_spec.
  assert (0 <= bound) as Hb0
    by (unfold bound; destruct (Z.ltb_spec 0 maxSize); lia).
  pose proof (ReadInto_eq h b r maxSize Hi) as Heq. cbn zeta in Heq.
  fold bound in Heq.
  set (b1 := fst (grown maxSize b h)) in *.
  set (h1 := snd (grown maxSize b h)) in *.
  set (p := Slice (s_arr (buffer b1))
                  (s_base (buffer b1) + Z.to_nat (offset b))
                  (Z.to_nat bound)
                  (s_cap (buffer b1) - Z.to_nat (offset b))) in *.
  specialize (Hr p eq_refl). cbn [s_len] in Hr. specialize (Heq Hr).
  pose proof (grown_inv h b maxSize Hi) as [Hv1 Hb1]%inv_spec.
  pose proof Hv1 as [Hl1 _]%valid_spec.
  pose proof (grown_offset h b maxSize) as Ho1.
  pose proof (grown_room h b maxSize Hi) as Hroom.
  fold b1 in Hv1, Hb1, Hl1, Ho1, Hroom. fold h1 in Hv1.
  assert (bound <= len (buffer b1) - offset b) as Hbound.
  { unfold bound. destruct (Z.ltb_spec 0 maxSize) as [Hm|Hm]; [lia|].
    unfold b1, grown.
    destruct (Z.ltb_spec (len (buffer b) - offset b) maxSize); [lia|].
    simpl. lia. }
  eexists p, _, _, _, _. split; [exact Heq|].
  split; [unfold len, p; cbn [s_len]; lia|].
  split; [reflexivity|].
  cbn zeta. cbn [offset buffer].
  set (d := fst (Read r p)) in *.
  assert (length d <= Z.to_nat bound)%nat as Hr' by exact Hr.
  replace (offset b + Z.of_nat (length d) - Z.of_nat (length d))
    with (offset b) by lia.
  split; [reflexivity|].
  split.
  { rewrite slice_range_ok by (unfold len in *; lia).
    do 2 f_equal. lia. }
  split; [reflexivity|].
  unfold load; cbn [s_arr s_base s_len].
  destruct d as [|x d'] eqn:Ed; [rewrite take_0; reflexivity|].
  rewrite <- Ed in *.
  assert (0 < length d)%nat as Hpos by (rewrite Ed; simpl; lia).
  assert (s_arr (buffer b1) < length h1)%nat as Hlt.
  { apply valid_arr_lt; [exact Hv1|]. unfold len in *. lia. }
  rewrite array_at_poke_same by exact Hlt.
  apply window_splice.
  apply valid_spec in Hv1 as [_ [H0|Hcap]]; unfold len in *; lia.
Qed.

Lemma read_into_passes_error_and_count_witness :
  inv abc_heap abc_buffer = true /\
  exists chunk b' h',
    ReadInto short_reader 5 abc_buffer abc_heap
      = Some ((chunk, Some "test error"%string, b'), h') /\
    offset b' = 5 /\
    load h' chunk = [120; 121].
Proof.
  split; [reflexivity|].
  destruct (read_into_passes_error_and_count abc_heap abc_buffer
              short_reader 5 eq_refl)
    as (p & chunk & err & b' & h' & Hrun & Hp & Herr & Hoff & _ & _ & Hd).
  { intros p Hp. simpl. rewrite length_take. lia. }
  exists chunk, b', h'.
  assert (s_len p = 5%nat) as Hlen by (unfold len in Hp; simpl in Hp; lia).
  simpl in Herr, Hoff, Hd. rewrite Hlen in Hoff, Hd. simpl in Hoff, Hd.
  subst err. repeat split; assumption.
Defined.

Lemma grown_cases (h : heap) (b : ResizableBuffer) (n : Z) :
  (n <= len (buffer b) - offset b -> grown n b h = (b, h)) /\
  (len (buffer b) - offset b < n ->
   grown n b h =
     ({| buffer := Slice (length h) 0 (Z.to_nat (n + len (buffer b)))
                         (Z.to_nat (n + len (buffer b)));
         offset := offset b |},
      h ++ [load h (buffer b) ++ replicate (Z.to_nat n) 0])).
Proof.
  unfold grown.
  destruct (Z.ltb_spec (len (buffer b) - offset b) n); split; intros;
    try lia; reflexivity.
Qed.

(** C6. With [maxSize <= 0] ReadInto does not grow the buffer: the buffer
    keeps its slice, nothing is allocated, the heap changes only by the
    bytes the source stores at the cursor, and the source is handed exactly
    [storage[cursor:C]], so the read is bounded by the spare tail capacity
    [C - cursor].  With [maxSize > 0] capacity for [maxSize] more bytes is
    ensured first, growing by the tail-grow rule when the spare capacity is
    short, and the source is handed the [maxSize] bytes
    [storage[cursor:cursor+maxSize]]. *)
Theorem read_into_bound (h : heap) (b : ResizableBuffer) (r : Reader)
        (maxSize : Z) :
  inv h b = true ->
  let C := len (buffer b) in
  let cursor := Z.to_nat (offset b) in
  (maxSize <= 0 ->
   exists p,
     slice_range (buffer b) (offset b) C = Some p /\
     len p = C - offset b /\
     ((length (fst (Read r p)) <= s_len p)%nat ->
      exists chunk,
        ReadInto r maxSize b h =
          Some ((chunk, snd (Read r p),
                 {| buffer := buffer b;
                    offset := offset b
                              + Z.of_nat (length (fst (Read r p))) |}),
                poke (s_arr (buffer b)) (s_base (buffer b) + cursor)
                     (fst (Read r p)) h))) /\
  (0 < maxSize ->
   exists b1 h1 p,
     ensureCapacity maxSize b h = Some (b1, h1) /\
     offset b1 = offset b /\
     maxSize <= len (buffer b1) - offset b /\
     (maxSize <= C - offset b -> b1 = b /\ h1 = h) /\
     (C - offset b < maxSize ->
      buffer b1 = Slice (length h) 0 (Z.to_nat (maxSize + C))
                        (Z.to_nat (maxSize + C)) /\
      h1 = h ++ [load h (buffer b) ++ replicate (Z.to_nat maxSize) 0]) /\
     slice_range (buffer b1) (offset b) (offset b + maxSize) = Some p /\
     len p = maxSize /\
     ((length (fst (Read r p)) <= s_len p)%nat ->
      exists chunk,
        ReadInto r maxSize b h =
          Some ((chunk, snd (Read r p),
                 {| buffer := buffer b1;
                    offset := offset b
                              + Z.of_nat (length (fst (Read r p))) |}),
                poke (s_arr (buffer b1)) (s_base (buffer b1) + cursor)
                     (fst (Read r p)) h1))).
Proof.
  intros Hi C cursor.
  pose proof Hi as [Hv Ho]%inv_spec. pose proof Hv as [Hl _]%valid_spec.
  pose proof (ReadInto_eq h b r maxSize Hi) as Heq. cbn zeta in Heq.
  destruct (grown_cases h b maxSize) as [Hsame Hgrow].
  split; intros Hm.
  - rewrite Hsame in Heq by lia. cbn [fst snd] in Heq.
    destruct (Z.ltb_spec 0 maxSize) as [|_]; [lia|].
    eexists. split; [apply slice_range_ok; unfold C, len in *; lia|].
    split; [unfold C, len in *; cbn [s_len]; lia|].
    intros Hd. eexists. apply Heq. exact Hd.
  - pose proof (grown_inv h b maxSize Hi) as [Hv1 Hb1]%inv_spec.
    pose proof Hv1 as [Hl1 _]%valid_spec.
    pose proof (grown_offset h b maxSize) as Ho1.
    pose proof (grown_room h b maxSize Hi) as Hroom.
    destruct (Z.ltb_spec 0 maxSize) as [_|]; [|lia].
    exists (fst (grown maxSize b h)), (snd (grown maxSize b h)).
    eexists.
    split; [rewrite ensureCapacity_eq by exact Hi;
            destruct (grown maxSize b h); reflexivity|].
    split; [exact Ho1|]. split; [exact Hroom|].
    split; [intros Hs; rewrite Hsame by exact Hs; split; reflexivity|].
    split; [intros Hs; rewrite Hgrow by exact Hs; split; reflexivity|].
    split; [apply slice_range_ok; unfold len in *; lia|].
    split; [unfold len; cbn [s_len]; lia|].
    replace (Z.to_nat (offset b + maxSize - offset b))
      with (Z.to_nat maxSize) by lia.
    intros Hd. eexists. apply Heq. exact Hd.
Qed.

Lemma read_into_bound_witness :
  inv abc_heap abc_buffer = true /\
  -1 <= 0 /\
  exists chunk,
    ReadInto short_reader (-1) abc_buffer abc_heap =
      Some ((chunk, Some "test error"%string,
             {| buffer := Slice 0 0 6 6; offset := 5 |}),
            [[97; 98; 99; 120; 121; 0]]).
Proof.
  split; [reflexivity|]. split; [lia|].
  destruct (read_into_bound abc_heap abc_buffer short_reader (-1) eq_refl)
    as [Hneg _].
  destruct (Hneg ltac:(lia)) as (p & Hp & _ & Hrun).
  vm_compute in Hp. injection Hp as <-.
  destruct (Hrun ltac:(simpl; lia)) as (chunk & Hc).
  exists chunk. exact Hc.
Defined.

(** C7. [SubBuffer(L)] first ensures spare tail capacity for the effective
    length (tail-growing if it is short), returns a new buffer whose
    storage is the window of exactly that many bytes starting at the
    parent's cursor, in the parent's backing array, with its own cursor at
    0, and advances the parent's cursor by exactly that length.  The
    effective length is [L], or, when [L < 0], the parent's spare tail
    capacity [C - cursor]; in that case nothing grows. *)
Theorem sub_buffer_window (h : heap) (b : ResizableBuffer) (L : Z) :
  inv h b = true ->
  let C := len (buffer b) in
  let cursor := Z.to_nat (offset b) in
  let L' := if L <? 0 then C - offset b else L in
  exists b1 h1 sub,
    ensureCapacity L' b h = Some (b1, h1) /\
    L' <= len (buffer b1) - offset b /\
    (L' <= C - offset b -> b1 = b /\ h1 = h) /\
    (C - offset b < L' ->
     buffer b1 = Slice (length h) 0 (Z.to_nat (L' + C)) (Z.to_nat (L' + C)) /\
     h1 = h ++ [load h (buffer b) ++ replicate (Z.to_nat L') 0]) /\
    SubBuffer L b h =
      Some ((sub, {| buffer := buffer b1; offset := offset b + L' |}), h1) /\
    offset sub = 0 /\
    slice_range (buffer b1) (offset b) (offset b + L') = Some (buffer sub) /\
    len (buffer sub) = L' /\
    s_arr (buffer sub) = s_arr (buffer b1) /\
    s_base (buffer sub) = (s_base (buffer b1) + cursor)%nat /\
    load h1 (buffer sub)
      = take (Z.to_nat L') (drop cursor (load h1 (buffer b1))) /\
    (L < 0 -> L' = C - offset b /\ b1 = b /\ h1 = h).
Proof.
  intros Hi C cursor L'.
  pose proof Hi as [Hv Ho]%inv_spec.
  assert (0 <= L') as HL'
    by (unfold L'; destruct (Z.ltb_spec L 0); lia).
  pose proof (SubBuffer_eq h b L Hi) as Heq. cbn zeta in Heq.
  fold C in Heq. fold L' in Heq.
  destruct (grown_cases h b L') as [Hsame Hgrow].
  pose proof (grown_inv h b L' Hi) as [Hv1 Hb1]%inv_spec.
  pose proof Hv1 as [Hl1 _]%valid_spec.
  pose proof (grown_offset h b L') as Ho1.
  pose proof (grown_room h b L' Hi) as Hroom.
  exists (fst (grown L' b h)), (snd (grown L' b h)).
  eexists.
  split; [rewrite ensureCapacity_eq by exact Hi;
          destruct (grown L' b h); reflexivity|].
  split; [exact Hroom|].
  split; [intros Hs; rewrite Hsame by exact Hs; split; reflexivity|].
  split; [intros Hs; rewrite Hgrow by exact Hs; split; reflexivity|].
  split; [exact Heq|]. cbn [buffer offset s_arr s_base].
  split; [reflexivity|].
  assert (slice_range (buffer (fst (grown L' b h))) (offset b) (offset b + L')
          = Some (Slice (s_arr (buffer (fst (grown L' b h))))
                        (s_base (buffer (fst (grown L' b h))) + cursor)
                        (Z.to_nat L')
                        (s_cap (buffer (fst (grown L' b h))) - cursor)))
    as Hsl.
  { rewrite slice_range_ok by (unfold len in *; lia).
    do 2 f_equal. lia. }
  split; [exact Hsl|].
  split; [unfold len; cbn [s_len]; lia|].
  split; [reflexivity|]. split; [reflexivity|].
  split.
  { etransitivity;
      [exact (load_slice_range _ _ _ _ _ Hv1 Hsl ltac:(lia))|].
    do 2 f_equal. lia. }
  intros Hneg. unfold L'. destruct (Z.ltb_spec L 0) as [_|]; [|lia].
  split; [reflexivity|].
  unfold L' in Hsame. destruct (Z.ltb_spec L 0) as [_|]; [|lia].
  rewrite Hsame by lia. split; reflexivity.
Qed.

Lemma sub_buffer_window_witness :
  inv abc_heap abc_buffer = true /\
  SubBuffer (-1) abc_buffer abc_heap =
    Some (({| buffer := Slice 0 3 3 3; offset := 0 |},
           {| buffer := Slice 0 0 6 6; offset := 6 |}), abc_heap).
Proof.
  split; [reflexivity|].
  destruct (sub_buffer_window abc_heap abc_buffer (-1) eq_refl)
    as (b1 & h1 & sub & _ & _ & _ & _ & Hrun & Hoff & Hsl & _ & _ & _ & _
        & Hneg).
  destruct (Hneg ltac:(lia)) as (_ & -> & ->).
  rewrite Hrun. destruct sub as [sb so]. simpl in Hoff, Hsl.
  vm_compute in Hsl. injection Hsl as <-. subst so. reflexivity.
Defined.

(** * The state invariant *)

Section Invariant.

Implicit Types (h : heap) (s p : slice) (b : ResizableBuffer) (d : list byte).

Lemma inv_frame h h' b :
  (forall s, valid h s = true -> valid h' s = true) ->
  inv h b = true -> inv h' b = true.
Proof.
  intros Hf [Hv Ho]%inv_spec. apply inv_spec. split; [apply Hf; exact Hv|exact Ho].
Qed.

Lemma appended_frame h b d s :
  inv h b = true -> valid h s = true ->
  valid (snd (appended d b h)) s = true.
Proof.
  intros Hi Hs. unfold appended. cbn [snd].
  pose proof (grown_inv h b (Z.of_nat (length d)) Hi) as [Hv1 Hb1]%inv_spec.
  pose proof (grown_room h b (Z.of_nat (length d)) Hi) as Hr.
  pose proof Hi as [_ Ho]%inv_spec.
  rewrite valid_poke_in by (try exact Hv1; unfold len in *; lia).
  apply grown_frame. exact Hs.
Qed.

Lemma prepended_frame h b d s :
  inv h b = true -> valid h s = true ->
  valid (snd (prepended d b h)) s = true.
Proof.
  intros Hi Hs. unfold prepended. cbn [snd].
  destruct (shifted_buffer_valid h b (Z.of_nat (length d)) Hi ltac:(lia))
    as [Hv1 Hl1].
  rewrite <- (Nat.add_0_r (s_base _)).
  rewrite valid_poke_in by (try exact Hv1; unfold len in *; lia).
  apply shifted_frame; [exact Hi|lia|exact Hs].
Qed.

Lemma Bytes_content h b :
  inv h b = true ->
  exists cs, Bytes b h = Some (cs, h) /\ len cs = offset b /\
             load h cs = content h b.
Proof.
  intros [Hv Ho]%inv_spec. pose proof Hv as [Hl _]%valid_spec.
  assert (slice_to (buffer b) (offset b)
          = Some (Slice (s_arr (buffer b)) (s_base (buffer b) + Z.to_nat 0)
                        (Z.to_nat (offset b - 0))
                        (s_cap (buffer b) - Z.to_nat 0))) as Hsl
    by (apply slice_range_ok; unfold len in *; lia).
  eexists. split; [unfold Bytes; rewrite Hsl; reflexivity|].
  split; [unfold len in *; cbn [s_len]; lia|].
  rewrite (load_slice_range _ _ _ _ _ Hv Hsl) by lia.
  unfold content. rewrite Z.sub_0_r. reflexivity.
Qed.

Lemma step_preserves h b c :
  inv h b = true -> call_ok h c ->
  exists b' sub h',
    step c b h = Some ((b', sub), h') /\
    inv h' b' = true /\
    (forall sb : ResizableBuffer, sub = Some sb -> inv h' sb = true) /\
    (forall s, valid h s = true -> valid h' s = true).
Proof.
  intros Hi Hok. pose proof Hi as [Hv Ho]%inv_spec.
  destruct c as [op|op|z|r m|L| |]; simpl in Hok; unfold step.
  - rewrite (bind_eq2 _ _ _ _ (run_append_eq h b op Hi Hok)).
    do 3 eexists. split; [reflexivity|].
    split; [apply appended_inv; exact Hi|].
    split; [discriminate|]. intros s. apply appended_frame. exact Hi.
  - rewrite (bind_eq2 _ _ _ _ (run_prepend_eq h b op Hi Hok)).
    do 3 eexists. split; [reflexivity|].
    split; [apply prepended_inv; exact Hi|].
    split; [discriminate|]. intros s. apply prepended_frame. exact Hi.
  - rewrite (bind_eq2 _ _ _ _ (Reset_eq h b z Hi)). cbn [fst snd].
    do 3 eexists. split; [reflexivity|].
    assert (forall s, valid h s = true ->
              valid (if z
                     then poke (s_arr (buffer b)) (s_base (buffer b))
                               (replicate (Z.to_nat (offset b)) 0) h
                     else h) s = true) as Hf.
    { intros s Hs. destruct z; [|exact Hs].
      rewrite <- (Nat.add_0_r (s_base _)).
      rewrite valid_poke_in; [exact Hs|exact Hv|].
      rewrite length_replicate. unfold len in *. lia. }
    split.
    + apply inv_spec; cbn [buffer offset]. split; [apply Hf; exact Hv|lia].
    + split; [discriminate|exact Hf].
  - pose proof (ReadInto_eq h b r m Hi) as Heq. cbn zeta in Heq.
    pose proof (grown_inv h b m Hi) as [Hv1 Hb1]%inv_spec.
    pose proof (grown_room h b m Hi) as Hroom.
    set (bound := if 0 <? m then m else len (buffer b) - offset b) in *.
    assert (0 <= bound <= len (buffer (fst (grown m b h))) - offset b)
      as Hbound.
    { unfold bound. destruct (Z.ltb_spec 0 m) as [Hm|Hm]; [lia|].
      unfold grown.
      destruct (Z.ltb_spec (len (buffer b) - offset b) m); [lia|].
      simpl. lia. }
    match type of Heq with
    | (length (fst (Read r ?q)) <= _)%nat -> _ => set (p := q) in *
    end.
    assert (length (fst (Read r p)) <= Z.to_nat bound)%nat as Hd
      by exact (Hok p).
    specialize (Heq Hd).
    rewrite (bind_eq2 _ _ _ _ Heq). cbn [fst snd].
    do 3 eexists. split; [reflexivity|].
    assert (forall s, valid h s = true ->
              valid (poke (s_arr (buffer (fst (grown m b h))))
                          (s_base (buffer (fst (grown m b h)))
                           + Z.to_nat (offset b))
                          (fst (Read r p)) (snd (grown m b h))) s = true)
      as Hf.
    { intros s Hs.
      rewrite valid_poke_in by (try exact Hv1; unfold len in *; lia).
      apply grown_frame. exact Hs. }
    split.
    + apply inv_spec; cbn [buffer offset]. split; [|lia].
      rewrite valid_poke_in by (try exact Hv1; unfold len in *; lia).
      exact Hv1.
    + split; [discriminate|exact Hf].
  - pose proof (SubBuffer_eq h b L Hi) as Heq. cbn zeta in Heq.
    set (L' := if L <? 0 then len (buffer b) - offset b else L) in *.
    assert (0 <= L') as HL'
      by (unfold L'; destruct (Z.ltb_spec L 0); lia).
    pose proof (grown_inv h b L' Hi) as [Hv1 Hb1]%inv_spec.
    pose proof Hv1 as [Hl1 Hc1]%valid_spec.
    pose proof (grown_room h b L' Hi) as Hroom.
    rewrite (bind_eq2 _ _ _ _ Heq). cbn [fst snd].
    do 3 eexists. split; [reflexivity|].
    split; [apply inv_spec; cbn [buffer offset]; split; [exact Hv1|lia]|].
    split; [|intros s; apply grown_frame].
    intros s [= <-]. apply inv_spec; cbn [buffer offset].
    split; [|unfold len; cbn [s_len]; lia].
    apply valid_spec; cbn [s_len s_cap s_arr s_base].
    unfold len in *. split; [lia|]. destruct Hc1 as [H0|Hc1]; [left; lia|].
    right. lia.
  - destruct (Bytes_content h b Hi) as (cs & Hb & _).
    rewrite (bind_eq _ _ _ _ _ Hb).
    do 3 eexists. split; [reflexivity|].
    split; [exact Hi|]. split; [discriminate|auto].
  - do 3 eexists. split; [reflexivity|].
    split; [exact Hi|]. split; [discriminate|auto].
Qed.

End Invariant.

(** C9. The state invariant [0 <= cursor <= C], over a valid storage slice,
    holds of a newly created buffer -- created empty ([C = 0]) or from
    caller-supplied bytes ([C = len(supplied)]), with [cursor = 0], so that
    [Len()] is 0 and [Bytes()] is an empty slice -- and every method
    (called with a valid slice argument, and with a reader that keeps the
    io.Reader contract) returns and preserves it: for the receiver, for the
    sub-buffer it may create, and for every other buffer over the same
    heap.  [Bytes()] then returns exactly the logical content
    [storage[0:cursor]]. *)
Theorem state_invariant (h : heap) :
  (inv h (NewResizableBuffer None) = true /\
   len (buffer (NewResizableBuffer None)) = 0 /\
   offset (NewResizableBuffer None) = 0) /\
  (forall supplied,
     valid h supplied = true ->
     inv h (NewResizableBuffer (Some supplied)) = true /\
     buffer (NewResizableBuffer (Some supplied)) = supplied /\
     offset (NewResizableBuffer (Some supplied)) = 0) /\
  (forall b,
     inv h b = true -> offset b = 0 ->
     Len b = 0 /\
     exists cs, Bytes b h = Some (cs, h) /\ len cs = 0 /\ load h cs = []) /\
  (forall b c,
     inv h b = true -> call_ok h c ->
     exists b' sub h',
       step c b h = Some ((b', sub), h') /\
       inv h' b' = true /\
       (forall sb, sub = Some sb -> inv h' sb = true) /\
       (forall b0, inv h b0 = true -> inv h' b0 = true) /\
       exists cs, Bytes b' h' = Some (cs, h') /\
                  len cs = offset b' /\
                  load h' cs = content h' b').
Proof.
  split; [repeat split|]. split.
  { intros s Hs. repeat split. apply inv_spec. simpl.
    split; [exact Hs|unfold len; lia]. }
  split.
  { intros b Hi H0. split; [exact H0|].
    destruct (Bytes_content h b Hi) as (cs & Hb & Hl & Hc).
    exists cs. split; [exact Hb|]. split; [lia|].
    rewrite Hc. unfold content. rewrite H0. apply take_0. }
  intros b c Hi Hok.
  destruct (step_preserves h b c Hi Hok) as (b' & sub & h' & Hs & Hi' & Hsub & Hf).
  exists b', sub, h'. split; [exact Hs|]. split; [exact Hi'|].
  split; [exact Hsub|].
  split; [intros b0; apply inv_frame; exact Hf|].
  apply Bytes_content. exact Hi'.
Qed.

Lemma state_invariant_witness :
  valid abc_heap (Slice 0 0 6 6) = true /\
  inv abc_heap (NewResizableBuffer (Some (Slice 0 0 6 6))) = true /\
  inv abc_heap abc_buffer = true /\
  call_ok abc_heap (CSubBuffer 10) /\
  exists b' sub h',
    step (CSubBuffer 10) abc_buffer abc_heap = Some ((b', sub), h') /\
    inv h' b' = true.
Proof.
  destruct (state_invariant abc_heap) as (_ & Hnew & _ & Hstep).
  split; [reflexivity|].
  split; [apply (Hnew (Slice 0 0 6 6) eq_refl)|].
  split; [reflexivity|]. split; [exact I|].
  destruct (Hstep abc_buffer (CSubBuffer 10) eq_refl I)
    as (b' & sub & h' & Hs & Hi' & _).
  exists b', sub, h'. split; [exact Hs|exact Hi'].
Defined.

(** * Further properties of the methods *)

Section MoreFacts.

Implicit Types (h : heap) (s p t : slice) (b : ResizableBuffer) (d : list byte).

Lemma take_splice_through (l d : list byte) (i : nat) :
  (i <= length l)%nat -> take (i + length d) (splice l i d) = take i l ++ d.
Proof.
  intros Hi. unfold splice.
  rewrite take_app_add' by (rewrite length_take; lia).
  rewrite take_app_length. reflexivity.
Qed.

Lemma appended_content h b d :
  inv h b = true ->
  content (snd (appended d b h)) (fst (appended d b h)) = content h b ++ d.
Proof.
  intros Hi. pose proof Hi as [Hv Ho]%inv_spec.
  unfold content. rewrite appended_load by exact Hi.
  unfold appended. cbn [fst offset].
  replace (Z.to_nat (offset b + Z.of_nat (length d)))
    with (Z.to_nat (offset b) + length d)%nat by lia.
  rewrite take_splice_through
    by (rewrite length_app, length_load by exact Hv; unfold len in *; lia).
  f_equal. apply take_app_le.
  rewrite length_load by exact Hv. unfold len in *. lia.
Qed.

(** A write into the window of [t] leaves every slice apart from that
    window as it was. *)
Lemma load_poke_window h t o d s :
  valid h t = true -> (o + length d <= s_len t)%nat ->
  apart t s = true ->
  load (poke (s_arr t) (s_base t + o) d h) s = load h s.
Proof.
  intros Hv Hd Ha. destruct d as [|x d']; [rewrite poke_nil; reflexivity|].
  unfold apart in Ha.
  apply orb_true_iff in Ha as [Ha|Ha];
    [|apply Nat.eqb_eq in Ha; simpl in Hd; lia].
  apply orb_true_iff in Ha as [[[Ha|Ha]%orb_true_iff|Ha]%orb_true_iff|Ha].
  - apply Nat.eqb_eq in Ha. unfold load. rewrite Ha. reflexivity.
  - apply negb_true_iff, Nat.eqb_neq in Ha.
    apply load_poke_other. congruence.
  - apply Nat.leb_le in Ha. apply load_poke_apart.
    + apply valid_spec in Hv as [Hl [H0|Hb]]; simpl in *; lia.
    + right; left. lia.
  - apply Nat.leb_le in Ha. apply load_poke_apart.
    + apply valid_spec in Hv as [Hl [H0|Hb]]; simpl in *; lia.
    + right; right. simpl in *. lia.
Qed.

Lemma load_grown h b n s :
  valid h s = true -> load (snd (grown n b h)) s = load h s.
Proof. intros Hs. apply (grown_frame h b n s Hs). Qed.

(** A slice of the old heap never lives in the array a growth allocates. *)
Lemma apart_fresh h s c1 c2 :
  valid h s = true -> apart (Slice (length h) 0 c1 c2) s = true.
Proof.
  intros Hs. unfold apart; cbn [s_arr s_base s_len].
  destruct (Nat.eqb_spec (s_len s) 0) as [|Hnz]; [reflexivity|].
  assert (s_arr s < length h)%nat as Hlt.
  { apply valid_arr_lt; [exact Hs|]. apply valid_spec in Hs. lia. }
  destruct (Nat.eqb_spec (s_arr s) (length h)); [lia|reflexivity].
Qed.

Lemma grown_apart h b n s :
  valid h s = true -> apart (buffer b) s = true ->
  apart (buffer (fst (grown n b h))) s = true.
Proof.
  intros Hs Ha. unfold grown. destruct (_ <? _); [|exact Ha].
  apply apart_fresh. exact Hs.
Qed.

Lemma appended_apart h b d s :
  inv h b = true -> valid h s = true -> apart (buffer b) s = true ->
  load (snd (appended d b h)) s = load h s.
Proof.
  intros Hi Hs Ha. unfold appended. cbn [snd].
  pose proof (grown_inv h b (Z.of_nat (length d)) Hi) as [Hv1 Hb1]%inv_spec.
  pose proof (grown_room h b (Z.of_nat (length d)) Hi) as Hr.
  pose proof Hi as [_ Ho]%inv_spec.
  rewrite load_poke_window;
    [apply load_grown; exact Hs|exact Hv1|unfold len in *; lia|].
  apply grown_apart; assumption.
Qed.

End MoreFacts.

(** X1. An append-family method adds exactly its bytes to the end of the
    logical content: [Bytes()] afterwards is the old [Bytes()] followed by
    the bytes written, and [Len()] has grown by their number. *)
Theorem append_extends_content (h : heap) (b : ResizableBuffer)
        (op : append_op) :
  inv h b = true -> append_ok h op = true ->
  exists b' h' cs,
    run_append op b h = Some (b', h') /\
    Bytes b' h' = Some (cs, h') /\
    load h' cs = content h b ++ append_bytes h op /\
    Len b' = Len b + Z.of_nat (length (append_bytes h op)).
Proof.
  intros Hi Hok.
  pose proof (appended_inv h b (append_bytes h op) Hi) as Hi'.
  destruct (Bytes_content _ _ Hi') as (cs & Hb & _ & Hc).
  exists (fst (appended (append_bytes h op) b h)),
         (snd (appended (append_bytes h op) b h)), cs.
  rewrite (run_append_eq h b op Hi Hok).
  split; [destruct (appended _ b h); reflexivity|].
  split; [exact Hb|].
  split; [rewrite Hc; apply appended_content; exact Hi|reflexivity].
Qed.

Lemma append_extends_content_witness :
  inv abc_heap abc_buffer = true /\
  append_ok abc_heap ACRLF = true /\
  exists b' h' cs,
    run_append ACRLF abc_buffer abc_heap = Some (b', h') /\
    Bytes b' h' = Some (cs, h') /\
    load h' cs = [97; 98; 99] ++ [13; 10].
Proof.
  split; [reflexivity|]. split; [reflexivity|].
  destruct (append_extends_content abc_heap abc_buffer ACRLF eq_refl eq_refl)
    as (b' & h' & cs & Hrun & Hb & Hc & _).
  exists b', h', cs. split; [exact Hrun|]. split; [exact Hb|exact Hc].
Defined.

(** X2. An append never disturbs what was handed out before: the slice an
    earlier [Bytes()] returned still holds the same bytes afterwards,
    whether or not the append reallocates; and when it does reallocate,
    every slice of the old heap (the old storage included) keeps its bytes,
    so old views go stale rather than change. *)
Theorem append_keeps_earlier_views (h : heap) (b : ResizableBuffer)
        (op : append_op) :
  inv h b = true -> append_ok h op = true ->
  exists b' h',
    run_append op b h = Some (b', h') /\
    (forall cs, Bytes b h = Some (cs, h) -> load h' cs = load h cs) /\
    (len (buffer b) - offset b < Z.of_nat (length (append_bytes h op)) ->
     forall s, valid h s = true -> load h' s = load h s).
Proof.
  intros Hi Hok. pose proof Hi as [Hv Ho]%inv_spec.
  pose proof Hv as [Hl _]%valid_spec.
  set (d := append_bytes h op).
  exists (fst (appended d b h)), (snd (appended d b h)).
  rewrite (run_append_eq h b op Hi Hok). fold d.
  split; [destruct (appended d b h); reflexivity|]. split.
  - intros cs Hcs. unfold Bytes, slice_to in Hcs.
    rewrite slice_range_ok in Hcs by (unfold len in *; lia).
    cbn [lift] in Hcs. injection Hcs as <-.
    destruct (Z.eq_dec (offset b) 0) as [Hz|Hnz];
      [unfold load; cbn [s_len]; rewrite Hz; reflexivity|].
    unfold appended. cbn [snd].
    pose proof (grown_inv h b (Z.of_nat (length d)) Hi) as [Hv1 Hb1]%inv_spec.
    pose proof (grown_room h b (Z.of_nat (length d)) Hi) as Hr.
    assert (valid h (Slice (s_arr (buffer b)) (s_base (buffer b) + Z.to_nat 0)
                           (Z.to_nat (offset b - 0))
                           (s_cap (buffer b) - Z.to_nat 0)) = true) as Hcv.
    { eapply valid_slice_range; [exact Hv|].
      apply slice_range_ok; unfold len in *; lia. }
    destruct d as [|x d'] eqn:Ed; [rewrite poke_nil; apply load_grown; exact Hcv|].
    rewrite <- Ed in *.
    assert (0 < length d)%nat as Hpos by (rewrite Ed; simpl; lia).
    rewrite load_poke_apart; [apply load_grown; exact Hcv| |].
    + apply valid_spec in Hv1 as [Hl1 [H0|Hb]]; unfold len in *; lia.
    + unfold grown.
      destruct (Z.ltb_spec (len (buffer b) - offset b) (Z.of_nat (length d)));
        cbn [fst buffer s_arr s_base s_len].
      * left. apply valid_arr_lt in Hv; unfold len in *; lia.
      * right; left. change (Z.to_nat 0) with 0%nat. lia.
  - intros Hgrow s Hs. unfold appended, grown. fold d in Hgrow.
    destruct (Z.ltb_spec (len (buffer b) - offset b) (Z.of_nat (length d)));
      [|lia].
    cbn [fst snd buffer s_arr s_base]. rewrite poke_alloc.
    apply load_alloc. exact Hs.
Qed.

Lemma append_keeps_earlier_views_witness :
  inv abc_heap abc_buffer = true /\
  append_ok abc_heap (AUint64 1 true) = true /\
  exists b' h',
    run_append (AUint64 1 true) abc_buffer abc_heap = Some (b', h') /\
    load h' (Slice 0 0 3 6) = [97; 98; 99] /\
    load h' (buffer abc_buffer) = [97; 98; 99; 0; 0; 0].
Proof.
  split; [reflexivity|]. split; [reflexivity|].
  destruct (append_keeps_earlier_views abc_heap abc_buffer (AUint64 1 true)
              eq_refl eq_refl) as (b' & h' & Hrun & Hview & Hstale).
  exists b', h'. split; [exact Hrun|]. split.
  - apply (Hview (Slice 0 0 3 6)). reflexivity.
  - apply Hstale; [vm_compute; reflexivity|reflexivity].
Defined.

Section MorePrepend.

Implicit Types (h : heap) (s p t : slice) (b : ResizableBuffer) (d : list byte).

Lemma prepend_bytes_alloc h x op :
  prepend_ok h op = true ->
  prepend_bytes (h ++ [x]) op = prepend_bytes h op.
Proof.
  intros Hok. destruct op; try reflexivity. simpl in *.
  apply load_alloc. exact Hok.
Qed.

(** The bytes a prepend has just written, as a slice of the new storage. *)
Lemma prepended_window h b d :
  inv h b = true ->
  exists p,
    slice_range (buffer (fst (prepended d b h))) 0 (Z.of_nat (length d))
      = Some p /\
    s_len p = length d /\
    load (snd (prepended d b h)) p = d.
Proof.
  intros Hi.
  pose proof (prepended_inv h b d Hi) as Hi'.
  pose proof Hi' as [Hv' Ho']%inv_spec.
  pose proof Hv' as [Hl' _]%valid_spec.
  pose proof Hi as [Hv Ho]%inv_spec.
  assert (offset (fst (prepended d b h)) = offset b + Z.of_nat (length d))
    as Hoff by reflexivity.
  rewrite Hoff in Ho'.
  eexists. split; [apply slice_range_ok; unfold len in *; lia|].
  split; [cbn [s_len]; lia|].
  erewrite load_slice_range;
    [|exact Hv'|apply slice_range_ok; unfold len in *; lia|lia].
  rewrite prepended_load by exact Hi.
  rewrite Z.sub_0_r, Nat2Z.id. change (Z.to_nat 0) with 0%nat.
  rewrite drop_0. apply take_app_length.
Qed.

Lemma to_signed_wrap w v :
  0 < w -> - 2 ^ (w - 1) <= v < 2 ^ (w - 1) ->
  0 <= wrap w v < 2 ^ w /\ to_signed w (wrap w v) = v.
Proof.
  intros Hw Hv. unfold to_signed, wrap.
  assert (2 ^ w = 2 * 2 ^ (w - 1)) as E.
  { replace w with (w - 1 + 1) at 1 by lia.
    rewrite Z.pow_add_r by lia. lia. }
  assert (0 < 2 ^ (w - 1)) as Hpos by (apply Z.pow_pos_nonneg; lia).
  split; [apply Z.mod_pos_bound; lia|].
  destruct (Z.lt_ge_cases v 0) as [Hneg|Hnn].
  - assert (v mod 2 ^ w = v + 2 ^ w) as ->
      by (symmetry; apply (Z.mod_unique v (2 ^ w) (-1)); lia).
    destruct (Z.ltb_spec (v + 2 ^ w) (2 ^ (w - 1))); lia.
  - rewrite Z.mod_small by lia.
    destruct (Z.ltb_spec v (2 ^ (w - 1))); lia.
Qed.

End MorePrepend.

(** X3. A prepend of [n] bytes that finds less than [n] bytes of spare tail
    capacity allocates one new array of size exactly [n + C], which holds
    the [n] new bytes followed by the whole old store (its unused tail
    included), and makes it the storage; no existing array changes.  This
    holds for every argument, overlapping or not. *)
Theorem prepend_reallocating (h : heap) (b : ResizableBuffer)
        (op : prepend_op) :
  inv h b = true -> prepend_ok h op = true ->
  let n := Z.of_nat (length (prepend_bytes h op)) in
  let C := len (buffer b) in
  C - offset b < n ->
  run_prepend op b h =
    Some ({| buffer := Slice (length h) 0 (Z.to_nat (n + C))
                             (Z.to_nat (n + C));
             offset := offset b + n |},
          h ++ [prepend_bytes h op ++ load h (buffer b)]).
Proof.
  intros Hi Hok n C Hgrow.
  pose proof (run_prepend_eq h b op Hi Hok) as Hrun. cbn zeta in Hrun.
  fold n in Hrun. rewrite Hrun. clear Hrun.
  assert (shifted n b h =
          ({| buffer := Slice (length h) 0 (Z.to_nat (n + C))
                              (Z.to_nat (n + C));
              offset := offset b |},
           h ++ [replicate (Z.to_nat n) 0 ++ load h (buffer b)])) as Hsh.
  { unfold shifted. fold C.
    destruct (Z.ltb_spec (C - offset b) n); [reflexivity|lia]. }
  rewrite Hsh. cbn [snd]. rewrite prepend_bytes_alloc by exact Hok.
  unfold prepended. fold n. rewrite Hsh.
  cbn [fst snd buffer s_arr s_base]. rewrite poke_alloc.
  do 4 f_equal. unfold splice. rewrite take_0. cbn [app Nat.add].
  f_equal. apply drop_app_length'.
  rewrite length_replicate. unfold n. lia.
Qed.

Lemma prepend_reallocating_witness :
  inv abc_heap abc_buffer = true /\
  prepend_ok abc_heap (PUint32 1 false) = true /\
  len (buffer abc_buffer) - offset abc_buffer < 4 /\
  run_prepend (PUint32 1 false) abc_buffer abc_heap =
    Some ({| buffer := Slice 1 0 10 10; offset := 7 |},
          [[97; 98; 99; 0; 0; 0]; [0; 0; 0; 1; 97; 98; 99; 0; 0; 0]]).
Proof.
  split; [reflexivity|]. split; [reflexivity|].
  split; [vm_compute; reflexivity|].
  apply (prepend_reallocating abc_heap abc_buffer (PUint32 1 false)
           eq_refl eq_refl).
  vm_compute. reflexivity.
Defined.

(** X4. A prepend never loses or alters the existing content, whatever its
    argument: it returns, it writes exactly [n] bytes [w] in front, the old
    logical content follows them unchanged, and [Len()] grows by [n].  [w]
    is the argument's bytes unless a PrependBytes argument overlaps the
    region the in-place shift overwrites. *)
Theorem prepend_keeps_old_content (h : heap) (b : ResizableBuffer)
        (op : prepend_op) :
  inv h b = true -> prepend_ok h op = true ->
  let n := length (prepend_bytes h op) in
  exists b' h' w,
    run_prepend op b h = Some (b', h') /\
    length w = n /\
    (prepend_clear b op = true -> w = prepend_bytes h op) /\
    content h' b' = w ++ content h b /\
    Len b' = Len b + Z.of_nat n.
Proof.
  intros Hi Hok n.
  pose proof (run_prepend_eq h b op Hi Hok) as Hrun. cbn zeta in Hrun.
  fold n in Hrun.
  pose proof (prepend_ok_shifted h b op (Z.of_nat n) Hi ltac:(lia) Hok)
    as Hok1.
  pose proof (prepend_bytes_length h _ op Hok Hok1) as Hlen. fold n in Hlen.
  set (w := prepend_bytes (snd (shifted (Z.of_nat n) b h)) op) in *.
  exists (fst (prepended w b h)), (snd (prepended w b h)), w.
  rewrite Hrun.
  split; [destruct (prepended w b h); reflexivity|].
  split; [exact Hlen|].
  split; [intros Hc; apply prepend_bytes_clear; assumption|].
  split; [apply prepended_content; exact Hi|].
  unfold prepended, Len. cbn [fst offset]. rewrite Hlen. reflexivity.
Qed.

Lemma prepend_keeps_old_content_witness :
  inv abc_heap abc_buffer = true /\
  prepend_ok abc_heap (PBytes abc_inner) = true /\
  exists b' h' w,
    run_prepend (PBytes abc_inner) abc_buffer abc_heap = Some (b', h') /\
    length w = 2%nat /\
    content h' b' = w ++ [97; 98; 99].
Proof.
  split; [reflexivity|]. split; [reflexivity|].
  destruct (prepend_keeps_old_content abc_heap abc_buffer (PBytes abc_inner)
              eq_refl eq_refl) as (b' & h' & w & Hrun & Hlen & _ & Hc & _).
  exists b', h', w. split; [exact Hrun|]. split; [exact Hlen|exact Hc].
Defined.

(** X5. Prepending an unsigned value of width 16, 32 or 64 bits with
    PrependUint16, PrependUint32 or PrependUint64 returns, and decoding the
    first 2, 4 or 8 bytes of the storage with encoding/binary's reader of
    the same byte order gives back the value. *)
Theorem uint_prepend_round_trip (h : heap) (b : ResizableBuffer) :
  inv h b = true ->
  (forall v le, 0 <= v < 2 ^ 16 ->
     exists b' h' p,
       PrependUint16 v le b h = Some (b', h') /\
       slice_range (buffer b') 0 2 = Some p /\
       (if le then LittleEndian_Uint16 p else BigEndian_Uint16 p) h'
         = Some (v, h')) /\
  (forall v le, 0 <= v < 2 ^ 32 ->
     exists b' h' p,
       PrependUint32 v le b h = Some (b', h') /\
       slice_range (buffer b') 0 4 = Some p /\
       (if le then LittleEndian_Uint32 p else BigEndian_Uint32 p) h'
         = Some (v, h')) /\
  (forall v le, 0 <= v < 2 ^ 64 ->
     exists b' h' p,
       PrependUint64 v le b h = Some (b', h') /\
       slice_range (buffer b') 0 8 = Some p /\
       (if le then LittleEndian_Uint64 p else BigEndian_Uint64 p) h'
         = Some (v, h')).
Proof.
  intros Hi. repeat split; intros v le Hv.
  - destruct (prepended_window h b (bytes16 le v) Hi) as (p & Hp & Hlen & Hload).
    exists (fst (prepended (bytes16 le v) b h)),
           (snd (prepended (bytes16 le v) b h)), p.
    rewrite PrependUint16_eq by exact Hi.
    split; [destruct (prepended _ b h); reflexivity|].
    replace (Z.of_nat (length (bytes16 le v))) with 2 in Hp
      by (destruct le; reflexivity).
    split; [exact Hp|].
    apply Uint16_of_bytes; [exact Hload| |exact Hv].
    rewrite Hlen. destruct le; reflexivity.
  - destruct (prepended_window h b (bytes32 le v) Hi) as (p & Hp & Hlen & Hload).
    exists (fst (prepended (bytes32 le v) b h)),
           (snd (prepended (bytes32 le v) b h)), p.
    rewrite PrependUint32_eq by exact Hi.
    split; [destruct (prepended _ b h); reflexivity|].
    replace (Z.of_nat (length (bytes32 le v))) with 4 in Hp
      by (destruct le; reflexivity).
    split; [exact Hp|].
    apply Uint32_of_bytes; [exact Hload| |exact Hv].
    rewrite Hlen. destruct le; reflexivity.
  - destruct (prepended_window h b (bytes64 le v) Hi) as (p & Hp & Hlen & Hload).
    exists (fst (prepended (bytes64 le v) b h)),
           (snd (prepended (bytes64 le v) b h)), p.
    rewrite PrependUint64_eq by exact Hi.
    split; [destruct (prepended _ b h); reflexivity|].
    replace (Z.of_nat (length (bytes64 le v))) with 8 in Hp
      by (destruct le; reflexivity).
    split; [exact Hp|].
    apply Uint64_of_bytes; [exact Hload| |exact Hv].
    rewrite Hlen. destruct le; reflexivity.
Qed.

Lemma uint_prepend_round_trip_witness :
  inv abc_heap abc_buffer = true /\
  0 <= 258 < 2 ^ 16 /\
  exists b' h' p,
    PrependUint16 258 false abc_buffer abc_heap = Some (b', h') /\
    slice_range (buffer b') 0 2 = Some p /\
    BigEndian_Uint16 p h' = Some (258, h').
Proof.
  split; [reflexivity|]. split; [lia|].
  destruct (uint_prepend_round_trip abc_heap abc_buffer eq_refl)
    as (H16 & _ & _).
  exact (H16 258 false ltac:(lia)).
Defined.

(** X6. A signed value survives the trip through Int16, Int32 or Int64:
    the method returns, the bytes at the old cursor decode (same byte
    order) to the unsigned number with the same two's-complement bit
    pattern, and converting that back to the signed type gives the value
    that was written, negative values included. *)
Theorem int_append_round_trip (h : heap) (b : ResizableBuffer) :
  inv h b = true ->
  (forall v le, - 2 ^ 15 <= v < 2 ^ 15 ->
     exists b' h' p u,
       Int16 v le b h = Some (b', h') /\
       slice_range (buffer b') (offset b) (offset b + 2) = Some p /\
       (if le then LittleEndian_Uint16 p else BigEndian_Uint16 p) h'
         = Some (u, h') /\
       to_signed 16 u = v) /\
  (forall v le, - 2 ^ 31 <= v < 2 ^ 31 ->
     exists b' h' p u,
       Int32 v le b h = Some (b', h') /\
       slice_range (buffer b') (offset b) (offset b + 4) = Some p /\
       (if le then LittleEndian_Uint32 p else BigEndian_Uint32 p) h'
         = Some (u, h') /\
       to_signed 32 u = v) /\
  (forall v le, - 2 ^ 63 <= v < 2 ^ 63 ->
     exists b' h' p u,
       Int64 v le b h = Some (b', h') /\
       slice_range (buffer b') (offset b) (offset b + 8) = Some p /\
       (if le then LittleEndian_Uint64 p else BigEndian_Uint64 p) h'
         = Some (u, h') /\
       to_signed 64 u = v).
Proof.
  intros Hi. repeat split; intros v le Hv.
  - destruct (to_signed_wrap 16 v ltac:(lia) Hv) as [Hu Hs].
    set (u := wrap 16 v) in *.
    destruct (appended_window h b (bytes16 le u) Hi) as (p & Hp & Hlen & Hload).
    exists (fst (appended (bytes16 le u) b h)),
           (snd (appended (bytes16 le u) b h)), p, u.
    unfold Int16. fold u. rewrite Uint16_eq by exact Hi.
    split; [destruct (appended _ b h); reflexivity|].
    replace (Z.of_nat (length (bytes16 le u))) with 2 in Hp
      by (destruct le; reflexivity).
    split; [exact Hp|]. split; [|exact Hs].
    apply Uint16_of_bytes; [exact Hload| |exact Hu].
    rewrite Hlen. destruct le; reflexivity.
  - destruct (to_signed_wrap 32 v ltac:(lia) Hv) as [Hu Hs].
    set (u := wrap 32 v) in *.
    destruct (appended_window h b (bytes32 le u) Hi) as (p & Hp & Hlen & Hload).
    exists (fst (appended (bytes32 le u) b h)),
           (snd (appended (bytes32 le u) b h)), p, u.
    unfold Int32. fold u. rewrite Uint32_eq by exact Hi.
    split; [destruct (appended _ b h); reflexivity|].
    replace (Z.of_nat (length (bytes32 le u))) with 4 in Hp
      by (destruct le; reflexivity).
    split; [exact Hp|]. split; [|exact Hs].
    apply Uint32_of_bytes; [exact Hload| |exact Hu].
    rewrite Hlen. destruct le; reflexivity.
  - destruct (to_signed_wrap 64 v ltac:(lia) Hv) as [Hu Hs].
    set (u := wrap 64 v) in *.
    destruct (appended_window h b (bytes64 le u) Hi) as (p & Hp & Hlen & Hload).
    exists (fst (appended (bytes64 le u) b h)),
           (snd (appended (bytes64 le u) b h)), p, u.
    unfold Int64. fold u. rewrite Uint64_eq by exact Hi.
    split; [destruct (appended _ b h); reflexivity|].
    replace (Z.of_nat (length (bytes64 le u))) with 8 in Hp
      by (destruct le; reflexivity).
    split; [exact Hp|]. split; [|exact Hs].
    apply Uint64_of_bytes; [exact Hload| |exact Hu].
    rewrite Hlen. destruct le; reflexivity.
Qed.

Lemma int_append_round_trip_witness :
  inv abc_heap abc_buffer = true /\
  - 2 ^ 15 <= -1234 < 2 ^ 15 /\
  exists b' h' p u,
    Int16 (-1234) true abc_buffer abc_heap = Some (b', h') /\
    slice_range (buffer b') 3 5 = Some p /\
    LittleEndian_Uint16 p h' = Some (u, h') /\
    to_signed 16 u = -1234.
Proof.
  split; [reflexivity|]. split; [lia|].
  destruct (int_append_round_trip abc_heap abc_buffer eq_refl)
    as (H16 & _ & _).
  exact (H16 (-1234) true ltac:(lia)).
Defined.

Section SubBuffers.

Implicit Types (h : heap) (s p t : slice) (b : ResizableBuffer) (d : list byte).

(** An append that fits the spare capacity writes in place. *)
Lemma append_in_place h b op :
  inv h b = true -> append_ok h op = true ->
  Z.of_nat (length (append_bytes h op)) <= len (buffer b) - offset b ->
  run_append op b h =
    Some ({| buffer := buffer b;
             offset := offset b + Z.of_nat (length (append_bytes h op)) |},
          poke (s_arr (buffer b)) (s_base (buffer b) + Z.to_nat (offset b))
               (append_bytes h op) h).
Proof.
  intros Hi Hok Hfit. rewrite (run_append_eq h b op Hi Hok).
  unfold appended.
  destruct (grown_cases h b (Z.of_nat (length (append_bytes h op))))
    as [Hsame _].
  rewrite Hsame by exact Hfit. reflexivity.
Qed.


Lemma window_inv h b c L :
  valid h (buffer b) = true -> 0 <= c -> 0 <= L ->
  c + L <= len (buffer b) ->
  inv h {| buffer := Slice (s_arr (buffer b))
                           (s_base (buffer b) + Z.to_nat c) (Z.to_nat L)
                           (s_cap (buffer b) - Z.to_nat c);
           offset := 0 |} = true.
Proof.
  intros Hv Hc HL Hfit. apply inv_spec; cbn [buffer offset].
  split; [|unfold len; cbn [s_len]; lia].
  apply valid_spec in Hv as [Hl Hcap]. apply valid_spec.
  cbn [s_len s_cap s_arr s_base]. unfold len in *.
  split; [lia|]. destruct Hcap as [H0|Hcap]; [left; lia|right; lia].
Qed.

Lemma effective_length_nonneg b L :
  0 <= offset b <= len (buffer b) ->
  0 <= (if L <? 0 then len (buffer b) - offset b else L).
Proof. intros Ho. destruct (Z.ltb_spec L 0); lia. Qed.

End SubBuffers.

(** X7. A sub-buffer is a live view of the parent's storage: an append
    through the sub-buffer that fits its window does not reallocate and
    stores its bytes in the parent's backing array at the parent's old
    cursor, so the parent's content up to there is its old content followed
    by the bytes written through the view. *)
Theorem sub_buffer_write_through (h : heap) (b : ResizableBuffer) (L : Z) :
  inv h b = true ->
  let cursor := Z.to_nat (offset b) in
  exists sub parent h1,
    SubBuffer L b h = Some ((sub, parent), h1) /\
    forall op,
      append_ok h1 op = true ->
      Z.of_nat (length (append_bytes h1 op)) <= len (buffer sub) ->
      exists sub' h2,
        run_append op sub h1 = Some (sub', h2) /\
        buffer sub' = buffer sub /\
        length h2 = length h1 /\
        load h2 (buffer parent)
          = splice (load h1 (buffer parent)) cursor (append_bytes h1 op) /\
        take (cursor + length (append_bytes h1 op)) (load h2 (buffer parent))
          = content h b ++ append_bytes h1 op.
Proof.
  intros Hi cursor. pose proof Hi as [Hv Ho]%inv_spec.
  pose proof (SubBuffer_eq h b L Hi) as Heq. cbn zeta in Heq.
  set (L' := if L <? 0 then len (buffer b) - offset b else L) in *.
  pose proof (effective_length_nonneg b L Ho) as HL'. fold L' in HL'.
  pose proof (grown_inv h b L' Hi) as [Hv1 Hb1]%inv_spec.
  pose proof (grown_room h b L' Hi) as Hroom.
  pose proof (grown_load h b L' Hi) as Hload1.
  set (b1 := fst (grown L' b h)) in *. set (h1 := snd (grown L' b h)) in *.
  do 3 eexists. split; [exact Heq|].
  intros op Hok Hfit. unfold len in Hfit; cbn [buffer s_len] in Hfit.
  pose proof (window_inv h1 b1 (offset b) L' Hv1 ltac:(lia) HL' ltac:(lia))
    as Hsub.
  set (d := append_bytes h1 op) in *.
  do 2 eexists.
  split; [apply (append_in_place h1 _ op Hsub Hok);
          unfold len; cbn [buffer offset s_len]; fold d; lia|].
  cbn [buffer offset s_arr s_base]. fold d.
  split; [reflexivity|]. split; [apply length_poke|].
  change (Z.to_nat 0) with 0%nat. rewrite Nat.add_0_r.
  assert (load (poke (s_arr (buffer b1)) (s_base (buffer b1) + cursor) d h1)
               (buffer b1)
          = splice (load h1 (buffer b1)) cursor d) as Hsp.
  { apply load_poke_in; [exact Hv1|]. unfold cursor, len in *. lia. }
  split; [exact Hsp|].
  match goal with
  | |- take ?k _ = _ =>
      transitivity (take k (splice (load h1 (buffer b1)) cursor d));
        [f_equal; exact Hsp|]
  end.
  rewrite take_splice_through
    by (rewrite length_load by exact Hv1; unfold cursor, len in *; lia).
  f_equal. unfold content. fold cursor. rewrite Hload1.
  apply take_app_le. rewrite length_load by exact Hv.
  unfold cursor, len in *. lia.
Qed.

Lemma sub_buffer_write_through_witness :
  inv abc_heap abc_buffer = true /\
  exists sub parent h1 sub' h2,
    SubBuffer 3 abc_buffer abc_heap = Some ((sub, parent), h1) /\
    run_append (ACopyString "BCD") sub h1 = Some (sub', h2) /\
    load h2 (buffer parent) = [97; 98; 99; 66; 67; 68].
Proof.
  split; [reflexivity|].
  destruct (sub_buffer_write_through abc_heap abc_buffer 3 eq_refl)
    as (sub & parent & h1 & Hsub & Hw).
  vm_compute in Hsub. injection Hsub as <- <- <-.
  destruct (Hw (ACopyString "BCD") eq_refl ltac:(vm_compute; discriminate))
    as (sub' & h2 & Hrun & _ & _ & Hload & _).
  do 5 eexists. split; [reflexivity|]. split; [exact Hrun|exact Hload].
Defined.



Section Windows.

Implicit Types (h : heap) (s p t : slice) (b : ResizableBuffer) (d : list byte).

Lemma append_in_window_apart h b op s :
  inv h b = true -> append_ok h op = true ->
  Z.of_nat (length (append_bytes h op)) <= len (buffer b) - offset b ->
  apart (buffer b) s = true ->
  exists b' h', run_append op b h = Some (b', h') /\ load h' s = load h s.
Proof.
  intros Hi Hok Hfit Ha. pose proof Hi as [Hv Ho]%inv_spec.
  do 2 eexists. split; [apply (append_in_place h b op Hi Hok Hfit)|].
  apply load_poke_window; [exact Hv| |exact Ha]. unfold len in *. lia.
Qed.

Lemma append_bytes_length h h' op :
  append_ok h op = true -> append_ok h' op = true ->
  length (append_bytes h' op) = length (append_bytes h op).
Proof.
  intros H1 H2. destruct op; try reflexivity. simpl in *.
  rewrite !length_load by assumption. reflexivity.
Qed.

End Windows.

(** X9. Two sub-buffers taken one after the other never overlap: an
    append through either of them that fits its window leaves every byte
    of the other one unchanged, whether or not taking the second one made
    the parent reallocate. *)
Theorem sub_buffers_do_not_overlap (h : heap) (b : ResizableBuffer)
        (L1 L2 : Z) :
  inv h b = true ->
  exists s1 b1 h1 s2 b2 h2,
    SubBuffer L1 b h = Some ((s1, b1), h1) /\
    SubBuffer L2 b1 h1 = Some ((s2, b2), h2) /\
    (forall op,
       append_ok h2 op = true ->
       Z.of_nat (length (append_bytes h2 op)) <= len (buffer s1) ->
       exists s1' h3,
         run_append op s1 h2 = Some (s1', h3) /\
         load h3 (buffer s2) = load h2 (buffer s2)) /\
    (forall op,
       append_ok h2 op = true ->
       Z.of_nat (length (append_bytes h2 op)) <= len (buffer s2) ->
       exists s2' h3,
         run_append op s2 h2 = Some (s2', h3) /\
         load h3 (buffer s1) = load h2 (buffer s1)).
Proof.
  intros Hi. pose proof Hi as [Hv Ho]%inv_spec.
  pose proof (SubBuffer_eq h b L1 Hi) as Heq1. cbn zeta in Heq1.
  set (L1' := if L1 <? 0 then len (buffer b) - offset b else L1) in *.
  pose proof (effective_length_nonneg b L1 Ho) as HL1. fold L1' in HL1.
  pose proof (grown_inv h b L1' Hi) as [Hv1 Hb1]%inv_spec.
  pose proof (grown_room h b L1' Hi) as Hroom1.
  set (g1 := fst (grown L1' b h)) in *. set (h1 := snd (grown L1' b h)) in *.
  pose proof (window_inv h1 g1 (offset b) L1' Hv1 ltac:(lia) HL1 ltac:(lia))
    as Hs1.
  match type of Hs1 with inv _ ?x = true => set (s1 := x) in * end.
  set (b1 := {| buffer := buffer g1; offset := offset b + L1' |}) in *.
  assert (inv h1 b1 = true) as Hib1
    by (apply inv_spec; split; [exact Hv1|cbn [b1 buffer offset]; lia]).
  pose proof Hib1 as [_ Hob1]%inv_spec.
  pose proof (SubBuffer_eq h1 b1 L2 Hib1) as Heq2. cbn zeta in Heq2.
  set (L2' := if L2 <? 0 then len (buffer b1) - offset b1 else L2) in *.
  pose proof (effective_length_nonneg b1 L2 Hob1) as HL2. fold L2' in HL2.
  pose proof (grown_inv h1 b1 L2' Hib1) as [Hv2 Hb2]%inv_spec.
  pose proof (grown_room h1 b1 L2' Hib1) as Hroom2.
  destruct (grown_cases h1 b1 L2') as [Hsame Hgrow].
  set (g2 := fst (grown L2' b1 h1)) in *.
  set (h2 := snd (grown L2' b1 h1)) in *.
  pose proof (window_inv h2 g2 (offset b1) L2' Hv2 ltac:(lia) HL2 ltac:(lia))
    as Hs2.
  match type of Hs2 with inv _ ?x = true => set (s2 := x) in * end.
  assert (inv h2 s1 = true) as Hs1'.
  { apply (inv_frame h1 h2); [|exact Hs1].
    intros s Hs. apply (grown_frame h1 b1 L2' s Hs). }
  assert (apart (buffer s1) (buffer s2) = true /\
          apart (buffer s2) (buffer s1) = true) as [Ha12 Ha21].
  { unfold apart. cbn [s1 s2 buffer s_arr s_base s_len].
    destruct (Nat.eqb_spec (Z.to_nat L1') 0) as [Hz|Hnz];
      [rewrite !orb_true_r; split; reflexivity|].
    destruct (Z.le_gt_cases L2' (len (buffer b1) - offset b1)) as [Hle|Hgt].
    - assert (g2 = b1) as -> by (unfold g2; rewrite Hsame by exact Hle; reflexivity).
      cbn [b1 buffer offset].
      assert ((s_base (buffer g1) + Z.to_nat (offset b) + Z.to_nat L1'
               <=? s_base (buffer g1) + Z.to_nat (offset b + L1'))%nat = true)
        as E by (apply Nat.leb_le; lia).
      rewrite E, !orb_true_r. split; reflexivity.
    - assert (s_arr (buffer g2) = length h1) as Earr
        by (unfold g2; rewrite Hgrow by exact Hgt; reflexivity).
      assert (s_arr (buffer g1) < length h1)%nat as Hlt.
      { apply valid_arr_lt; [exact Hv1|].
        apply valid_spec in Hv1. unfold len in *. lia. }
      rewrite Earr.
      destruct (Nat.eqb_spec (length h1) (s_arr (buffer g1))); [lia|].
      destruct (Nat.eqb_spec (s_arr (buffer g1)) (length h1)); [lia|].
      cbn [negb]. rewrite !orb_true_r. split; reflexivity. }
  exists s1, b1, h1, s2. do 2 eexists.
  split; [exact Heq1|]. split; [exact Heq2|]. split.
  - intros op Hok Hfit.
    apply (append_in_window_apart h2 s1 op (buffer s2) Hs1' Hok);
      [cbn [s1 offset]; lia|exact Ha12].
  - intros op Hok Hfit.
    apply (append_in_window_apart h2 s2 op (buffer s1) Hs2 Hok);
      [cbn [s2 offset]; lia|exact Ha21].
Qed.

Lemma sub_buffers_do_not_overlap_witness :
  inv abc_heap abc_buffer = true /\
  exists s1 b1 h1 s2 b2 h2 s1' h3,
    SubBuffer 2 abc_buffer abc_heap = Some ((s1, b1), h1) /\
    SubBuffer 4 b1 h1 = Some ((s2, b2), h2) /\
    run_append (ACopyString "XY") s1 h2 = Some (s1', h3) /\
    load h3 (buffer s2) = load h2 (buffer s2).
Proof.
  split; [reflexivity|].
  destruct (sub_buffers_do_not_overlap abc_heap abc_buffer 2 4 eq_refl)
    as (s1 & b1 & h1 & s2 & b2 & h2 & H1 & H2 & Hw & _).
  vm_compute in H1. injection H1 as <- <- <-.
  vm_compute in H2. injection H2 as <- <- <-.
  destruct (Hw (ACopyString "XY") eq_refl ltac:(vm_compute; discriminate))
    as (s1' & h3 & Hrun & Hload).
  do 8 eexists. split; [reflexivity|]. split; [reflexivity|].
  split; [exact Hrun|exact Hload].
Defined.

(** X10. Reset makes the storage reusable: after [Reset], with or without
    zeroing, an append that fits the capacity [C] does not reallocate (same
    slice, no array added to the heap), and the logical content is then
    exactly the bytes appended. *)
Theorem reset_then_append_reuses_storage (h : heap) (b : ResizableBuffer)
        (zeroOut : bool) (op : append_op) :
  inv h b = true -> append_ok h op = true ->
  Z.of_nat (length (append_bytes h op)) <= len (buffer b) ->
  exists b1 h1 b2 h2 cs,
    Reset zeroOut b h = Some (b1, h1) /\
    run_append op b1 h1 = Some (b2, h2) /\
    buffer b2 = buffer b /\
    length h2 = length h /\
    Bytes b2 h2 = Some (cs, h2) /\
    load h2 cs = append_bytes h1 op /\
    Len b2 = Z.of_nat (length (append_bytes h1 op)).
Proof.
  intros Hi Hok Hfit. pose proof Hi as [Hv Ho]%inv_spec.
  pose proof (Reset_eq h b zeroOut Hi) as Hr.
  set (h1 := if zeroOut
             then poke (s_arr (buffer b)) (s_base (buffer b))
                       (replicate (Z.to_nat (offset b)) 0) h
             else h) in *.
  assert (forall s, valid h1 s = valid h s) as Hval.
  { intros s. unfold h1. destruct zeroOut; [|reflexivity].
    rewrite <- (Nat.add_0_r (s_base _)).
    apply valid_poke_in; [exact Hv|].
    rewrite length_replicate. unfold len in *. lia. }
  assert (length h1 = length h) as Hlen1
    by (unfold h1; destruct zeroOut; [apply length_poke|reflexivity]).
  set (b1 := {| buffer := buffer b; offset := 0 |}) in *.
  assert (inv h1 b1 = true) as Hi1.
  { apply inv_spec. cbn [b1 buffer offset].
    split; [rewrite Hval; exact Hv|lia]. }
  assert (append_ok h1 op = true) as Hok1
    by (destruct op; try reflexivity; simpl in *; rewrite Hval; exact Hok).
  pose proof (append_bytes_length h h1 op Hok Hok1) as Hbl.
  pose proof (append_in_place h1 b1 op Hi1 Hok1
                ltac:(cbn [b1 buffer offset]; rewrite Hbl; lia)) as Hrun.
  pose proof (appended_inv h1 b1 (append_bytes h1 op) Hi1) as Hi2.
  pose proof (appended_content h1 b1 (append_bytes h1 op) Hi1) as Hc2.
  destruct (Bytes_content _ _ Hi2) as (cs & Hby & _ & Hcs).
  pose proof (run_append_eq h1 b1 op Hi1 Hok1) as Hrun'.
  rewrite Hrun in Hrun'. apply (inj Some) in Hrun'.
  rewrite <- Hrun' in Hby, Hcs, Hc2. cbn [fst snd] in Hby, Hcs, Hc2.
  do 5 eexists. split; [exact Hr|]. split; [exact Hrun|].
  split; [reflexivity|]. split; [rewrite length_poke; exact Hlen1|].
  split; [exact Hby|]. split; [|reflexivity].
  rewrite Hcs, Hc2. unfold content. cbn [b1 offset].
  change (Z.to_nat 0) with 0%nat. rewrite take_0. reflexivity.
Qed.

Lemma reset_then_append_reuses_storage_witness :
  inv abc_heap abc_buffer = true /\
  append_ok abc_heap (ACopyString "hello") = true /\
  5 <= len (buffer abc_buffer) /\
  exists b1 h1 b2 h2,
    Reset true abc_buffer abc_heap = Some (b1, h1) /\
    run_append (ACopyString "hello") b1 h1 = Some (b2, h2) /\
    buffer b2 = Slice 0 0 6 6 /\
    length h2 = 1%nat.
Proof.
  split; [reflexivity|]. split; [reflexivity|].
  split; [vm_compute; discriminate|].
  destruct (reset_then_append_reuses_storage abc_heap abc_buffer true
              (ACopyString "hello") eq_refl eq_refl
              ltac:(vm_compute; discriminate))
    as (b1 & h1 & b2 & h2 & cs & Hr & Hrun & Hb & Hl & _).
  exists b1, h1, b2, h2. repeat split; assumption.
Defined.



Section Footprint.

Implicit Types (h : heap) (s p t : slice) (b : ResizableBuffer) (d : list byte).

Lemma heap_ext_refl h : heap_ext h h.
Proof. split; [lia|reflexivity]. Qed.

Lemma heap_ext_trans h1 h2 h3 :
  heap_ext h1 h2 -> heap_ext h2 h3 -> heap_ext h1 h3.
Proof.
  intros [L12 A12] [L23 A23]. split; [lia|].
  intros a Ha. rewrite A23 by lia. apply A12. exact Ha.
Qed.

Lemma heap_ext_alloc h x : heap_ext h (h ++ [x]).
Proof.
  split; [rewrite length_app; simpl; lia|].
  intros a Ha. rewrite array_at_alloc_old by exact Ha. reflexivity.
Qed.

Lemma heap_ext_poke_in h t o d :
  valid h t = true -> (o + length d <= s_len t)%nat ->
  heap_ext h (poke (s_arr t) (s_base t + o) d h).
Proof.
  intros Hv Hd. destruct d as [|x d'];
    [rewrite poke_nil; apply heap_ext_refl|].
  split; [rewrite length_poke; lia|].
  intros a _. apply length_array_at_poke.
  apply valid_spec in Hv as [Hl [H0|Hb]]; simpl in *; lia.
Qed.

Lemma grown_ext h b n : heap_ext h (snd (grown n b h)).
Proof.
  unfold grown. destruct (_ <? _); cbn [snd];
    [apply heap_ext_alloc|apply heap_ext_refl].
Qed.

Lemma grown_len h b n :
  inv h b = true -> len (buffer b) <= len (buffer (fst (grown n b h))).
Proof.
  intros [_ Ho]%inv_spec. unfold grown.
  destruct (Z.ltb_spec (len (buffer b) - offset b) n);
    unfold len in *; simpl; lia.
Qed.

Lemma shifted_ext h b n :
  inv h b = true -> 0 <= n -> heap_ext h (snd (shifted n b h)).
Proof.
  intros Hi Hn. pose proof Hi as [Hv Ho]%inv_spec. unfold shifted.
  destruct (Z.ltb_spec (len (buffer b) - offset b) n); cbn [snd];
    [apply heap_ext_alloc|].
  apply heap_ext_poke_in; [exact Hv|].
  rewrite length_take, length_load by exact Hv. unfold len in *. lia.
Qed.

Lemma shifted_len h b n :
  inv h b = true -> 0 <= n ->
  len (buffer b) <= len (buffer (fst (shifted n b h))).
Proof.
  intros [_ Ho]%inv_spec Hn. unfold shifted.
  destruct (Z.ltb_spec (len (buffer b) - offset b) n);
    unfold len in *; simpl; lia.
Qed.

Lemma shifted_apart h b n s :
  inv h b = true -> 0 <= n -> valid h s = true ->
  apart (buffer b) s = true ->
  load (snd (shifted n b h)) s = load h s /\
  apart (buffer (fst (shifted n b h))) s = true.
Proof.
  intros Hi Hn Hs Ha. pose proof Hi as [Hv Ho]%inv_spec. unfold shifted.
  destruct (Z.ltb_spec (len (buffer b) - offset b) n); cbn [fst snd buffer].
  - split; [apply load_alloc; exact Hs|apply apart_fresh; exact Hs].
  - split; [|exact Ha].
    apply load_poke_window; [exact Hv| |exact Ha].
    rewrite length_take, length_load by exact Hv. unfold len in *. lia.
Qed.

Lemma prepended_apart h b d s :
  inv h b = true -> valid h s = true -> apart (buffer b) s = true ->
  load (snd (prepended d b h)) s = load h s.
Proof.
  intros Hi Hs Ha. unfold prepended. cbn [snd].
  destruct (shifted_buffer_valid h b (Z.of_nat (length d)) Hi ltac:(lia))
    as [Hv1 Hl1].
  destruct (shifted_apart h b (Z.of_nat (length d)) s Hi ltac:(lia) Hs Ha)
    as [Hload Ha1].
  rewrite <- (Nat.add_0_r (s_base _)).
  rewrite load_poke_window;
    [exact Hload|exact Hv1|unfold len in *; lia|exact Ha1].
Qed.

Lemma prepended_ext h b d :
  inv h b = true -> heap_ext h (snd (prepended d b h)).
Proof.
  intros Hi. unfold prepended. cbn [snd].
  destruct (shifted_buffer_valid h b (Z.of_nat (length d)) Hi ltac:(lia))
    as [Hv1 Hl1].
  eapply heap_ext_trans;
    [apply (shifted_ext h b (Z.of_nat (length d)) Hi); lia|].
  rewrite <- (Nat.add_0_r (s_base _)).
  apply heap_ext_poke_in; [exact Hv1|unfold len in *; lia].
Qed.

Lemma appended_ext h b d :
  inv h b = true -> heap_ext h (snd (appended d b h)).
Proof.
  intros Hi. unfold appended. cbn [snd].
  pose proof (grown_inv h b (Z.of_nat (length d)) Hi) as [Hv1 Hb1]%inv_spec.
  pose proof (grown_room h b (Z.of_nat (length d)) Hi) as Hr.
  pose proof Hi as [_ Ho]%inv_spec.
  eapply heap_ext_trans; [apply grown_ext|].
  apply heap_ext_poke_in; [exact Hv1|unfold len in *; lia].
Qed.

Lemma step_footprint h b c :
  inv h b = true -> call_ok h c ->
  exists b' sub h',
    step c b h = Some ((b', sub), h') /\
    len (buffer b) <= len (buffer b') /\
    (is_reset c = false -> offset b <= offset b') /\
    (is_reset c = true -> offset b' = 0) /\
    heap_ext h h' /\
    (forall s, valid h s = true -> apart (buffer b) s = true ->
               load h' s = load h s).
Proof.
  intros Hi Hok. pose proof Hi as [Hv Ho]%inv_spec.
  destruct c as [op|op|z|r m|L| |]; simpl in Hok; unfold step, is_reset.
  - rewrite (bind_eq2 _ _ _ _ (run_append_eq h b op Hi Hok)).
    do 3 eexists. split; [reflexivity|].
    split; [apply grown_len; exact Hi|].
    split; [intros _; unfold appended; cbn [fst offset]; lia|].
    split; [discriminate|].
    split; [apply appended_ext; exact Hi|].
    intros s. apply appended_apart. exact Hi.
  - rewrite (bind_eq2 _ _ _ _ (run_prepend_eq h b op Hi Hok)).
    do 3 eexists. split; [reflexivity|].
    split; [apply shifted_len; [exact Hi|lia]|].
    split; [intros _; unfold prepended; cbn [fst offset]; lia|].
    split; [discriminate|].
    split; [apply prepended_ext; exact Hi|].
    intros s. apply prepended_apart. exact Hi.
  - rewrite (bind_eq2 _ _ _ _ (Reset_eq h b z Hi)). cbn [fst snd].
    do 3 eexists. split; [reflexivity|]. cbn [buffer offset].
    split; [lia|]. split; [discriminate|]. split; [reflexivity|].
    destruct z.
    + split.
      * rewrite <- (Nat.add_0_r (s_base _)).
        apply heap_ext_poke_in; [exact Hv|].
        rewrite length_replicate. unfold len in *. lia.
      * intros s Hs Ha. rewrite <- (Nat.add_0_r (s_base _)).
        apply load_poke_window; [exact Hv| |exact Ha].
        rewrite length_replicate. unfold len in *. lia.
    + split; [apply heap_ext_refl|reflexivity].
  - pose proof (ReadInto_eq h b r m Hi) as Heq. cbn zeta in Heq.
    pose proof (grown_inv h b m Hi) as [Hv1 Hb1]%inv_spec.
    pose proof (grown_room h b m Hi) as Hroom.
    set (bound := if 0 <? m then m else len (buffer b) - offset b) in *.
    assert (0 <= bound <= len (buffer (fst (grown m b h))) - offset b)
      as Hbound.
    { unfold bound. destruct (Z.ltb_spec 0 m) as [Hm|Hm]; [lia|].
      destruct (grown_cases h b m) as [Hsame _].
      rewrite Hsame by lia. cbn [fst]. lia. }
    match type of Heq with
    | (length (fst (Read r ?q)) <= _)%nat -> _ => set (p := q) in *
    end.
    assert (length (fst (Read r p)) <= Z.to_nat bound)%nat as Hd
      by exact (Hok p).
    specialize (Heq Hd).
    rewrite (bind_eq2 _ _ _ _ Heq). cbn [fst snd].
    do 3 eexists. split; [reflexivity|]. cbn [buffer offset].
    split; [apply grown_len; exact Hi|].
    split; [intros _; lia|]. split; [discriminate|]. split.
    + eapply heap_ext_trans; [apply grown_ext|].
      apply heap_ext_poke_in; [exact Hv1|unfold len in *; lia].
    + intros s Hs Ha.
      rewrite load_poke_window;
        [apply load_grown; exact Hs|exact Hv1|unfold len in *; lia|].
      apply grown_apart; assumption.
  - pose proof (SubBuffer_eq h b L Hi) as Heq. cbn zeta in Heq.
    pose proof (effective_length_nonneg b L Ho) as HL'.
    rewrite (bind_eq2 _ _ _ _ Heq). cbn [fst snd].
    do 3 eexists. split; [reflexivity|]. cbn [buffer offset].
    split; [apply grown_len; exact Hi|].
    split; [intros _; lia|]. split; [discriminate|].
    split; [apply grown_ext|].
    intros s Hs _. apply load_grown. exact Hs.
  - destruct (Bytes_content h b Hi) as (cs & Hb & _).
    rewrite (bind_eq _ _ _ _ _ Hb).
    do 3 eexists. split; [reflexivity|]. split; [lia|].
    split; [intros _; lia|]. split; [discriminate|].
    split; [apply heap_ext_refl|reflexivity].
  - do 3 eexists. split; [reflexivity|]. split; [lia|].
    split; [intros _; lia|]. split; [discriminate|].
    split; [apply heap_ext_refl|reflexivity].
Qed.

End Footprint.

(** X12. No method ever gives capacity back or moves the cursor backwards,
    except Reset, which sets the cursor to 0: after any call the length of
    the storage is at least what it was and, unless the call is Reset, so
    is the cursor.  Nor is any backing array ever freed or resized: every
    array of the heap is still there with its length. *)
Theorem capacity_and_cursor_never_shrink (h : heap) (b : ResizableBuffer)
        (c : call) :
  inv h b = true -> call_ok h c ->
  exists b' sub h',
    step c b h = Some ((b', sub), h') /\
    len (buffer b) <= len (buffer b') /\
    (is_reset c = false -> Len b <= Len b') /\
    (is_reset c = true -> Len b' = 0) /\
    (length h <= length h')%nat /\
    (forall a, (a < length h)%nat ->
               length (array_at h' a) = length (array_at h a)).
Proof.
  intros Hi Hok.
  destruct (step_footprint h b c Hi Hok)
    as (b' & sub & h' & Hs & Hlen & Hoff & Hres & [Hext1 Hext2] & _).
  exists b', sub, h'. repeat split; assumption.
Qed.

Lemma capacity_and_cursor_never_shrink_witness :
  inv abc_heap abc_buffer = true /\
  call_ok abc_heap (CPrepend (PUint64 7 true)) /\
  exists b' sub h',
    step (CPrepend (PUint64 7 true)) abc_buffer abc_heap
      = Some ((b', sub), h') /\
    6 <= len (buffer b') /\ 3 <= Len b'.
Proof.
  split; [reflexivity|]. split; [reflexivity|].
  destruct (capacity_and_cursor_never_shrink abc_heap abc_buffer
              (CPrepend (PUint64 7 true)) eq_refl eq_refl)
    as (b' & sub & h' & Hs & Hlen & Hoff & _).
  exists b', sub, h'. split; [exact Hs|].
  split; [exact Hlen|exact (Hoff eq_refl)].
Defined.

(** X14. A method writes only inside its receiver's storage window or into
    an array it has just allocated: every slice of the heap that shares no
    element with [storage[0:C]] of the receiver holds the same bytes after
    the call as before it.  (A sub-buffer lies inside its parent's window,
    so it is not such a slice.) *)
Theorem writes_stay_in_own_storage (h : heap) (b : ResizableBuffer)
        (c : call) :
  inv h b = true -> call_ok h c ->
  exists b' sub h',
    step c b h = Some ((b', sub), h') /\
    forall s, valid h s = true -> apart (buffer b) s = true ->
              load h' s = load h s.
Proof.
  intros Hi Hok.
  destruct (step_footprint h b c Hi Hok)
    as (b' & sub & h' & Hs & _ & _ & _ & _ & Hfr).
  exists b', sub, h'. split; assumption.
Qed.

Lemma writes_stay_in_own_storage_witness :
  inv [[1; 2; 3]; [9; 9; 0; 0]] {| buffer := Slice 1 0 4 4; offset := 2 |}
    = true /\
  call_ok [[1; 2; 3]; [9; 9; 0; 0]] (CReset true) /\
  exists b' sub h',
    step (CReset true) {| buffer := Slice 1 0 4 4; offset := 2 |}
         [[1; 2; 3]; [9; 9; 0; 0]] = Some ((b', sub), h') /\
    load h' (Slice 0 0 3 3) = [1; 2; 3].
Proof.
  split; [reflexivity|]. split; [exact I|].
  destruct (writes_stay_in_own_storage [[1; 2; 3]; [9; 9; 0; 0]]
              {| buffer := Slice 1 0 4 4; offset := 2 |} (CReset true)
              eq_refl I) as (b' & sub & h' & Hs & Hfr).
  exists b', sub, h'. split; [exact Hs|].
  apply (Hfr (Slice 0 0 3 3)); reflexivity.
Defined.

Section Chains.

Implicit Types (h : heap) (b : ResizableBuffer) (ws : list write).

Lemma by_value_append h op :
  by_value (WAppend op) = true ->
  append_ok h op = true /\ append_bytes h op = append_bytes [] op.
Proof. destruct op; intros H; try discriminate; split; reflexivity. Qed.

Lemma by_value_prepend h b op :
  by_value (WPrepend op) = true ->
  prepend_ok h op = true /\ prepend_clear b op = true /\
  prepend_bytes h op = prepend_bytes [] op.
Proof. destruct op; intros H; try discriminate; repeat split. Qed.

Lemma run_writes_content ws : forall h b,
  inv h b = true -> forallb by_value ws = true ->
  exists b' h',
    run_writes ws b h = Some (b', h') /\
    inv h' b' = true /\
    content h' b' = front_bytes ws ++ content h b ++ back_bytes ws /\
    offset b' = offset b + Z.of_nat (length (front_bytes ws))
                + Z.of_nat (length (back_bytes ws)).
Proof.
  induction ws as [|w ws IH]; intros h b Hi Hall.
  - exists b, h. split; [reflexivity|]. split; [exact Hi|].
    simpl. rewrite app_nil_r. split; [reflexivity|lia].
  - simpl in Hall. apply andb_true_iff in Hall as [Hw Hall].
    destruct w as [op|op]; cbn [run_writes run_write].
    + destruct (by_value_append h op Hw) as [Hok Hb].
      rewrite (bind_eq2 _ _ _ _ (run_append_eq h b op Hi Hok)).
      rewrite Hb.
      pose proof (appended_inv h b (append_bytes [] op) Hi) as Hi1.
      pose proof (appended_content h b (append_bytes [] op) Hi) as Hc1.
      destruct (IH _ _ Hi1 Hall) as (b' & h' & Hrun & Hi' & Hc & Ho).
      exists b', h'. split; [exact Hrun|]. split; [exact Hi'|].
      cbn [front_bytes back_bytes]. split.
      * rewrite Hc, Hc1, <- !app_assoc. reflexivity.
      * rewrite Ho. unfold appended. cbn [fst offset].
        rewrite length_app. lia.
    + destruct (by_value_prepend h b op Hw) as (Hok & Hcl & Hb).
      pose proof (run_prepend_eq h b op Hi Hok) as Hrun1. cbn zeta in Hrun1.
      rewrite (prepend_bytes_clear h b op Hi Hok Hcl) in Hrun1.
      rewrite (bind_eq2 _ _ _ _ Hrun1). rewrite Hb.
      pose proof (prepended_inv h b (prepend_bytes [] op) Hi) as Hi1.
      pose proof (prepended_content h b (prepend_bytes [] op) Hi) as Hc1.
      destruct (IH _ _ Hi1 Hall) as (b' & h' & Hrun & Hi' & Hc & Ho).
      exists b', h'. split; [exact Hrun|]. split; [exact Hi'|].
      cbn [front_bytes back_bytes]. split.
      * rewrite Hc, Hc1, <- !app_assoc. reflexivity.
      * rewrite Ho. unfold prepended. cbn [fst offset].
        rewrite length_app. lia.
Qed.

End Chains.

(** X13. Chained writes compose: after any chain of by-value appends and
    prepends (strings, bytes, CRLF, integers, floats), the logical content
    is the prepended values, the most recently prepended first, then the
    content the buffer had, then the appended values in call order; and
    [Len()] has grown by the total number of bytes. *)
Theorem chained_writes_compose (h : heap) (b : ResizableBuffer)
        (ws : list write) :
  inv h b = true -> forallb by_value ws = true ->
  exists b' h' cs,
    run_writes ws b h = Some (b', h') /\
    Bytes b' h' = Some (cs, h') /\
    load h' cs = front_bytes ws ++ content h b ++ back_bytes ws /\
    Len b' = Len b + Z.of_nat (length (front_bytes ws))
             + Z.of_nat (length (back_bytes ws)).
Proof.
  intros Hi Hall.
  destruct (run_writes_content ws h b Hi Hall)
    as (b' & h' & Hrun & Hi' & Hc & Ho).
  destruct (Bytes_content h' b' Hi') as (cs & Hby & _ & Hcs).
  exists b', h', cs. split; [exact Hrun|]. split; [exact Hby|].
  split; [rewrite Hcs; exact Hc|exact Ho].
Qed.

Lemma chained_writes_compose_witness :
  inv [] (NewResizableBuffer None) = true /\
  forallb by_value
    [WAppend (ACopyString "ab"); WPrepend (PByte 1);
     WAppend (AUint16 258 true); WPrepend (PString "xy"); WAppend ACRLF]
    = true /\
  exists b' h' cs,
    run_writes
      [WAppend (ACopyString "ab"); WPrepend (PByte 1);
       WAppend (AUint16 258 true); WPrepend (PString "xy"); WAppend ACRLF]
      (NewResizableBuffer None) [] = Some (b', h') /\
    Bytes b' h' = Some (cs, h') /\
    load h' cs = [120; 121; 1] ++ [] ++ [97; 98; 2; 1; 13; 10].
Proof.
  split; [reflexivity|]. split; [reflexivity|].
  destruct (chained_writes_compose [] (NewResizableBuffer None)
              [WAppend (ACopyString "ab"); WPrepend (PByte 1);
               WAppend (AUint16 258 true); WPrepend (PString "xy");
               WAppend ACRLF] eq_refl eq_refl)
    as (b' & h' & cs & Hrun & Hby & Hc & _).
  exists b', h', cs. split; [exact Hrun|]. split; [exact Hby|exact Hc].
Defined.

(** X15. A prepend that does not reallocate changes what an earlier
    [Bytes()] view shows: the view keeps its position and length, so it
    then reads the first [cursor] bytes of the new content, that is the
    prepended bytes followed by the start of the old content. *)
Theorem prepend_in_place_shifts_earlier_view (h : heap) (b : ResizableBuffer)
        (op : prepend_op) :
  inv h b = true -> prepend_ok h op = true ->
  Z.of_nat (length (prepend_bytes h op)) <= len (buffer b) - offset b ->
  exists b' h' w cs,
    run_prepend op b h = Some (b', h') /\
    Bytes b h = Some (cs, h) /\
    length w = length (prepend_bytes h op) /\
    (prepend_clear b op = true -> w = prepend_bytes h op) /\
    load h' cs = take (Z.to_nat (offset b)) (w ++ load h cs).
Proof.
  intros Hi Hok Hfit. pose proof Hi as [Hv Ho]%inv_spec.
  pose proof (length_load h _ Hv) as HL.
  set (n := length (prepend_bytes h op)) in *.
  pose proof (run_prepend_eq h b op Hi Hok) as Hrun. cbn zeta in Hrun.
  fold n in Hrun.
  pose proof (prepend_ok_shifted h b op (Z.of_nat n) Hi ltac:(lia) Hok)
    as Hok1.
  pose proof (prepend_bytes_length h _ op Hok Hok1) as Hlen. fold n in Hlen.
  set (w := prepend_bytes (snd (shifted (Z.of_nat n) b h)) op) in *.
  pose proof (prepended_load h b w Hi) as Hload.
  pose proof (prepended_inv h b w Hi) as [Hv' _]%inv_spec.
  assert (fst (prepended w b h)
          = {| buffer := buffer b; offset := offset b + Z.of_nat n |}) as Hb'.
  { unfold prepended, shifted. rewrite Hlen.
    destruct (Z.ltb_spec (len (buffer b) - offset b) (Z.of_nat n)); [lia|].
    reflexivity. }
  rewrite Hb' in Hload, Hv'. cbn [buffer] in Hload, Hv'.
  rewrite Hlen in Hload.
  destruct (Z.ltb_spec (len (buffer b) - offset b) (Z.of_nat n)) as [|_];
    [lia|].
  destruct (Bytes_content h b Hi) as (cs & Hby & _ & Hcs).
  assert (slice_range (buffer b) 0 (offset b) = Some cs) as Hsl.
  { unfold Bytes, slice_to, lift in Hby.
    destruct (slice_range (buffer b) 0 (offset b)); [|discriminate].
    injection Hby as ->. reflexivity. }
  exists (fst (prepended w b h)), (snd (prepended w b h)), w, cs.
  split; [rewrite Hrun; destruct (prepended w b h); reflexivity|].
  split; [exact Hby|]. split; [exact Hlen|].
  split; [intros Hc; apply prepend_bytes_clear; assumption|].
  rewrite (load_slice_range _ _ _ _ _ Hv' Hsl) by lia.
  rewrite Hload, Hcs. unfold content.
  rewrite Z.sub_0_r. change (Z.to_nat 0) with 0%nat. rewrite drop_0.
  rewrite !take_app, !take_take. do 2 f_equal. unfold len in *. lia.
Qed.

Lemma prepend_in_place_shifts_earlier_view_witness :
  inv abc_heap abc_buffer = true /\
  prepend_ok abc_heap (PByte 255) = true /\
  1 <= len (buffer abc_buffer) - offset abc_buffer /\
  exists b' h',
    run_prepend (PByte 255) abc_buffer abc_heap = Some (b', h') /\
    load abc_heap (Slice 0 0 3 6) = [97; 98; 99] /\
    load h' (Slice 0 0 3 6) = [255; 97; 98].
Proof.
  split; [reflexivity|]. split; [reflexivity|].
  split; [vm_compute; discriminate|].
  destruct (prepend_in_place_shifts_earlier_view abc_heap abc_buffer
              (PByte 255) eq_refl eq_refl ltac:(vm_compute; discriminate))
    as (b' & h' & w & cs & Hrun & Hby & _ & Hw & Hload).
  vm_compute in Hby. injection Hby as <-.
  rewrite (Hw eq_refl) in Hload.
  exists b', h'. split; [exact Hrun|]. split; [reflexivity|exact Hload].
Defined.

(** X16. "Unbounded" means bounded by the spare capacity, so on a buffer
    with no spare capacity -- a full one, or a fresh empty one --
    [ReadInto] with [maxSize <= 0] reads nothing: the source is handed an
    empty slice, the chunk is empty, and the buffer and the heap are
    exactly as before; only the source's error comes back. *)
Theorem read_into_without_spare_reads_nothing (h : heap)
        (b : ResizableBuffer) (r : Reader) (maxSize : Z) :
  inv h b = true -> maxSize <= 0 -> offset b = len (buffer b) ->
  (forall p, (length (fst (Read r p)) <= s_len p)%nat) ->
  exists p chunk,
    ReadInto r maxSize b h = Some ((chunk, snd (Read r p), b), h) /\
    len p = 0 /\ len chunk = 0.
Proof.
  intros Hi Hm Hfull Hr. pose proof Hi as [Hv Ho]%inv_spec.
  pose proof (ReadInto_eq h b r maxSize Hi) as Heq. cbn zeta in Heq.
  destruct (grown_cases h b maxSize) as [Hsame _].
  rewrite Hsame in Heq by lia. cbn [fst snd] in Heq.
  destruct (Z.ltb_spec 0 maxSize) as [|_]; [lia|].
  match type of Heq with
  | (length (fst (Read r ?q)) <= _)%nat -> _ => set (p := q) in *
  end.
  pose proof (Hr p) as Hd.
  assert (s_len p = 0%nat) as Hp0 by (cbn [p s_len]; lia).
  assert (fst (Read r p) = []) as Hnil
    by (destruct (fst (Read r p)); [reflexivity|simpl in Hd; lia]).
  specialize (Heq ltac:(rewrite Hnil; simpl; lia)).
  rewrite Hnil in Heq. rewrite poke_nil in Heq.
  change (Z.of_nat (length (@nil byte))) with 0 in Heq.
  rewrite offset_add_0 in Heq.
  exists p. eexists. split; [exact Heq|].
  split; [unfold len; rewrite Hp0; reflexivity|reflexivity].
Qed.

Lemma read_into_without_spare_reads_nothing_witness :
  inv [] (NewResizableBuffer None) = true /\
  -1 <= 0 /\
  offset (NewResizableBuffer None) = len (buffer (NewResizableBuffer None)) /\
  exists chunk,
    ReadInto short_reader (-1) (NewResizableBuffer None) []
      = Some ((chunk, Some "test error"%string, NewResizableBuffer None), []).
Proof.
  split; [reflexivity|]. split; [lia|]. split; [reflexivity|].
  destruct (read_into_without_spare_reads_nothing [] (NewResizableBuffer None)
              short_reader (-1) eq_refl ltac:(lia) eq_refl)
    as (p & chunk & Hrun & _).
  { intros p. simpl. rewrite length_take. lia. }
  exists chunk. exact Hrun.
Defined.
